(** * Deep Q-learning and SVM notebooks: replay memory, action selection,
    optimisation step and hinge loss

  A shallow embedding of the Python notebooks of the repository.

  - Tensor entries are real numbers: the arithmetic the float tensors
    approximate.  Overflow, rounding and non-finite values are outside
    the embedding.
  - The exploration threshold is given both as the exact value of its
    formula and as Python computes it, in binary64 with rounding to
    nearest.
  - Python exceptions that depend on the structure of the data (a sample
    larger than the population, [torch.cat] of an empty list, tensors of
    different shapes) are modelled: a computation returns either a value
    or the exception raised.
  - Mutable globals ([steps_done], [memory], the two networks, the
    optimiser, the random generators) are fields of one program state
    that every function threads through; a mutation made before an
    exception is raised stays made. *)

From Stdlib Require Import Reals Lra Lia ZArith.
From stdpp Require Import base list strings.

(** ** Python runtime: exceptions and the state-and-exception monad *)

Module Py.

Inductive exn := ValueError | RuntimeError | IndexError | KeyError | TypeError.

Inductive result (A : Type) := Ok (a : A) | Raise (e : exn).
Arguments Ok {A} a.
Arguments Raise {A} e.

#[global] Instance result_ret : MRet result := @Ok.
#[global] Instance result_bind : MBind result :=
  λ A B f m, match m with Ok a => f a | Raise e => Raise e end.
#[global] Instance result_fmap : FMap result :=
  λ A B f m, match m with Ok a => Ok (f a) | Raise e => Raise e end.

(** A statement run in state [S]: its outcome and the state it leaves. *)
Definition M (S A : Type) : Type := S → result A * S.

Definition ret {S A} (a : A) : M S A := λ s, (Ok a, s).
Definition bind {S A B} (m : M S A) (f : A → M S B) : M S B :=
  λ s, match m s with
       | (Ok a, s') => f a s'
       | (Raise e, s') => (Raise e, s')
       end.
Definition lift {S A} (r : result A) : M S A := λ s, (r, s).
Definition gets {S A} (f : S → A) : M S A := λ s, (Ok (f s), s).
Definition modify {S} (f : S → S) : M S unit := λ s, (Ok tt, f s).

End Py.
Export Py.

#[global] Instance M_ret {S} : MRet (M S) := λ A, @Py.ret S A.
#[global] Instance M_bind {S} : MBind (M S) := λ A B f m, Py.bind m f.

(** ** The [random] module

  A generator is a tape of raw 53-bit words and a cursor; every draw
  reads the word under the cursor and advances it.  [random()] scales the
  word into [[0, 1)], [randbelow n] reduces it into [[0, n)]. *)

Module Random.

Record Rng := { tape : nat → Z; cursor : nat }.

Definition word (g : Rng) : Z * Rng :=
  (tape g (cursor g), {| tape := tape g; cursor := S (cursor g) |}).

Definition random (g : Rng) : R * Rng :=
  let '(w, g') := word g in
  ((IZR (w mod 9007199254740992) / IZR 9007199254740992)%R, g').

Definition randbelow (n : nat) (g : Rng) : nat * Rng :=
  let '(w, g') := word g in
  ((if decide (n = 0) then 0 else Z.to_nat (w mod Z.of_nat n)), g').

(** The selection loop of [random.sample]: [k] draws are left and the
    first [m] slots of [pool], a copy of the population, hold the items not
    selected yet.  (For a population much larger than the sample CPython
    draws positions afresh until each is new instead of copying the
    population; either way the result is the items at [k] different
    positions, and this loop stands for both.)
<<
    for i in range(k):
        j = randbelow(n - i)
        result[i] = pool[j]
        pool[j] = pool[n - i - 1]
>> *)
Fixpoint sample_pool {A} (k m : nat) (pool : list A) (g : Rng)
  : result (list A) * Rng :=
  match k with
  | 0 => (Ok [], g)
  | S k' =>
      let '(j, g1) := randbelow m g in
      match pool !! j, pool !! (m - 1) with
      | Some x, Some y =>
          let '(r, g2) := sample_pool k' (m - 1) (<[j := y]> pool) g1 in
          (cons x <$> r, g2)
      | _, _ => (Raise IndexError, g1)
      end
  end.

(** [random.sample(population, k)]: [ValueError] when the sample is
    larger than the population. *)
Definition sample {A} (population : list A) (k : nat) : M Rng (list A) :=
  λ g,
    let n := length population in
    if decide (k ≤ n) then sample_pool k n population g
    else (Raise ValueError, g).

(** A generator for examples: its tape is 0, 1, 2, ... *)
Definition counting : Rng := {| tape := Z.of_nat; cursor := 0 |}.

End Random.

(** ** Binary64 arithmetic

  The numbers of IEEE 754 binary64 as the reals they denote, with
  rounding to nearest, ties to even.  Infinities, NaN, the sign of zero
  and overflow are outside the embedding. *)

Module Binary64.
Local Open Scope R_scope.

Definition pow2 (e : Z) : R := powerRZ 2 e.

(** The integer nearest to [x], the even one of two at equal distance. *)
Definition nearest_even (x : R) : Z :=
  let n := Int_part x in
  if Rlt_dec (x - IZR n) (1 / 2) then n
  else if Rlt_dec (1 / 2) (x - IZR n) then (n + 1)%Z
  else if Z.even n then n else (n + 1)%Z.

(** The exponent [e] of the binade of [x], [2^e <= |x| < 2^(e+1)], and
    that of the smallest normal number below it. *)
Definition exponent (x : R) : Z :=
  Z.max (Int_part (ln (Rabs x) / ln 2)) (-1022).

(** The binary64 number nearest to [x]: a significand of 53 bits. *)
Definition round (x : R) : R :=
  IZR (nearest_even (x * pow2 (52 - exponent x))) * pow2 (exponent x - 52).

(** The operations of Python's [float]. *)
Definition add (x y : R) : R := round (x + y).
Definition sub (x y : R) : R := round (x - y).
Definition mul (x y : R) : R := round (x * y).
Definition div (x y : R) : R := round (x / y).

(** What is assumed of [math.exp], the exponential of the C library:
    [exp(0)] is 1, and on the arguments from -101 to 0 the result is
    within [2^-50] of the exponential, relatively (a unit in the last
    place is at most [2^-52]). *)
Definition exp_accurate (exp64 : R → R) : Prop :=
  exp64 0 = 1
  ∧ ∀ x, -101 <= x <= 0 → Rabs (exp64 x - exp x) <= pow2 (-50) * exp x.

End Binary64.

(** ** [collections.deque] with a maximum length *)

Module Deque.

Record deque (A : Type) := { maxlen : nat; items : list A }.
Arguments maxlen {A} d.
Arguments items {A} d.

(** [deque([], maxlen=n)] *)
Definition empty {A} (n : nat) : deque A := {| maxlen := n; items := [] |}.

(** [d.append(x)]: the item is added on the right; when the deque is then
    longer than [maxlen] one item is removed from the left. *)
Definition append {A} (x : A) (d : deque A) : deque A :=
  let l := items d ++ [x] in
  {| maxlen := maxlen d;
     items := if decide (maxlen d < length l) then tail l else l |}.

(** The last [n] items of a history, oldest first. *)
Definition most_recent {A} (n : nat) (history : list A) : list A :=
  drop (length history - n) history.

End Deque.

(** ** Replay memory *)

Record Transition := {
  state : list R;
  action : nat;
  reward : R;
  next_state : option (list R)   (* [None]: the state after which the simulation ended *)
}.

Module ReplayMemory.

Record t := { memory : Deque.deque Transition }.

(** [ReplayMemory(capacity)] *)
Definition init (capacity : nat) : t := {| memory := Deque.empty capacity |}.

(** [push(self, *args)]: appends [Transition] of the four arguments to
    [self.memory]. *)
Definition push (self : t) (state : list R) (action : nat) (reward : R)
    (next_state : option (list R)) : t :=
  {| memory := Deque.append
       {| state := state; action := action; reward := reward;
          next_state := next_state |} (memory self) |}.

(** [random.sample(self.memory, batch_size)] *)
Definition sample (self : t) (batch_size : nat) : M Random.Rng (list Transition) :=
  Random.sample (Deque.items (memory self)) batch_size.

(** [len(self.memory)] *)
Definition len (self : t) : nat := length (Deque.items (memory self)).

Definition capacity (self : t) : nat := Deque.maxlen (memory self).
Definition contents (self : t) : list Transition := Deque.items (memory self).

(** [self.push( *tr )]: a push of the four fields of [tr]. *)
Definition push_transition (self : t) (tr : Transition) : t :=
  push self (state tr) (action tr) (reward tr) (next_state tr).

(** A run of pushes, oldest first. *)
Definition push_all (trs : list Transition) (self : t) : t :=
  foldl push_transition self trs.

(** The two operations a training run applies to the buffer; a sample
    also moves the generator it draws from. *)
Inductive op := Push (tr : Transition) | Sample (batch_size : nat).

Definition run_op (st : t * Random.Rng) (o : op) : t * Random.Rng :=
  match o with
  | Push tr => (push_transition st.1 tr, st.2)
  | Sample b => (st.1, (sample st.1 b st.2).2)
  end.

Definition run (ops : list op) (st : t * Random.Rng) : t * Random.Rng :=
  foldl run_op st ops.

(** The transitions a run pushes, oldest first. *)
Definition pushed (ops : list op) : list Transition :=
  omap (λ o, match o with Push tr => Some tr | Sample _ => None end) ops.

(** Four transitions to tell apart in examples. *)
Definition example_transition (a : nat) : Transition :=
  {| state := [0%R]; action := a; reward := 1%R; next_state := Some [0%R] |}.

End ReplayMemory.

(** ** Tensors: the [torch] operations the notebooks call

    A 1-D tensor is a list of reals and a 2-D tensor a list of rows.
    Operations between tensors of different shapes raise [RuntimeError];
    broadcasting is modelled where the notebooks rely on it
    ([broadcast_mul]). *)

Module Torch.

(** Elementwise combination of two tensors of the same length. *)
Fixpoint zip_strict {A B C} (f : A → B → C) (u : list A) (v : list B)
  : result (list C) :=
  match u, v with
  | [], [] => Ok []
  | a :: u', b :: v' => cons (f a b) <$> zip_strict f u' v'
  | _, _ => Raise RuntimeError
  end.

(** The same with a combination that may raise. *)
Fixpoint zip_strictM {A B C} (f : A → B → result C) (u : list A) (v : list B)
  : result (list C) :=
  match u, v with
  | [], [] => Ok []
  | a :: u', b :: v' => c ← f a b; cons c <$> zip_strictM f u' v'
  | _, _ => Raise RuntimeError
  end.

(** [torch.sum] of a 1-D and of a 2-D tensor. *)
Definition sum (v : list R) : R := foldr Rplus 0%R v.
Definition sum2 (m : list (list R)) : R := sum (sum <$> m).

Definition dot (u v : list R) : result R := sum <$> zip_strict Rmult u v.

(** [nn.Linear]: [weight] has one row per output feature. *)
Record Linear := { weight : list (list R); bias : list R }.

(** [layer(x)] for one input row: [x · weightᵀ + bias]. *)
Definition linear (layer : Linear) (x : list R) : result (list R) :=
  wx ← mapM (λ row, dot row x) (weight layer);
  zip_strict Rplus wx (bias layer).

(** [F.relu] *)
Definition relu (x : list R) : list R := Rmax 0 <$> x.

(** [torch.cat] of a list of scalars-in-a-tensor: the list must not be
    empty. *)
Definition cat {A} (ts : list A) : result (list A) :=
  match ts with
  | [] => Raise RuntimeError
  | _ => Ok ts
  end.

(** [torch.cat] of a list of one-row tensors: not empty, and the rows have
    one width. *)
Definition cat_rows (ts : list (list R)) : result (list (list R)) :=
  match ts with
  | [] => Raise RuntimeError
  | r :: rest =>
      if forallb (λ r', Nat.eqb (length r') (length r)) rest then Ok ts
      else Raise RuntimeError
  end.

(** Maximum of a row and the index of its first occurrence, scanning from
    a running best. *)
Fixpoint max_from (best : R) (ibest i : nat) (row : list R) : R * nat :=
  match row with
  | [] => (best, ibest)
  | x :: row' =>
      if Rlt_dec best x then max_from x i (S i) row'
      else max_from best ibest (S i) row'
  end.

Definition row_max (row : list R) : result (R * nat) :=
  match row with
  | [] => Raise IndexError
  | x :: row' => Ok (max_from x 0 1 row')
  end.

(** [v] is the largest entry of [row]. *)
Definition is_max (row : list R) (v : R) : Prop :=
  v ∈ row ∧ ∀ x, x ∈ row → (x <= v)%R.

(** [m.max(dim=1)]: the values and the indices, one per row. *)
Definition max_dim1 (m : list (list R)) : result (list R * list nat) :=
  vi ← mapM row_max m; Ok (fst <$> vi, snd <$> vi).

(** [m.gather(dim=1, index)]: entry [index[i]] of row [i]. *)
Definition gather (m : list (list R)) (index : list nat) : result (list R) :=
  zip_strictM (λ (row : list R) (a : nat),
                 match row !! a with
                 | Some q => Ok q
                 | None => Raise RuntimeError
                 end) m index.

(** [torch.zeros(n)] *)
Definition zeros (n : nat) : list R := replicate n 0%R.

(** [dst[mask] = src]: the entries of [src] go, in order, to the positions
    where [mask] is true; [mask] is as long as [dst] and has as many true
    entries as [src] has items. *)
Fixpoint masked_assign (dst : list R) (mask : list bool) (src : list R)
  : result (list R) :=
  match dst, mask with
  | [], [] => match src with [] => Ok [] | _ => Raise RuntimeError end
  | d :: dst', b :: mask' =>
      if b then
        match src with
        | v :: src' => cons v <$> masked_assign dst' mask' src'
        | [] => Raise RuntimeError
        end
      else cons d <$> masked_assign dst' mask' src
  | _, _ => Raise IndexError
  end.

(** [nn.SmoothL1Loss()] (mean reduction, beta 1). *)
Definition smooth_l1 (x y : R) : R :=
  let d := Rabs (x - y) in
  if Rlt_dec d 1 then (0.5 * d * d)%R else (d - 0.5)%R.

Definition SmoothL1Loss (input target : list R) : result R :=
  l ← zip_strict smooth_l1 input target;
  Ok (sum l / INR (length l))%R.

(** A value of a [state_dict]. *)
Inductive Tensor := Tensor1 (v : list R) | Tensor2 (m : list (list R)).

(** [t * c] *)
Definition tensor_scale (t : Tensor) (c : R) : Tensor :=
  match t with
  | Tensor1 v => Tensor1 ((λ x, x * c)%R <$> v)
  | Tensor2 m => Tensor2 ((λ row : list R, (λ x, x * c)%R <$> row) <$> m)
  end.

(** [a + b] for tensors of one shape. *)
Definition tensor_add (a b : Tensor) : result Tensor :=
  match a, b with
  | Tensor1 u, Tensor1 v => Tensor1 <$> zip_strict Rplus u v
  | Tensor2 m, Tensor2 n => Tensor2 <$> zip_strictM (zip_strict Rplus) m n
  | _, _ => Raise RuntimeError
  end.

(** The entry of a tensor at a multi-index. *)
Definition entry (t : Tensor) (ix : list nat) : option R :=
  match t, ix with
  | Tensor1 v, [i] => v !! i
  | Tensor2 m, [i; j] => m !! i ≫= (.!! j)
  | _, _ => None
  end.

(** Row widths: two 2-D tensors have one shape when these agree. *)
Definition widths (m : list (list R)) : list nat := length <$> m.

(** An ordered dictionary from parameter names to tensors. *)
Definition StateDict := list (string * Tensor).

Fixpoint dict_get (key : string) (d : StateDict) : result Tensor :=
  match d with
  | [] => Raise KeyError
  | (k, v) :: d' => if String.eqb k key then Ok v else dict_get key d'
  end.

(** [d[key] = v]: replaces the value of an existing key, appends a new
    one. *)
Fixpoint dict_set (key : string) (v : Tensor) (d : StateDict) : StateDict :=
  match d with
  | [] => [(key, v)]
  | (k, v') :: d' =>
      if String.eqb k key then (k, v) :: d' else (k, v') :: dict_set key v d'
  end.

End Torch.
Export Torch.

(** ** The Q-network *)

Module DQN.

(** The three layers of [DQN.__init__]. *)
Record t := { layer1 : Linear; layer2 : Linear; layer3 : Linear }.

(** [DQN.forward] on one input row. *)
Definition forward (net : t) (x : list R) : result (list R) :=
  x ← linear (layer1 net) x;
  x ← linear (layer2 net) (relu x);
  linear (layer3 net) (relu x).

(** [net(batch)]: the rows of the batch go through [forward]. *)
Definition call (net : t) (batch : list (list R)) : result (list (list R)) :=
  mapM (forward net) batch.

Definition keys : list string :=
  ["layer1.weight"; "layer1.bias"; "layer2.weight"; "layer2.bias";
   "layer3.weight"; "layer3.bias"].

(** [net.state_dict()] *)
Definition state_dict (net : t) : StateDict :=
  [("layer1.weight", Tensor2 (weight (layer1 net)));
   ("layer1.bias", Tensor1 (bias (layer1 net)));
   ("layer2.weight", Tensor2 (weight (layer2 net)));
   ("layer2.bias", Tensor1 (bias (layer2 net)));
   ("layer3.weight", Tensor2 (weight (layer3 net)));
   ("layer3.bias", Tensor1 (bias (layer3 net)))].

(** The value a strict [load_state_dict] takes for one parameter: the key
    is present and holds a tensor of the parameter's shape. *)
Definition load_matrix (key : string) (current : list (list R)) (sd : StateDict)
  : result (list (list R)) :=
  v ← dict_get key sd;
  match v with
  | Tensor2 m =>
      if decide (widths m = widths current) then Ok m else Raise RuntimeError
  | Tensor1 _ => Raise RuntimeError
  end.

Definition load_vector (key : string) (current : list R) (sd : StateDict)
  : result (list R) :=
  v ← dict_get key sd;
  match v with
  | Tensor1 u =>
      if decide (length u = length current) then Ok u else Raise RuntimeError
  | Tensor2 _ => Raise RuntimeError
  end.

(** [net.load_state_dict(sd)] (strict): no unexpected key, no missing key,
    no shape mismatch. *)
Definition load_state_dict (sd : StateDict) (net : t) : result t :=
  if negb (forallb (λ kv : string * Tensor, bool_decide (kv.1 ∈ keys)) sd)
  then Raise RuntimeError
  else
    w1 ← load_matrix "layer1.weight" (weight (layer1 net)) sd;
    b1 ← load_vector "layer1.bias" (bias (layer1 net)) sd;
    w2 ← load_matrix "layer2.weight" (weight (layer2 net)) sd;
    b2 ← load_vector "layer2.bias" (bias (layer2 net)) sd;
    w3 ← load_matrix "layer3.weight" (weight (layer3 net)) sd;
    b3 ← load_vector "layer3.bias" (bias (layer3 net)) sd;
    Ok {| layer1 := {| weight := w1; bias := b1 |};
          layer2 := {| weight := w2; bias := b2 |};
          layer3 := {| weight := w3; bias := b3 |} |}.

(** The shapes of a layer with [n_in] inputs and [n_out] outputs, of a
    network from [n_in] observations to [n_out] actions, and of two
    networks of one architecture. *)
Definition layer_shape (layer : Linear) (n_in n_out : nat) : Prop :=
  length (weight layer) = n_out
  ∧ length (bias layer) = n_out
  ∧ Forall (λ row, length row = n_in) (weight layer).

Definition well_shaped (net : t) (n_in n_out : nat) : Prop :=
  ∃ h1 h2,
    layer_shape (layer1 net) n_in h1
    ∧ layer_shape (layer2 net) h1 h2
    ∧ layer_shape (layer3 net) h2 n_out.

Definition same_layer_shape (a b : Linear) : Prop :=
  widths (weight a) = widths (weight b) ∧ length (bias a) = length (bias b).

Definition same_shape (a b : t) : Prop :=
  same_layer_shape (layer1 a) (layer1 b)
  ∧ same_layer_shape (layer2 a) (layer2 b)
  ∧ same_layer_shape (layer3 a) (layer3 b).

(** Entry [ix] of the parameter named [key]. *)
Definition param (net : t) (key : string) (ix : list nat) : option R :=
  match dict_get key (state_dict net) with
  | Ok t => entry t ix
  | Raise _ => None
  end.

End DQN.

(** ** Hyper-parameters *)

Record Config := {
  BATCH_SIZE : nat;
  GAMMA : R;
  EPS_START : R;
  EPS_END : R;
  EPS_DECAY : R;
  TAU : R
}.

(** The values the notebook sets. *)
Definition hyperparameters : Config :=
  {| BATCH_SIZE := 128; GAMMA := 0.99; EPS_START := 0.9; EPS_END := 0.1;
     EPS_DECAY := 10000; TAU := 0.005 |}.

(** ** What the notebook takes from its libraries

    The simulation environment and the gradient machinery are used through
    fixed calls and are not part of the repository. *)

Module Gym.

(** What [env.step(action)] returns (its [info] is never read). *)
Record StepResult := {
  observation : list R;
  reward : R;
  terminated : bool;
  truncated : bool
}.

End Gym.

Class Framework := {
  Optimizer : Type;
  Env : Type;
  (** [optimizer.zero_grad(); loss.backward();
      clip_grad_value_(policy_net.parameters(), 100); optimizer.step()]:
      from the loss as a function of the policy parameters, the parameters
      and the optimiser state, to the new parameters and state. *)
  optimizer_step : (DQN.t → result R) → DQN.t → Optimizer → DQN.t * Optimizer;
  (** [env.step(action)] *)
  env_step : nat → Env → Gym.StepResult * Env;
  (** [env.action_space.sample()] *)
  action_space_sample : Env → nat * Env
}.

(** ** The reinforcement-learning notebook *)

Module DQL.

(** The batch after transposition and concatenation. *)
Record Batch := {
  state_batch : list (list R);
  action_batch : list nat;
  reward_batch : list R;
  non_final_mask : list bool;
  non_final_next_states : list (list R)
}.

(** Lines [batch = Transition( *zip( *transitions ) )] to
    [reward_batch = torch.cat(batch.reward)] of [optimize_model]. *)
Definition collate (transitions : list Transition) : result Batch :=
  match transitions with
  | [] => Raise TypeError
  | _ =>
      let mask := (λ tr, bool_decide (next_state tr ≠ None)) <$> transitions in
      nfns ← cat_rows (omap next_state transitions);
      sb ← cat_rows (state <$> transitions);
      ab ← cat (action <$> transitions);
      rb ← cat ((λ tr : Transition, reward tr) <$> transitions);
      Ok {| state_batch := sb; action_batch := ab; reward_batch := rb;
            non_final_mask := mask; non_final_next_states := nfns |}
  end.

(** [policy_net(state_batch).gather(dim=1, index=action_batch)] *)
Definition state_action_values (policy : DQN.t) (batch : Batch) : result (list R) :=
  q ← DQN.call policy (state_batch batch);
  gather q (action_batch batch).

(** [policy_net(state).max(dim=1)[1].view(1, 1)]: the index of the largest
    predicted value. *)
Definition greedy_action (policy : DQN.t) (state : list R) : result nat :=
  q ← DQN.forward policy state;
  vi ← row_max q;
  Ok vi.2.

(** The exploration threshold of [select_action] at step counter [t]: the
    exact value of the formula. *)
Definition eps_threshold (cfg : Config) (t : nat) : R :=
  (EPS_END cfg + (EPS_START cfg - EPS_END cfg) * exp (-1 * INR t / EPS_DECAY cfg))%R.

(** The threshold as [select_action] computes it, in binary64:
<<
    EPS_END + (EPS_START - EPS_END) * math.exp(-1. * steps_done / EPS_DECAY)
>>
    The constants are the binary64 numbers nearest to the literals, the
    counter is converted to [float], every operation rounds, and [exp64]
    is [math.exp]. *)
Definition eps_threshold64 (exp64 : R → R) (cfg : Config) (t : nat) : R :=
  let eps_start := Binary64.round (EPS_START cfg) in
  let eps_end := Binary64.round (EPS_END cfg) in
  let eps_decay := Binary64.round (EPS_DECAY cfg) in
  let steps_done := Binary64.round (INR t) in
  Binary64.add eps_end
    (Binary64.mul (Binary64.sub eps_start eps_end)
       (exp64 (Binary64.div (Binary64.mul (-1) steps_done) eps_decay))).

Section Program.
Context `{Framework}.
Variable cfg : Config.

(** [next_state_values] and [expected_state_action_values] of
    [optimize_model]. *)
Definition expected_state_action_values (target : DQN.t) (batch : Batch)
  : result (list R) :=
  let next_state_values := zeros (BATCH_SIZE cfg) in
  q ← DQN.call target (non_final_next_states batch);
  vi ← max_dim1 q;
  next_state_values ←
    masked_assign next_state_values (non_final_mask batch) vi.1;
  zip_strict (λ v r, v * GAMMA cfg + r)%R next_state_values (reward_batch batch).

(** The target of one transition as the optimisation step is meant to set
    it: the reward for a final transition, the reward plus the discounted
    best value the target network predicts for the next state otherwise. *)
Definition td_target (target : DQN.t) (tr : Transition) (v : R) : Prop :=
  match next_state tr with
  | None => v = reward tr
  | Some s' =>
      ∃ q m, DQN.forward target s' = Ok q ∧ is_max q m
             ∧ v = (reward tr + GAMMA cfg * m)%R
  end.

(** The loss of a batch as a function of the policy parameters. *)
Definition loss (batch : Batch) (expected : list R) (policy : DQN.t) : result R :=
  sav ← state_action_values policy batch;
  SmoothL1Loss sav expected.

(** The soft update of the target network:
<<
    for key in policy_net_state_dict:
        target_net_state_dict[key] = policy_net_state_dict[key]*TAU
                                     + target_net_state_dict[key]*(1-TAU)
>> *)
Fixpoint soft_update_loop (keys : list string)
    (policy_net_state_dict target_net_state_dict : StateDict) : result StateDict :=
  match keys with
  | [] => Ok target_net_state_dict
  | key :: keys' =>
      p ← dict_get key policy_net_state_dict;
      t ← dict_get key target_net_state_dict;
      v ← tensor_add (tensor_scale p (TAU cfg)) (tensor_scale t (1 - TAU cfg));
      soft_update_loop keys' policy_net_state_dict
        (dict_set key v target_net_state_dict)
  end.

Definition soft_update (policy target : DQN.t) : result DQN.t :=
  let target_net_state_dict := DQN.state_dict target in
  let policy_net_state_dict := DQN.state_dict policy in
  sd ← soft_update_loop (fst <$> policy_net_state_dict)
         policy_net_state_dict target_net_state_dict;
  DQN.load_state_dict sd target.

(** The globals of the notebook. *)
Record World := {
  steps_done : nat;
  memory : ReplayMemory.t;
  policy_net : DQN.t;
  target_net : DQN.t;
  optimizer : Optimizer;
  rng : Random.Rng;       (* the generator of the [random] module *)
  env : Env
}.

Definition set_steps_done (n : nat) (w : World) : World :=
  {| steps_done := n; memory := memory w; policy_net := policy_net w;
     target_net := target_net w; optimizer := optimizer w; rng := rng w;
     env := env w |}.
Definition set_memory (m : ReplayMemory.t) (w : World) : World :=
  {| steps_done := steps_done w; memory := m; policy_net := policy_net w;
     target_net := target_net w; optimizer := optimizer w; rng := rng w;
     env := env w |}.
Definition set_policy (p : DQN.t * Optimizer) (w : World) : World :=
  {| steps_done := steps_done w; memory := memory w; policy_net := p.1;
     target_net := target_net w; optimizer := p.2; rng := rng w;
     env := env w |}.
Definition set_target_net (t : DQN.t) (w : World) : World :=
  {| steps_done := steps_done w; memory := memory w; policy_net := policy_net w;
     target_net := t; optimizer := optimizer w; rng := rng w; env := env w |}.
Definition set_rng (g : Random.Rng) (w : World) : World :=
  {| steps_done := steps_done w; memory := memory w; policy_net := policy_net w;
     target_net := target_net w; optimizer := optimizer w; rng := g;
     env := env w |}.
Definition set_env (e : Env) (w : World) : World :=
  {| steps_done := steps_done w; memory := memory w; policy_net := policy_net w;
     target_net := target_net w; optimizer := optimizer w; rng := rng w;
     env := e |}.

(** A call into the [random] module. *)
Definition with_rng {A} (m : M Random.Rng A) : M World A :=
  λ w, let '(r, g) := m (rng w) in (r, set_rng g w).

(** A call into the environment. *)
Definition with_env {A} (f : Env → A * Env) : M World A :=
  λ w, let '(a, e) := f (env w) in (Ok a, set_env e w).

(** [memory.sample(batch_size)] *)
Definition memory_sample (batch_size : nat) : M World (list Transition) :=
  λ w, with_rng (ReplayMemory.sample (memory w) batch_size) w.

(** [memory.push(state, action, reward, next_state)] *)
Definition memory_push (state : list R) (action : nat) (reward : R)
    (next_state : option (list R)) : M World unit :=
  modify (λ w, set_memory (ReplayMemory.push (memory w) state action reward next_state) w).

(** [select_action(state)] *)
Definition select_action (state : list R) : M World nat :=
  sample ← with_rng (λ g, let '(x, g') := Random.random g in (Ok x, g'));
  t ← gets steps_done;
  let eps := eps_threshold cfg t in
  _ ← modify (set_steps_done (t + 1));
  if Rgt_dec sample eps then
    net ← gets policy_net;
    lift (greedy_action net state)
  else
    with_env action_space_sample.

(** [optimize_model()] *)
Definition optimize_model : M World unit :=
  n ← gets (λ w, ReplayMemory.len (memory w));
  if decide (n < BATCH_SIZE cfg) then mret tt
  else
    transitions ← memory_sample (BATCH_SIZE cfg);
    batch ← lift (collate transitions);
    policy ← gets policy_net;
    sav ← lift (state_action_values policy batch);
    target ← gets target_net;
    expected ← lift (expected_state_action_values target batch);
    _ ← lift (SmoothL1Loss sav expected);
    _ ← modify (λ w, set_policy
                   (optimizer_step (loss batch expected) (policy_net w) (optimizer w)) w);
    policy ← gets policy_net;
    target ← gets target_net;
    target' ← lift (soft_update policy target);
    modify (set_target_net target').

(** The transition one iteration of the training loop stores. *)
Definition observed_next_state (r : Gym.StepResult) : option (list R) :=
  if Gym.terminated r then None else Some (Gym.observation r).

(** One iteration of the training loop, from [select_action(state)] to
    [optimize_model()]; returns the next state and [done]. *)
Definition training_step (state : list R) : M World (option (list R) * bool) :=
  action ← select_action state;
  r ← with_env (env_step action);
  let done := Gym.terminated r || Gym.truncated r in
  let next_state := observed_next_state r in
  _ ← memory_push state action (Gym.reward r) next_state;
  _ ← optimize_model;
  mret (next_state, done).

End Program.

(** An instance for examples: an optimiser that leaves the parameters as
    they are, and an environment whose every step truncates the episode
    at observation [[1]] with reward 1. *)
Definition example_framework : Framework :=
  {| Optimizer := unit;
     Env := unit;
     optimizer_step := λ _ policy o, (policy, o);
     env_step := λ _ e,
       ({| Gym.observation := [1%R]; Gym.reward := 1%R;
           Gym.terminated := false; Gym.truncated := true |}, e);
     action_space_sample := λ e, (0, e) |}.

(** A buffer holding a final and a non-final transition. *)
Definition example_memory : ReplayMemory.t :=
  ReplayMemory.push
    (ReplayMemory.push (ReplayMemory.init 10) [0%R] 0 1%R None)
    [0%R] 0 1%R (Some [1%R]).

(** A network with one input, one hidden unit per layer and one action. *)
Definition example_net (a : R) : DQN.t :=
  {| DQN.layer1 := {| weight := [[a]]; bias := [0%R] |};
     DQN.layer2 := {| weight := [[1%R]]; bias := [0%R] |};
     DQN.layer3 := {| weight := [[1%R]]; bias := [a] |} |}.

Definition example_world (m : ReplayMemory.t) : @World example_framework :=
  @Build_World example_framework 0 m (example_net 1) (example_net 0) tt
    Random.counting tt.

End DQL.

(** ** The support-vector-machine notebook *)

Module SVM.

(** A sample of the dataset after [ToTensor]: the pixels and the digit. *)
Definition Sample : Type := list R * Z.

(** [only01], [otom1], [normalize] (mean 0, std 1) of the preprocessing
    cell; the pixels are kept flat, so [flatten] changes nothing. *)
Definition only01 (pair : Sample) : Prop := pair.2 = 0%Z ∨ pair.2 = 1%Z.

#[global] Instance only01_dec pair : Decision (only01 pair).
Proof. unfold only01. apply _. Defined.

Definition otom1 (pair : Sample) : Sample :=
  (pair.1, if decide (pair.2 = 0%Z) then (-1)%Z else 1%Z).

Definition normalize (pair : Sample) : Sample :=
  ((λ x, (x - 0) / 1)%R <$> pair.1, pair.2).

Definition preprocess (D : list Sample) : list Sample :=
  normalize <$> (otom1 <$> filter only01 D).

(** [DataLoader(dataset, batch_size = n)]: consecutive batches of [n]
    samples, the last one possibly shorter; [acc] holds the batch being
    filled, newest first. *)
Fixpoint batches {A} (n : nat) (l acc : list A) : list (list A) :=
  match l with
  | [] => match acc with [] => [] | _ => [reverse acc] end
  | x :: l' =>
      if decide (S (length acc) = n) then reverse (x :: acc) :: batches n l' []
      else batches n l' (x :: acc)
  end.

Definition trainLoader (D : list Sample) : list (list Sample) :=
  batches 100 (preprocess D) [].

(** The tensors [X] and [y] of a batch, [y] after [y.type(torch.float32)]. *)
Definition batch_X (batch : list Sample) : list (list R) := fst <$> batch.
Definition batch_y (batch : list Sample) : list R := (λ p : Sample, IZR p.2) <$> batch.

(** [m.t()]: the transpose of a 2-D tensor. *)
Fixpoint t (m : list (list R)) : list (list R) :=
  match m with
  | [] => []
  | row :: rest =>
      match rest with
      | [] => (λ x, [x]) <$> row
      | _ => zip_with cons row (t rest)
      end
  end.

(** [u * v] for 1-D tensors, with broadcasting of a tensor of one entry. *)
Definition broadcast_mul (u v : list R) : result (list R) :=
  match u, v with
  | [a], _ => Ok (Rmult a <$> v)
  | _, [b] => Ok ((λ x, x * b)%R <$> u)
  | _, _ => zip_strict Rmult u v
  end.

(** [m * y] for a 2-D tensor and a 1-D tensor: [y] is broadcast along the
    rows. *)
Definition mul_rows (m : list (list R)) (y : list R) : result (list (list R)) :=
  mapM (λ row, broadcast_mul row y) m.

(** [torch.clamp(m, min = c)] and [1 - m] *)
Definition clamp_min (c : R) (m : list (list R)) : list (list R) :=
  (λ row : list R, (λ x, Rmax x c) <$> row) <$> m.
Definition rsub (c : R) (m : list (list R)) : list (list R) :=
  (λ row : list R, (λ x, c - x)%R <$> row) <$> m.

(** The loss of the training loop:
    [yHat = model(X); loss = torch.sum(torch.clamp(1 - yHat.t()*y, min = 0))] *)
Definition batch_loss (model : Linear) (X : list (list R)) (y : list R) : result R :=
  yHat ← mapM (linear model) X;
  prod ← mul_rows (t yHat) y;
  Ok (sum2 (clamp_min 0 (rsub 1 prod))).

(** The hinge loss of one sample, as the notebook's text defines it, and
    the prediction of the linear model [nn.Linear(k, 1)] with weight row
    [w] and bias [b]. *)
Definition hinge (y fx : R) : R := Rmax 0 (1 - y * fx).
Definition f (w : list R) (b : R) (x : list R) : R :=
  (sum (zip_with Rmult w x) + b)%R.

End SVM.

(** ** The training cell: episodes and their bookkeeping *)

Module Train.
Import DQL.

(** What the training cell keeps besides the globals of [World]. *)
Record Log := {
  episode_durations : list nat;
  total_rewards : list R;
  best_total_rewards : option R;   (* [None]: [float('-inf')] *)
  checkpoint : option StateDict    (* what [torch.save] last wrote, if anything *)
}.

(** The bookkeeping as the hyper-parameter cell leaves it, with no
    checkpoint written yet. *)
Definition fresh : Log :=
  {| episode_durations := []; total_rewards := [];
     best_total_rewards := None; checkpoint := None |}.

(** [np.mean(l)] *)
Definition mean (l : list R) : R := (sum l / INR (length l))%R.

(** [l[-n:]]: the last [n] items, all of [l] when [n] is zero or more than
    its length. *)
Definition last_items {A} (n : nat) (l : list A) : list A :=
  if decide (n = 0) then l else drop (length l - n) l.

(** [best_total_rewards < m] *)
Definition below (best : option R) (m : R) : bool :=
  match best with
  | None => true
  | Some b => if Rlt_dec b m then true else false
  end.

(** The [if done:] block of the training loop for an episode of
    [duration] steps, [policy] being the policy network at that time. *)
Definition record_episode (i_episode duration : nat) (total_reward : R)
    (policy : DQN.t) (log : Log) : Log :=
  let durations := episode_durations log ++ [duration] in
  let rewards := total_rewards log ++ [total_reward] in
  let aw := length durations `min` 50 in
  let m := mean (last_items aw rewards) in
  if decide (i_episode `mod` 50 = 0) then
    if below (best_total_rewards log) m then
      {| episode_durations := durations; total_rewards := rewards;
         best_total_rewards := Some m;
         checkpoint := Some (DQN.state_dict policy) |}
    else
      {| episode_durations := durations; total_rewards := rewards;
         best_total_rewards := best_total_rewards log;
         checkpoint := checkpoint log |}
  else
    {| episode_durations := durations; total_rewards := rewards;
       best_total_rewards := best_total_rewards log;
       checkpoint := checkpoint log |}.

(** How the inner loop [for t in count()] is left: by [break], or not
    within the iterations the model runs. *)
Inductive Outcome := Done (duration : nat) (total_reward : R) | OutOfFuel.

Section Loop.
Context `{Framework}.
Variable env_reset : Env → list R * Env.   (* [env.reset()] *)
Variable cfg : Config.

(** The body of the inner loop from [select_action(state)] to
    [optimize_model()]; returns what the environment answered. *)
Definition step_and_store (state : list R) : M World Gym.StepResult :=
  action ← select_action cfg state;
  r ← with_env (env_step action);
  _ ← memory_push state action (Gym.reward r) (observed_next_state r);
  _ ← optimize_model cfg;
  mret r.

(** The inner loop from iteration [t] on, for at most [fuel] iterations. *)
Fixpoint episode_loop (fuel t : nat) (state : list R) (total_reward : R)
  : M World Outcome :=
  match fuel with
  | 0 => mret OutOfFuel
  | S fuel' =>
      r ← step_and_store state;
      let total_reward := (total_reward + Gym.reward r)%R in
      if Gym.terminated r || Gym.truncated r then mret (Done (t + 1) total_reward)
      else episode_loop fuel' (t + 1) (Gym.observation r) total_reward
  end.

(** A statement on the globals run in the state of the whole cell. *)
Definition on_world {A} (m : M World A) : M (World * Log) A :=
  λ s, let '(r, w) := m s.1 in (r, (w, s.2)).

(** One iteration of [for i_episode in range(num_episodes)]. *)
Definition run_episode (fuel i_episode : nat) : M (World * Log) Outcome :=
  state ← on_world (with_env env_reset);
  out ← on_world (episode_loop fuel 0 state 0);
  match out with
  | Done duration total_reward =>
      _ ← modify (λ s : World * Log,
                    (s.1, record_episode i_episode duration total_reward
                            (policy_net s.1) s.2));
      mret out
  | OutOfFuel => mret out
  end.

(** Episodes [i_episode, ..., i_episode + n - 1]; [false] when an episode
    is not over within [fuel] iterations. *)
Fixpoint train_from (fuel i_episode n : nat) : M (World * Log) bool :=
  match n with
  | 0 => mret true
  | S n' =>
      out ← run_episode fuel i_episode;
      match out with
      | Done _ _ => train_from fuel (S i_episode) n'
      | OutOfFuel => mret false
      end
  end.

(** The training cell. *)
Definition train (fuel num_episodes : nat) : M (World * Log) bool :=
  train_from fuel 0 num_episodes.

End Loop.

(** The last cell before rendering,
    [policy_net.load_state_dict(torch.load(path))]: [None] when the run
    has written no checkpoint to load. *)
Definition load_checkpoint (log : Log) (policy : DQN.t) : option (result DQN.t) :=
  (λ sd, DQN.load_state_dict sd policy) <$> checkpoint log.

End Train.

(** ** The helper [render] *)

Module Render.
Import DQL.

(** What a call of [render] comes to: [env] is unbound for an unknown
    task, the network raises, the two lines are printed, or the episode is
    not over within the iterations the model runs. *)
Inductive Report :=
  | UnboundLocalError
  | Failed (e : exn)
  | Printed (duration : nat) (total_reward : R)
  | OutOfFuel.

Section Render.
Context `{Framework}.
(** [gym.make(task, render_mode='human', ...)]; the second argument is
    [enable_wind] where it is passed. *)
Variable gym_make : string → option bool → Env.
Variable env_reset : Env → list R * Env.

(** [q_values.argmax().item()] for the one row of values: the index of
    the first maximal value; of an empty tensor [argmax] raises
    [IndexError]. *)
Definition argmax (q_values : list R) : result nat :=
  match q_values with
  | [] => Raise IndexError
  | x :: q' => Ok (max_from x 0 1 q').2
  end.

(** The action of one iteration: sampled when [policy_net] is [None],
    [policy_net(observation).argmax()] otherwise. *)
Definition choose (policy_net : option DQN.t) (observation : list R) (e : Env)
  : result nat * Env :=
  match policy_net with
  | None => let '(a, e') := action_space_sample e in (Ok a, e')
  | Some net => (q_values ← DQN.forward net observation; argmax q_values, e)
  end.

Fixpoint loop (fuel i : nat) (policy_net : option DQN.t) (observation : list R)
    (total_reward : R) (e : Env) : Report :=
  match fuel with
  | 0 => OutOfFuel
  | S fuel' =>
      match choose policy_net observation e with
      | (Raise x, _) => Failed x
      | (Ok action, e1) =>
          let '(r, e2) := env_step action e1 in
          let total_reward := (total_reward + Gym.reward r)%R in
          if Gym.terminated r || Gym.truncated r then Printed (i + 1) total_reward
          else loop fuel' (i + 1) policy_net (Gym.observation r) total_reward e2
      end
  end.

(** [render(task, policy_net, wind)] *)
Definition render (fuel : nat) (task : string) (policy_net : option DQN.t)
    (wind : bool) : Report :=
  let env :=
    if String.eqb task "LunarLander-v2" then Some (gym_make task (Some wind))
    else if String.eqb task "CartPole-v1" then Some (gym_make task None)
    else None in
  match env with
  | None => UnboundLocalError
  | Some e =>
      let '(observation, e') := env_reset e in
      loop fuel 0 policy_net observation 0 e'
  end.

(** The steps of an episode played with [policy_net] from [observation]:
    every step but the last reports neither termination nor truncation. *)
Inductive Episode (policy_net : option DQN.t)
  : list R → Env → list Gym.StepResult → Prop :=
  | episode_last observation e action e1 r e2 :
      choose policy_net observation e = (Ok action, e1) →
      env_step action e1 = (r, e2) →
      Gym.terminated r || Gym.truncated r = true →
      Episode policy_net observation e [r]
  | episode_step observation e action e1 r e2 rs :
      choose policy_net observation e = (Ok action, e1) →
      env_step action e1 = (r, e2) →
      Gym.terminated r || Gym.truncated r = false →
      Episode policy_net (Gym.observation r) e2 rs →
      Episode policy_net observation e (r :: rs).

End Render.

End Render.

(** ** The test cell of the support-vector-machine notebook *)

Module SVMTest.
Import SVM.

Definition testLoader (D : list Sample) : list (list Sample) :=
  batches 100 (preprocess D) [].

(** [np.sign] *)
Definition sign (x : R) : R :=
  if Rlt_dec 0 x then 1%R else if Rlt_dec x 0 then (-1)%R else 0%R.

(** [np.concatenate(arrays)]: at least one array is needed. *)
Definition concatenate {A} (arrays : list (list A)) : result (list A) :=
  match arrays with
  | [] => Raise ValueError
  | _ => Ok (concat arrays)
  end.

#[export] Instance R_eq_dec : EqDecision R := Req_dec_T.

(** The number of entries in which two arrays of one length agree:
    [sum(a == b)]. *)
Definition agreements (a b : list R) : nat :=
  length (filter (λ p : R * R, p.1 = p.2) (zip a b)).

(** What the test cell comes to: the accuracy it prints, an exception of
    the model or of [np.concatenate], or the division by [len(ys)] when
    there is no sample. *)
Inductive Report :=
  | Accuracy (acc : R)
  | Failed (e : exn)
  | ZeroDivisionError.

(** The test cell for the model [nn.Linear(k, 1)] with weight row [w] and
    bias [b]: the predictions and labels of the batches are concatenated,
    and [acc] is the share of predictions whose sign is the label, in
    percent.  A prediction of one column is squeezed to its entry. *)
Definition predictions (w : list R) (b : R) (loader : list (list Sample))
  : result (list (list R) * list R) :=
  yHats ← mapM (λ batch, mapM (linear {| weight := [w]; bias := [b] |}) (batch_X batch))
            loader;
  yHats ← concatenate yHats;
  ys ← concatenate (batch_y <$> loader);
  Ok (yHats, ys).

Definition accuracy (w : list R) (b : R) (loader : list (list Sample)) : Report :=
  match predictions w b loader with
  | Raise e => Failed e
  | Ok (yHats, ys) =>
      if decide (length ys = 0) then ZeroDivisionError
      else Accuracy (INR (agreements (sign <$> concat yHats) ys)
                     / INR (length ys) * 100)%R
  end.

End SVMTest.

(** * Properties *)

(** ** The bounded deque keeps the most recent items *)

Section DequeFacts.
Context {A : Type}.
Implicit Types (d : Deque.deque A) (x : A) (l history : list A).

Lemma most_recent_length n history :
  length (Deque.most_recent n history) = length history `min` n.
Proof. unfold Deque.most_recent. rewrite length_drop. lia. Qed.

Lemma most_recent_short n history :
  length history ≤ n → Deque.most_recent n history = history.
Proof.
  intros Hle. unfold Deque.most_recent.
  replace (length history - n) with 0 by lia. reflexivity.
Qed.

Lemma append_maxlen x d : Deque.maxlen (Deque.append x d) = Deque.maxlen d.
Proof. reflexivity. Qed.

(** One append moves the window of the history by one item. *)
Lemma append_most_recent x d history :
  Deque.items d = Deque.most_recent (Deque.maxlen d) history →
  Deque.items (Deque.append x d)
  = Deque.most_recent (Deque.maxlen d) (history ++ [x]).
Proof.
  intros Hd. unfold Deque.append. cbn [Deque.items].
  assert (Hlen : length (Deque.items d) = length history `min` Deque.maxlen d)
    by (rewrite Hd; apply most_recent_length).
  unfold Deque.most_recent in *. rewrite !length_app. cbn [length].
  destruct (decide (length history ≤ Deque.maxlen d)) as [Hshort|Hlong].
  - replace (length history - Deque.maxlen d) with 0 in Hd by lia.
    rewrite drop_0 in Hd. rewrite Hd.
    case_decide as Hfull.
    + replace (length history + 1 - Deque.maxlen d) with 1 by lia.
      destruct history; reflexivity.
    + replace (length history + 1 - Deque.maxlen d) with 0 by lia.
      reflexivity.
  - rewrite decide_True by lia.
    rewrite Hd.
    replace (length history + 1 - Deque.maxlen d)
      with (S (length history - Deque.maxlen d)) by lia.
    rewrite <- (drop_app_le history [x]) by lia.
    generalize (length history - Deque.maxlen d) as k.
    generalize (history ++ [x]) as l. clear.
    intros l k. replace (S k) with (k + 1) by lia.
    rewrite <- (drop_drop l 1 k).
    destruct (drop k l); reflexivity.
Qed.

End DequeFacts.

(** ** The replay memory *)

Section ReplayFacts.
Import ReplayMemory.
Implicit Types (self : ReplayMemory.t) (tr : Transition) (g : Random.Rng).

Lemma push_transition_eq self tr :
  push_transition self tr = {| memory := Deque.append tr (memory self) |}.
Proof. destruct tr. reflexivity. Qed.

Lemma push_transition_capacity self tr :
  capacity (push_transition self tr) = capacity self.
Proof. rewrite push_transition_eq. reflexivity. Qed.

Lemma push_transition_contents self tr history :
  contents self = Deque.most_recent (capacity self) history →
  contents (push_transition self tr)
  = Deque.most_recent (capacity self) (history ++ [tr]).
Proof.
  intros Hc. rewrite push_transition_eq. unfold contents, capacity in *.
  cbn [memory]. by apply append_most_recent.
Qed.

Lemma init_contents n :
  contents (init n) = Deque.most_recent (capacity (init n)) [].
Proof. reflexivity. Qed.

Lemma push_all_contents trs : ∀ self history,
  contents self = Deque.most_recent (capacity self) history →
  contents (push_all trs self)
  = Deque.most_recent (capacity self) (history ++ trs)
  ∧ capacity (push_all trs self) = capacity self.
Proof.
  induction trs as [|tr trs IH]; intros self history Hc; cbn.
  - by rewrite app_nil_r.
  - destruct (IH (push_transition self tr) (history ++ [tr])) as [IH1 IH2].
    + rewrite push_transition_capacity. by apply push_transition_contents.
    + rewrite push_transition_capacity in IH1, IH2.
      unfold push_all in IH1, IH2. rewrite IH1, IH2, <- app_assoc. done.
Qed.

Lemma run_op_contents st o history :
  contents st.1 = Deque.most_recent (capacity st.1) history →
  contents (run_op st o).1
  = Deque.most_recent (capacity st.1) (history ++ pushed [o])
  ∧ capacity (run_op st o).1 = capacity st.1.
Proof.
  intros Hc. destruct o as [tr|b].
  - change (run_op st (Push tr)).1 with (push_transition st.1 tr).
    change (pushed [Push tr]) with [tr].
    split; [by apply push_transition_contents|apply push_transition_capacity].
  - change (run_op st (Sample b)).1 with st.1.
    change (pushed [Sample b]) with (@nil Transition).
    by rewrite app_nil_r.
Qed.

Lemma run_contents ops : ∀ st history,
  contents st.1 = Deque.most_recent (capacity st.1) history →
  contents (run ops st).1
  = Deque.most_recent (capacity st.1) (history ++ pushed ops)
  ∧ capacity (run ops st).1 = capacity st.1.
Proof.
  induction ops as [|o ops IH]; intros st history Hc.
  - cbn. by rewrite app_nil_r.
  - destruct (run_op_contents st o history Hc) as [H1 H2].
    destruct (IH (run_op st o) (history ++ pushed [o])) as [IH1 IH2].
    + by rewrite H2.
    + rewrite H2 in IH1, IH2. split; [|exact IH2].
      change (run (o :: ops) st) with (run ops (run_op st o)).
      rewrite IH1, <- app_assoc. f_equal. f_equal.
      destruct o; reflexivity.
Qed.

(** C1.  A buffer of capacity [capacity], whatever was pushed into it
    earlier, holds after [capacity + k] further pushes exactly the last
    [capacity] of them, in the order they were pushed: the first [k] are
    gone. *)
Theorem push_keeps_most_recent (capacity k : nat) (earlier pushes : list Transition) :
  length pushes = capacity + k →
  contents (push_all pushes (push_all earlier (init capacity))) = drop k pushes
  ∧ length (drop k pushes) = capacity.
Proof.
  intros Hlen.
  destruct (push_all_contents earlier (init capacity) [] (init_contents _))
    as [He Hcap].
  rewrite <- Hcap in He.
  destruct (push_all_contents pushes _ _ He) as [Hp _].
  rewrite Hp, Hcap. cbn [app]. split.
  - unfold Deque.most_recent. change (ReplayMemory.capacity (init capacity)) with capacity.
    rewrite length_app.
    replace (length earlier + length pushes - capacity)
      with (length earlier + k) by lia.
    rewrite drop_app_add'; done.
  - rewrite length_drop. lia.
Qed.

(** Scenario 1: pushing A, B, C, D into a buffer of capacity 3 leaves
    B, C, D. *)
Lemma push_ABCD_capacity_3 :
  contents (push_all (example_transition <$> [1; 2; 3; 4]) (init 3))
  = example_transition <$> [2; 3; 4].
Proof.
  exact (proj1 (push_keeps_most_recent 3 1 [] (example_transition <$> [1; 2; 3; 4]) eq_refl)).
Defined.

(** C2.  In every run of pushes and samples on a new buffer the size stays
    within the capacity and the contents are the last [capacity] pushes in
    push order, whatever was sampled in between; a push on a full buffer
    removes exactly one item, from the old end, and with an oldest
    transition [old] in the buffer it is [old] that goes. *)
Theorem push_evicts_oldest (capacity : nat) (ops : list op) g :
  let self := (run ops (init capacity, g)).1 in
  len self ≤ capacity
  ∧ contents self = Deque.most_recent capacity (pushed ops)
  ∧ (∀ tr, len self = capacity →
       contents (push_transition self tr) = tail (contents self ++ [tr])
       ∧ len (push_transition self tr) = capacity)
  ∧ (∀ tr old rest, contents self = old :: rest → len self = capacity →
       contents (push_transition self tr) = rest ++ [tr]).
Proof.
  intros self.
  destruct (run_contents ops (init capacity, g) [] (init_contents _))
    as [Hc Hcap].
  fold self in Hc, Hcap.
  change (ReplayMemory.capacity (init capacity, g).1) with capacity in Hc, Hcap.
  change ([] ++ pushed ops) with (pushed ops) in Hc.
  assert (Hlen : len self ≤ capacity).
  { unfold len. fold (contents self). rewrite Hc, most_recent_length. lia. }
  assert (Hfull : ∀ tr, len self = capacity →
            contents (push_transition self tr) = tail (contents self ++ [tr])).
  { intros tr Hsz. rewrite push_transition_eq. unfold contents, len in *.
    cbn [memory Deque.append Deque.items].
    unfold ReplayMemory.capacity in Hcap. rewrite Hcap, length_app. cbn [length].
    rewrite decide_True by lia. done. }
  split; [exact Hlen|]. split; [exact Hc|]. split.
  - intros tr Hsz. split; [by apply Hfull|].
    unfold len. fold (contents (push_transition self tr)).
    rewrite (Hfull tr Hsz). unfold len in Hsz. fold (contents self) in Hsz.
    destruct (contents self); cbn in *; [lia|]. rewrite length_app. cbn. lia.
  - intros tr old rest Hold Hsz. rewrite (Hfull tr Hsz), Hold. reflexivity.
Qed.

(** A run that samples between the pushes of A, B, C, D. *)
Lemma push_evicts_oldest_example :
  let g := Random.counting in
  let ops := [Push (example_transition 1); Sample 1; Push (example_transition 2);
              Push (example_transition 3); Sample 2] in
  contents (push_transition (run ops (init 3, g)).1 (example_transition 4))
  = [example_transition 2; example_transition 3; example_transition 4].
Proof.
  intros g ops.
  destruct (push_evicts_oldest 3 ops g) as (_ & Hc & _ & Hold).
  exact (Hold (example_transition 4) (example_transition 1)
           [example_transition 2; example_transition 3] Hc
           (f_equal length Hc)).
Defined.

End ReplayFacts.

(** ** Sampling without replacement *)

Section SampleFacts.
Import Random.

Lemma randbelow_lt n g : 0 < n → (randbelow n g).1 < n.
Proof.
  intros Hn. unfold randbelow, word. cbn [fst].
  rewrite decide_False by lia.
  pose proof (Z.mod_pos_bound (tape g (cursor g)) (Z.of_nat n)). lia.
Qed.

(** Taking an item out of the first [m] slots and moving the last of them
    into its place keeps the items. *)
Lemma take_swap_out {A} (pool : list A) (j m : nat) (x y : A) :
  j < m → pool !! j = Some x → pool !! (m - 1) = Some y →
  x :: take (m - 1) (<[j := y]> pool) ≡ₚ take m pool.
Proof.
  intros Hj Hx Hy.
  replace m with (S (m - 1)) at 2 by lia.
  rewrite (take_S_r _ _ _ Hy).
  destruct (decide (j = m - 1)) as [->|Hne].
  - assert (x = y) as -> by congruence.
    rewrite list_insert_id by done. apply Permutation_cons_append.
  - rewrite take_insert_lt by lia.
    assert (Hx' : take (m - 1) pool !! j = Some x)
      by (rewrite lookup_take_lt by lia; done).
    revert Hx'. generalize (take (m - 1) pool) as l. clear.
    intros l. revert j. induction l as [|a l IH]; intros [|j] Hx; try done.
    + cbn in *. injection Hx as ->. constructor. apply Permutation_cons_append.
    + cbn in *. rewrite Permutation_swap. constructor. by apply IH.
Qed.

(** The loop selects [k] of the first [m] slots, each once. *)
Lemma sample_pool_selects {A} (k : nat) : ∀ (m : nat) (pool : list A) g,
  k ≤ m → m ≤ length pool →
  ∃ batch g' rest,
    sample_pool k m pool g = (Ok batch, g')
    ∧ length batch = k
    ∧ batch ++ rest ≡ₚ take m pool.
Proof.
  induction k as [|k IH]; intros m pool g Hk Hm.
  - exists [], g, (take m pool). done.
  - cbn [sample_pool].
    pose proof (randbelow_lt m g ltac:(lia)) as Hj.
    destruct (randbelow m g) as [j g1]. cbn [fst] in Hj.
    destruct (lookup_lt_is_Some_2 pool j ltac:(lia)) as [x Hx].
    destruct (lookup_lt_is_Some_2 pool (m - 1) ltac:(lia)) as [y Hy].
    rewrite Hx, Hy.
    destruct (IH (m - 1) (<[j := y]> pool) g1) as (batch & g2 & rest & Hs & Hl & Hp);
      [lia|rewrite length_insert; lia|].
    rewrite Hs. exists (x :: batch), g2, rest. split; [done|].
    split; [cbn; lia|].
    cbn. rewrite Hp. by apply take_swap_out.
Qed.

(** The loop commutes with a relabelling of the items. *)
Lemma sample_pool_fmap {A B} (h : A → B) (k : nat) : ∀ (m : nat) (pool : list A) g,
  sample_pool k m (h <$> pool) g
  = ((λ batch : list A, h <$> batch) <$> (sample_pool k m pool g).1,
     (sample_pool k m pool g).2).
Proof.
  induction k as [|k IH]; intros m pool g; [done|].
  cbn [sample_pool]. destruct (randbelow m g) as [j g1].
  rewrite !list_lookup_fmap.
  destruct (pool !! j) as [x|]; [|done].
  destruct (pool !! (m - 1)) as [y|]; [|done].
  cbn [fmap option_fmap option_map].
  rewrite <- list_fmap_insert, IH.
  destruct (sample_pool k (m - 1) (<[j:=y]> pool) g1) as [[batch|e] g2]; done.
Qed.

(** [random.sample] returns the items at [k] distinct positions of the
    population. *)
Lemma sample_positions {A} (population : list A) (k : nat) g :
  k ≤ length population →
  ∃ batch g' ixs,
    sample population k g = (Ok batch, g')
    ∧ length batch = k
    ∧ NoDup ixs
    ∧ Forall2 (λ i x, population !! i = Some x) ixs batch.
Proof.
  intros Hk. unfold sample. rewrite decide_True by done.
  set (n := length population).
  set (pool := zip (seq 0 n) population).
  assert (Hfst : pool.*1 = seq 0 n)
    by (apply fst_zip; rewrite length_seq; done).
  assert (Hsnd : pool.*2 = population)
    by (apply snd_zip; rewrite length_seq; done).
  assert (Hlen : length pool = n)
    by (rewrite <- (length_fmap fst pool), Hfst, length_seq; done).
  destruct (sample_pool_selects k n pool g) as (batch & g' & rest & Hs & Hl & Hp);
    [done|lia|].
  rewrite <- Hsnd, sample_pool_fmap, Hs. cbn [fst snd].
  exists (batch.*2), g', (batch.*1).
  rewrite take_ge in Hp by lia.
  split; [done|]. split; [by rewrite length_fmap|]. split.
  - assert (Hnd : NoDup ((batch ++ rest).*1))
      by (rewrite Hp, Hfst; apply NoDup_seq).
    rewrite fmap_app in Hnd. by apply NoDup_app in Hnd as [? _].
  - apply Forall2_fmap, Forall_Forall2_diag, Forall_forall.
    intros [i x] Hin.
    assert (Hin' : (i, x) ∈ pool)
      by (rewrite <- Hp; apply elem_of_app; by left).
    apply elem_of_lookup_zip_with in Hin' as (p & i' & x' & [= -> ->] & Hi & Hx).
    apply lookup_seq in Hi as [-> _]. rewrite Hsnd. exact Hx.
Qed.

End SampleFacts.

Section ReplaySampleFacts.
Import ReplayMemory.

(** C3.  With [b] at most the size of the buffer, [sample(b)] returns [b]
    transitions taken from [b] different positions of the buffer, so each
    of them is in the buffer, and the buffer is the same afterwards. *)
Theorem sample_returns_distinct (self : ReplayMemory.t) (g : Random.Rng) (b : nat) :
  b ≤ len self →
  ∃ batch g' ixs,
    sample self b g = (Ok batch, g')
    ∧ length batch = b
    ∧ NoDup ixs
    ∧ Forall2 (λ i tr, contents self !! i = Some tr) ixs batch
    ∧ (∀ tr, tr ∈ batch → tr ∈ contents self)
    ∧ run_op (self, g) (Sample b) = (self, g').
Proof.
  intros Hb.
  destruct (sample_positions (contents self) b g Hb)
    as (batch & g' & ixs & Hs & Hl & Hnd & Hall).
  exists batch, g', ixs. unfold sample. fold (contents self).
  repeat split; try done.
  - intros tr Hin. apply list_elem_of_lookup in Hin as [i Hi].
    destruct (Forall2_lookup_r _ _ _ _ _ Hall Hi) as (ix & _ & Hix).
    by eapply list_elem_of_lookup_2.
  - unfold run_op. cbn [fst snd]. unfold sample. fold (contents self).
    by rewrite Hs.
Qed.

(** Two transitions sampled from a buffer holding three. *)
Lemma sample_two_of_three :
  ∃ batch g' ixs,
    sample (push_all (example_transition <$> [1; 2; 3]) (init 3)) 2 Random.counting
    = (Ok batch, g')
    ∧ length batch = 2
    ∧ NoDup ixs
    ∧ Forall2 (λ i tr,
         contents (push_all (example_transition <$> [1; 2; 3]) (init 3)) !! i
         = Some tr) ixs batch
    ∧ (∀ tr, tr ∈ batch →
         tr ∈ contents (push_all (example_transition <$> [1; 2; 3]) (init 3)))
    ∧ run_op (push_all (example_transition <$> [1; 2; 3]) (init 3), Random.counting)
        (Sample 2)
      = (push_all (example_transition <$> [1; 2; 3]) (init 3), g').
Proof. apply sample_returns_distinct. vm_compute. lia. Defined.

End ReplaySampleFacts.

(** ** Action selection and the size gate of the optimisation step *)

Section ControlFacts.
Import DQL.
Context `{Framework}.
Variable cfg : Config.
Implicit Types (w : World) (state : list R).

Lemma bind_Ok {S A B} (m : M S A) (k : A → M S B) (s s' : S) (b : B) :
  (m ≫= k) s = (Ok b, s') →
  ∃ a s1, m s = (Ok a, s1) ∧ k a s1 = (Ok b, s').
Proof.
  unfold mbind, M_bind, Py.bind. destruct (m s) as [[a|e] s1]; intros Heq.
  - by exists a, s1.
  - discriminate.
Qed.

(** What a call of [select_action] does, in full. *)
Lemma select_action_effect state w :
  let x := (Random.random (rng w)).1 in
  let w1 := set_steps_done (steps_done w + 1)
              (set_rng (Random.random (rng w)).2 w) in
  select_action cfg state w
  = if Rgt_dec x (eps_threshold cfg (steps_done w))
    then (greedy_action (policy_net w) state, w1)
    else (Ok (action_space_sample (env w)).1,
          set_env (action_space_sample (env w)).2 w1).
Proof.
  unfold select_action, mbind, M_bind, Py.bind, with_rng, gets, modify, lift, with_env.
  destruct (Random.random (rng w)) as [x g'] eqn:Hr. cbn.
  destruct (Rgt_dec x (eps_threshold cfg (steps_done w))); [done|].
  cbn. by destruct (action_space_sample (env w)).
Qed.

(** C4.  Called with fewer transitions in the buffer than the batch size,
    [optimize_model] returns without raising and leaves the whole program
    state as it was: parameters, optimiser, buffer, counter and
    generators. *)
Theorem optimize_model_below_batch_size w :
  ReplayMemory.len (memory w) < BATCH_SIZE cfg →
  optimize_model cfg w = (Ok tt, w).
Proof.
  intros Hlt. unfold optimize_model, mbind, M_bind, Py.bind, gets. cbn.
  by rewrite decide_True.
Qed.


End ControlFacts.

(** Scenario 2: an empty buffer of capacity 10 and a batch size of 5. *)
Lemma optimize_model_empty_buffer :
  let cfg := {| BATCH_SIZE := 5; GAMMA := 0.99; EPS_START := 0.9;
                EPS_END := 0.1; EPS_DECAY := 10000; TAU := 0.005 |} in
  let w := DQL.example_world (ReplayMemory.init 10) in
  DQL.optimize_model cfg w = (Ok tt, w).
Proof.
  intros cfg w. apply optimize_model_below_batch_size. cbn. lia.
Defined.


(** ** The exploration threshold *)

Section EpsilonFacts.
Import DQL.
Context `{Framework}.
Local Open Scope R_scope.

Lemma eps_threshold_formula cfg (t : nat) :
  eps_threshold cfg t
  = EPS_END cfg + (EPS_START cfg - EPS_END cfg) * exp (- (INR t / EPS_DECAY cfg)).
Proof. unfold eps_threshold. do 3 f_equal. unfold Rdiv. ring. Qed.

Lemma exp_neg_le_1 (y : R) : 0 <= y → exp (- y) <= 1.
Proof.
  intros [Hy | <-].
  - rewrite <- exp_0. left. apply exp_increasing. lra.
  - rewrite Ropp_0, exp_0. lra.
Qed.

(** [exp (- y)] falls below [1 / y]. *)
Lemma exp_neg_lt_inv (y : R) : 0 < y → exp (- y) < / y.
Proof.
  intros Hy. rewrite exp_Ropp.
  apply Rinv_lt_contravar.
  - apply Rmult_lt_0_compat; [done|apply exp_pos].
  - pose proof (exp_ineq1_le y). lra.
Qed.

Lemma eps_threshold_limit cfg :
  EPS_END cfg < EPS_START cfg → 0 < EPS_DECAY cfg →
  Un_cv (eps_threshold cfg) (EPS_END cfg).
Proof.
  intros Hse Hd e He.
  set (c := EPS_START cfg - EPS_END cfg).
  assert (Hc : 0 < c) by (unfold c; lra).
  set (bound := EPS_DECAY cfg * c / e).
  assert (Hbound : 0 < bound).
  { unfold bound, Rdiv. repeat apply Rmult_lt_0_compat; try done.
    by apply Rinv_0_lt_compat. }
  destruct (archimed bound) as [Hup _].
  assert (Hz : (0 < up bound)%Z) by (apply lt_IZR; lra).
  exists (Z.to_nat (up bound)). intros n Hn.
  assert (Hbn : bound < INR n).
  { eapply Rlt_le_trans; [exact Hup|].
    rewrite <- (Z2Nat.id (up bound)) by lia. rewrite <- INR_IZR_INZ.
    apply le_INR. lia. }
  set (y := INR n / EPS_DECAY cfg).
  assert (Hy : c / e < y).
  { unfold y, bound in *. apply Rmult_lt_reg_r with (EPS_DECAY cfg); [done|].
    replace (INR n / EPS_DECAY cfg * EPS_DECAY cfg) with (INR n) by (field; lra).
    replace (c / e * EPS_DECAY cfg) with (EPS_DECAY cfg * c / e) by (field; lra).
    done. }
  assert (Hy0 : 0 < y).
  { eapply Rlt_trans; [|exact Hy]. unfold Rdiv.
    apply Rmult_lt_0_compat; [done|by apply Rinv_0_lt_compat]. }
  unfold R_dist. rewrite eps_threshold_formula. fold c y.
  replace (EPS_END cfg + c * exp (- y) - EPS_END cfg) with (c * exp (- y)) by ring.
  pose proof (exp_pos (- y)) as Hpos.
  rewrite Rabs_pos_eq by (apply Rmult_le_pos; lra).
  pose proof (exp_neg_lt_inv y Hy0) as Hinv.
  apply Rlt_trans with (c * / y).
  - by apply Rmult_lt_compat_l.
  - apply Rmult_lt_reg_r with y; [done|].
    replace (c * / y * y) with c by (field; lra).
    apply Rmult_lt_reg_r with (/ e); [by apply Rinv_0_lt_compat|].
    replace (e * y * / e) with y by (field; lra). exact Hy.
Qed.

(** The exact value of the formula, in real arithmetic: for
    [0 < EPS_END < EPS_START] and [0 < EPS_DECAY] it is strictly decreasing
    in [t], lies in [(EPS_END, EPS_START]], is [EPS_START] at [t = 0] and
    tends to [EPS_END]. *)
Lemma eps_threshold_exact cfg :
  0 < EPS_END cfg → EPS_END cfg < EPS_START cfg → 0 < EPS_DECAY cfg →
  (∀ t : nat,
     eps_threshold cfg t
     = EPS_END cfg + (EPS_START cfg - EPS_END cfg) * exp (- (INR t / EPS_DECAY cfg)))
  ∧ (∀ t1 t2 : nat, (t1 < t2)%nat → eps_threshold cfg t2 < eps_threshold cfg t1)
  ∧ (∀ t : nat, EPS_END cfg < eps_threshold cfg t <= EPS_START cfg)
  ∧ eps_threshold cfg 0 = EPS_START cfg
  ∧ Un_cv (eps_threshold cfg) (EPS_END cfg).
Proof.
  intros He Hse Hd.
  assert (Hinv : 0 < / EPS_DECAY cfg) by by apply Rinv_0_lt_compat.
  split; [apply eps_threshold_formula|].
  split.
  { intros t1 t2 Ht. rewrite !eps_threshold_formula.
    apply lt_INR in Ht.
    assert (Hexp : exp (- (INR t2 / EPS_DECAY cfg)) < exp (- (INR t1 / EPS_DECAY cfg))).
    { apply exp_increasing, Ropp_lt_contravar. unfold Rdiv.
      by apply Rmult_lt_compat_r. }
    apply Rplus_lt_compat_l, Rmult_lt_compat_l; [lra|done]. }
  split.
  { intros t. rewrite eps_threshold_formula.
    pose proof (exp_pos (- (INR t / EPS_DECAY cfg))) as Hpos.
    assert (Hle : exp (- (INR t / EPS_DECAY cfg)) <= 1).
    { apply exp_neg_le_1. unfold Rdiv. apply Rmult_le_pos; [apply pos_INR|lra]. }
    split; [|nra].
    assert (0 < (EPS_START cfg - EPS_END cfg) * exp (- (INR t / EPS_DECAY cfg)))
      by (apply Rmult_lt_0_compat; lra).
    lra. }
  split.
  { rewrite eps_threshold_formula. cbn [INR].
    unfold Rdiv. rewrite Rmult_0_l, Ropp_0, exp_0. ring. }
  by apply eps_threshold_limit.
Qed.

End EpsilonFacts.

(** ** The exploration threshold in binary64 *)

Section Binary64Facts.
Import Binary64 DQL.
Local Open Scope R_scope.

(** *** Powers of two and binades *)

Lemma pow2_pos (e : Z) : 0 < pow2 e.
Proof. apply powerRZ_lt. lra. Qed.

Lemma pow2_add (a b : Z) : pow2 (a + b) = pow2 a * pow2 b.
Proof. apply powerRZ_add. lra. Qed.

Lemma pow2_IZR (e : Z) : (0 <= e)%Z → pow2 e = IZR (2 ^ e).
Proof.
  intros He. unfold pow2. destruct e as [|p|p]; [done| |lia].
  cbn [powerRZ]. rewrite pow_IZR. f_equal. by rewrite positive_nat_Z.
Qed.

Lemma pow2_opp (e : Z) : pow2 (- e) = / pow2 e.
Proof. apply powerRZ_neg'. Qed.

Lemma pow2_inv (a : Z) : pow2 a * pow2 (- a) = 1.
Proof. rewrite <- pow2_add, Z.add_opp_diag_r. reflexivity. Qed.

Lemma pow2_le (a b : Z) : (a <= b)%Z → pow2 a <= pow2 b.
Proof.
  intros Hab. replace b with (a + (b - a))%Z by lia. rewrite pow2_add.
  rewrite (pow2_IZR (b - a)) by lia.
  assert (1 <= IZR (2 ^ (b - a))).
  { apply IZR_le. pose proof (Z.pow_pos_nonneg 2 (b - a)). lia. }
  pose proof (pow2_pos a). nra.
Qed.

Lemma pow2_lt (a b : Z) : (a < b)%Z → pow2 a < pow2 b.
Proof.
  intros Hab. replace b with (a + (b - a))%Z by lia. rewrite pow2_add.
  rewrite (pow2_IZR (b - a)) by lia.
  assert (2 <= IZR (2 ^ (b - a))).
  { apply IZR_le. replace (b - a)%Z with (Z.succ (b - a - 1)) by lia.
    rewrite Z.pow_succ_r by lia.
    pose proof (Z.pow_pos_nonneg 2 (b - a - 1)). lia. }
  pose proof (pow2_pos a). nra.
Qed.

Lemma pow2_lt_inv (a b : Z) : pow2 a < pow2 b → (a < b)%Z.
Proof.
  intros Hlt. destruct (Z_lt_le_dec a b) as [?|Hle]; [done|].
  apply pow2_le in Hle. lra.
Qed.

Lemma ln_2_pos : 0 < ln 2.
Proof. rewrite <- ln_1. apply ln_increasing; lra. Qed.

Lemma ln_pow2 (e : Z) : ln (pow2 e) = IZR e * ln 2.
Proof.
  unfold pow2. rewrite powerRZ_Rpower by lra. unfold Rpower. apply ln_exp.
Qed.

(** The binade of a number. *)
Lemma exponent_spec (x : R) (e : Z) :
  (-1022 <= e)%Z → pow2 e <= Rabs x < pow2 (e + 1) → exponent x = e.
Proof.
  intros He [Hlo Hhi]. unfold exponent.
  assert (Hx : 0 < Rabs x) by (pose proof (pow2_pos e); lra).
  rewrite <- (Int_part_spec _ e); [lia|].
  pose proof ln_2_pos as H2.
  assert (Hl : IZR e * ln 2 <= ln (Rabs x)).
  { rewrite <- ln_pow2. destruct Hlo as [Hlo|Hlo].
    - left. apply ln_increasing; [apply pow2_pos|done].
    - rewrite Hlo. lra. }
  assert (Hh : ln (Rabs x) < IZR (e + 1) * ln 2).
  { rewrite <- ln_pow2. by apply ln_increasing. }
  rewrite plus_IZR in Hh.
  split.
  - apply Rmult_lt_reg_r with (ln 2); [done|].
    unfold Rdiv, Rminus. rewrite Rmult_plus_distr_r, Rmult_assoc, Rinv_l by lra. lra.
  - apply Rmult_le_reg_r with (ln 2); [done|].
    unfold Rdiv. rewrite Rmult_assoc, Rinv_l by lra. lra.
Qed.

Lemma binade_exists (x : R) :
  x ≠ 0 →
  let e := Int_part (ln (Rabs x) / ln 2) in
  pow2 e <= Rabs x < pow2 (e + 1).
Proof.
  intros Hx e.
  assert (Hpos : 0 < Rabs x) by (by apply Rabs_pos_lt).
  pose proof ln_2_pos as H2.
  destruct (base_Int_part (ln (Rabs x) / ln 2)) as [Hlo Hhi]. fold e in Hlo, Hhi.
  assert (Hq : ln (Rabs x) / ln 2 * ln 2 = ln (Rabs x)) by (field; lra).
  split.
  - rewrite <- (exp_ln (Rabs x)) at 1 by done.
    rewrite <- (exp_ln (pow2 e)) by apply pow2_pos.
    rewrite ln_pow2.
    destruct (Rle_lt_or_eq_dec _ _ Hlo) as [Hlt|Heq].
    + left. apply exp_increasing. nra.
    + right. f_equal. nra.
  - rewrite <- (exp_ln (Rabs x)) at 1 by done.
    rewrite <- (exp_ln (pow2 (e + 1))) by apply pow2_pos.
    rewrite ln_pow2, plus_IZR. apply exp_increasing. nra.
Qed.

(** *** Rounding *)

Lemma nearest_even_cases (z : R) :
  (nearest_even z = Int_part z ∧ z - IZR (Int_part z) <= 1 / 2)
  ∨ (nearest_even z = (Int_part z + 1)%Z ∧ 1 / 2 <= z - IZR (Int_part z)).
Proof.
  unfold nearest_even.
  destruct (Rlt_dec _ _); [left; split; [done|lra]|].
  destruct (Rlt_dec _ _); [right; split; [done|lra]|].
  destruct (Z.even _); [left|right]; split; try done; lra.
Qed.

Lemma nearest_even_error (z : R) : Rabs (IZR (nearest_even z) - z) <= 1 / 2.
Proof.
  destruct (base_Int_part z) as [Hlo Hhi].
  destruct (nearest_even_cases z) as [[-> Hd]|[-> Hd]].
  - rewrite Rabs_left1 by lra. lra.
  - rewrite plus_IZR. rewrite Rabs_pos_eq by lra. lra.
Qed.

Lemma nearest_even_near (z : R) (n : Z) :
  Rabs (z - IZR n) < 1 / 2 → nearest_even z = n.
Proof.
  intros Hn. pose proof (nearest_even_error z) as Hm.
  set (m := nearest_even z) in *.
  apply Rabs_def2 in Hn as [Hn1 Hn2].
  assert (Hm' : -(1/2) <= IZR m - z <= 1/2).
  { split; [|eapply Rle_trans; [apply Rle_abs|exact Hm]].
    pose proof (Rle_abs (- (IZR m - z))) as Ha. rewrite Rabs_Ropp in Ha. lra. }
  assert (H1 : (m < n + 1)%Z) by (apply lt_IZR; rewrite plus_IZR; lra).
  assert (H2 : (n < m + 1)%Z) by (apply lt_IZR; rewrite plus_IZR; lra).
  lia.
Qed.

Lemma nearest_even_IZR (n : Z) : nearest_even (IZR n) = n.
Proof.
  apply nearest_even_near. rewrite Rminus_diag, Rabs_R0. lra.
Qed.

Lemma nearest_even_mono (z z' : R) :
  z <= z' → (nearest_even z <= nearest_even z')%Z.
Proof.
  intros Hz.
  destruct (base_Int_part z) as [Hlo Hhi], (base_Int_part z') as [Hlo' Hhi'].
  assert (Hn : (Int_part z <= Int_part z')%Z).
  { assert (Int_part z < Int_part z' + 1)%Z; [|lia].
    apply lt_IZR. rewrite plus_IZR. lra. }
  destruct (Z_le_lt_eq_dec _ _ Hn) as [Hlt|Heq].
  - destruct (nearest_even_cases z) as [[-> _]|[-> _]],
      (nearest_even_cases z') as [[-> _]|[-> _]]; lia.
  - unfold nearest_even. rewrite Heq.
    repeat destruct (Rlt_dec _ _); try lia; try (exfalso; lra);
      destruct (Z.even _); try lia; exfalso; lra.
Qed.

Lemma round_binade (x : R) (e : Z) :
  (-1022 <= e)%Z → pow2 e <= Rabs x < pow2 (e + 1) →
  round x = IZR (nearest_even (x * pow2 (52 - e))) * pow2 (e - 52).
Proof. intros He Hx. unfold round. by rewrite (exponent_spec x e). Qed.

Lemma round_0 : round 0 = 0.
Proof. unfold round. rewrite Rmult_0_l, nearest_even_IZR. lra. Qed.

Lemma round_error_binade (x : R) (e : Z) :
  (-1022 <= e)%Z → pow2 e <= Rabs x < pow2 (e + 1) →
  Rabs (round x - x) <= pow2 (e - 53).
Proof.
  intros He Hx. rewrite (round_binade x e) by done.
  pose proof (nearest_even_error (x * pow2 (52 - e))) as Herr.
  set (m := IZR (nearest_even (x * pow2 (52 - e)))) in *.
  replace (m * pow2 (e - 52) - x)
    with ((m - x * pow2 (52 - e)) * pow2 (e - 52)).
  - rewrite Rabs_mult, (Rabs_pos_eq (pow2 _)) by (left; apply pow2_pos).
    replace (e - 53)%Z with (e - 52 + -1)%Z by lia.
    rewrite pow2_add.
    assert (Hhalf : pow2 (-1) = 1 / 2) by (unfold pow2; simpl; lra).
    rewrite Hhalf. pose proof (pow2_pos (e - 52)). nra.
  - replace (e - 52)%Z with (- (52 - e))%Z by lia.
    pose proof (pow2_inv (52 - e)) as Hinv.
    replace ((m - x * pow2 (52 - e)) * pow2 (- (52 - e)))
      with (m * pow2 (- (52 - e)) - x * (pow2 (52 - e) * pow2 (- (52 - e))))
      by ring.
    rewrite Hinv. ring.
Qed.

(** The relative error of rounding a number of the normal range. *)
Lemma round_error (x : R) :
  pow2 (-1022) <= Rabs x → Rabs (round x - x) <= pow2 (-53) * Rabs x.
Proof.
  intros Hx.
  assert (Hne : x ≠ 0).
  { intros ->. rewrite Rabs_R0 in Hx. pose proof (pow2_pos (-1022)). lra. }
  destruct (binade_exists x Hne) as [Hlo Hhi].
  set (e := Int_part (ln (Rabs x) / ln 2)) in *.
  assert (He : (-1022 <= e)%Z).
  { assert (-1022 < e + 1)%Z; [|lia]. apply pow2_lt_inv. lra. }
  eapply Rle_trans; [by apply (round_error_binade x e)|].
  replace (e - 53)%Z with (-53 + e)%Z by lia. rewrite pow2_add.
  pose proof (pow2_pos (-53)). nra.
Qed.

(** Numbers with a significand of 53 bits are not changed. *)
Lemma round_exact (m k : Z) :
  (Z.abs m < 2 ^ 53)%Z → (-1074 <= k)%Z → round (IZR m * pow2 k) = IZR m * pow2 k.
Proof.
  intros Hm Hk. destruct (decide (m = 0%Z)) as [->|Hm0].
  { rewrite Rmult_0_l. apply round_0. }
  set (x := IZR m * pow2 k).
  assert (Hx : x ≠ 0).
  { unfold x. apply Rmult_integral_contrapositive_currified.
    - by apply not_0_IZR.
    - pose proof (pow2_pos k). lra. }
  destruct (binade_exists x Hx) as [Hlo _].
  set (e0 := Int_part (ln (Rabs x) / ln 2)) in *.
  assert (Habs : Rabs x = IZR (Z.abs m) * pow2 k).
  { unfold x. rewrite Rabs_mult, <- abs_IZR.
    by rewrite (Rabs_pos_eq (pow2 k)) by (left; apply pow2_pos). }
  assert (He0 : (e0 <= k + 52)%Z).
  { assert (e0 < k + 53)%Z; [|lia]. apply pow2_lt_inv.
    eapply Rle_lt_trans; [exact Hlo|]. rewrite Habs.
    replace (k + 53)%Z with (53 + k)%Z by lia.
    rewrite pow2_add, (pow2_IZR 53) by lia.
    apply Rmult_lt_compat_r; [apply pow2_pos|]. by apply IZR_lt. }
  unfold round. fold x.
  assert (HE : (exponent x <= k + 52)%Z) by (unfold exponent; fold e0; lia).
  set (E := exponent x) in *.
  assert (Hscaled : x * pow2 (52 - E) = IZR (m * 2 ^ (k + 52 - E))).
  { unfold x. rewrite Rmult_assoc, <- pow2_add, mult_IZR.
    rewrite <- pow2_IZR by lia. do 2 f_equal. lia. }
  rewrite Hscaled, nearest_even_IZR, mult_IZR, <- pow2_IZR by lia.
  unfold x. rewrite Rmult_assoc, <- pow2_add. do 2 f_equal. lia.
Qed.

Lemma round_IZR (m : Z) : (Z.abs m < 2 ^ 53)%Z → round (IZR m) = IZR m.
Proof.
  intros Hm. rewrite <- (Rmult_1_r (IZR m)).
  change 1 with (pow2 0). by apply round_exact.
Qed.

(** Rounding keeps the order of the positive numbers of the normal range. *)
Lemma round_mono (x y : R) :
  pow2 (-1022) <= x → x <= y → round x <= round y.
Proof.
  intros Hx Hxy.
  pose proof (pow2_pos (-1022)) as Hmin.
  assert (Hx0 : x ≠ 0) by lra. assert (Hy0 : y ≠ 0) by lra.
  destruct (binade_exists x Hx0) as [Hxlo Hxhi].
  destruct (binade_exists y Hy0) as [Hylo Hyhi].
  set (ex := Int_part (ln (Rabs x) / ln 2)) in *.
  set (ey := Int_part (ln (Rabs y) / ln 2)) in *.
  rewrite Rabs_pos_eq in Hxlo, Hxhi, Hylo, Hyhi by lra.
  assert (Hex : (-1022 <= ex)%Z).
  { assert (-1022 < ex + 1)%Z; [|lia]. apply pow2_lt_inv. lra. }
  assert (Hexy : (ex <= ey)%Z).
  { assert (ex < ey + 1)%Z; [|lia]. apply pow2_lt_inv. lra. }
  rewrite (round_binade x ex), (round_binade y ey)
    by (try lia; rewrite Rabs_pos_eq by lra; done).
  destruct (Z_le_lt_eq_dec _ _ Hexy) as [Hlt|Heq].
  - apply Rle_trans with (pow2 (ex + 1)).
    + replace (ex + 1)%Z with (53 + (ex - 52))%Z by lia.
      rewrite pow2_add, (pow2_IZR 53) by lia.
      apply Rmult_le_compat_r; [left; apply pow2_pos|].
      apply IZR_le. rewrite <- (nearest_even_IZR (2 ^ 53)).
      apply nearest_even_mono. rewrite <- pow2_IZR by lia.
      replace 53%Z with (ex + 1 + (52 - ex))%Z by lia. rewrite pow2_add.
      apply Rmult_le_compat_r; [left; apply pow2_pos|lra].
    + apply Rle_trans with (pow2 ey); [apply pow2_le; lia|].
      replace ey with (52 + (ey - 52))%Z at 1 by lia.
      rewrite pow2_add, (pow2_IZR 52) by lia.
      apply Rmult_le_compat_r; [left; apply pow2_pos|].
      apply IZR_le. rewrite <- (nearest_even_IZR (2 ^ 52)).
      apply nearest_even_mono. rewrite <- pow2_IZR by lia.
      replace 52%Z with (ey + (52 - ey))%Z at 1 by lia. rewrite pow2_add.
      apply Rmult_le_compat_r; [left; apply pow2_pos|lra].
  - rewrite <- Heq.
    apply Rmult_le_compat_r; [left; apply pow2_pos|].
    apply IZR_le, nearest_even_mono.
    apply Rmult_le_compat_r; [left; apply pow2_pos|lra].
Qed.

(** *** The constants of the notebook *)

Lemma pow2_pos_IZR (p : positive) : pow2 (Z.pos p) = IZR (2 ^ Z.pos p).
Proof. apply pow2_IZR. lia. Qed.

Lemma pow2_neg_IZR (p : positive) : pow2 (Z.neg p) = / IZR (2 ^ Z.pos p).
Proof.
  change (Z.neg p) with (- Z.pos p)%Z. by rewrite pow2_opp, pow2_pos_IZR.
Qed.

(** Powers of two with a literal exponent as literals. *)
Ltac pow2_eval :=
  repeat match goal with
         | |- context [pow2 (Z.pos ?p)] =>
             let v := eval vm_compute in (2 ^ Z.pos p)%Z in
             rewrite (pow2_pos_IZR p); change (2 ^ Z.pos p)%Z with v
         | |- context [pow2 (Z.neg ?p)] =>
             let v := eval vm_compute in (2 ^ Z.pos p)%Z in
             rewrite (pow2_neg_IZR p); change (2 ^ Z.pos p)%Z with v
         | |- context [pow2 0] => change (pow2 0) with 1
         end.

Lemma round_near (x : R) (e n : Z) :
  (-1022 <= e)%Z → pow2 e <= Rabs x < pow2 (e + 1) →
  Rabs (x * pow2 (52 - e) - IZR n) < 1 / 2 →
  round x = IZR n * pow2 (e - 52).
Proof.
  intros He Hx Hn. rewrite (round_binade x e) by done.
  by rewrite (nearest_even_near _ n).
Qed.

(** The binary64 numbers nearest to 0.1, 0.9 and 0.8. *)
Local Abbreviation f01 := (IZR 7205759403792794 * pow2 (-56)).
Local Abbreviation f09 := (IZR 8106479329266893 * pow2 (-53)).
Local Abbreviation f08 := (IZR 7205759403792794 * pow2 (-53)).

Lemma round_01 : round 0.1 = f01.
Proof.
  apply (round_near 0.1 (-4)); [lia|..].
  - rewrite Rabs_pos_eq by lra. change (-4 + 1)%Z with (-3)%Z.
    pow2_eval. lra.
  - change (52 - -4)%Z with 56%Z.
    pow2_eval. apply Rabs_def1; lra.
Qed.


Lemma round_09 : round 0.9 = f09.
Proof.
  apply (round_near 0.9 (-1)); [lia|..].
  - rewrite Rabs_pos_eq by lra. change (-1 + 1)%Z with 0%Z. pow2_eval. lra.
  - change (52 - -1)%Z with 53%Z. pow2_eval. apply Rabs_def1; lra.
Qed.

Lemma round_10000 : round 10000 = 10000.
Proof. apply round_IZR. change (2 ^ 53)%Z with 9007199254740992%Z. lia. Qed.

Lemma round_f01 : round f01 = f01.
Proof. apply round_exact; [change (2 ^ 53)%Z with 9007199254740992%Z|]; lia. Qed.

Lemma round_f08 : round f08 = f08.
Proof. apply round_exact; [change (2 ^ 53)%Z with 9007199254740992%Z|]; lia. Qed.

Lemma sub_09_01 : sub f09 f01 = f08.
Proof.
  unfold sub.
  apply (round_near _ (-1)); [lia|..].
  - change (-1 + 1)%Z with 0%Z. pow2_eval. rewrite Rabs_pos_eq; lra.
  - change (52 - -1)%Z with 53%Z. pow2_eval. apply Rabs_def1; lra.
Qed.

Lemma add_01_08 : add f01 f08 = f09.
Proof.
  unfold add.
  apply (round_near _ (-1)); [lia|..].
  - change (-1 + 1)%Z with 0%Z. pow2_eval. rewrite Rabs_pos_eq; lra.
  - change (52 - -1)%Z with 53%Z. pow2_eval. apply Rabs_def1; lra.
Qed.

Lemma f01_bounds : 0.1 <= f01 <= 0.1 + pow2 (-56).
Proof. pow2_eval. lra. Qed.

Lemma f08_bounds : 0.8 <= f08 <= 0.8 + pow2 (-53).
Proof. pow2_eval. lra. Qed.

Lemma f09_bounds : 0.9 <= f09 <= 0.9 + pow2 (-53).
Proof. pow2_eval. lra. Qed.


Lemma Rabs_bound (x a : R) : Rabs x <= a → - a <= x <= a.
Proof. unfold Rabs. destruct (Rcase_abs x); lra. Qed.

(** *** The exponential at the arguments of the threshold *)

Lemma exp_nat (n : nat) (y : R) : exp (INR n * y) = exp y ^ n.
Proof.
  induction n as [|n IH].
  - cbn [INR]. by rewrite Rmult_0_l, exp_0.
  - rewrite S_INR, Rmult_plus_distr_r, Rmult_1_l, exp_plus, IH. cbn [pow]. ring.
Qed.

Lemma exp_neg_upper (y : R) : 0 <= y → exp (- y) <= / (1 + y).
Proof.
  intros Hy. rewrite exp_Ropp. apply Rinv_le_contravar; [lra|].
  apply exp_ineq1_le.
Qed.

(** [exp] is not below [2^-202] on the arguments down to [-101]. *)
Lemma exp_lower (x : R) : -101 <= x → pow2 (-202) <= exp x.
Proof.
  intros Hx. apply Rle_trans with (exp (-101)).
  - replace (-101) with (Ropp (INR 101 * 1)) by (rewrite INR_IZR_INZ; change (Z.of_nat 101) with 101%Z; lra).
    rewrite exp_Ropp.
    rewrite exp_nat.
    rewrite (pow2_neg_IZR 202).
    apply Rinv_le_contravar; [apply pow_lt, exp_pos|].
    apply Rle_trans with (4 ^ 101).
    + apply pow_incr. split; [left; apply exp_pos|]. pose proof exp_le_3. lra.
    + right. change 4 with (IZR 4). rewrite pow_IZR. f_equal.
  - destruct (Req_dec x (-101)) as [->|Hne]; [lra|].
    left. apply exp_increasing. lra.
Qed.

(** [exp] is below [1 / (15 * 10^16)] from [-2556/64] down. *)
Lemma exp_upper_far (x : R) : x <= - (2556 / 64) → exp x <= / 150000000000000000.
Proof.
  intros Hx. apply Rle_trans with (exp (- (2556 / 64))).
  { destruct (Req_dec x (- (2556 / 64))) as [->|Hne]; [lra|].
    left. apply exp_increasing. lra. }
  rewrite exp_Ropp. apply Rinv_le_contravar; [lra|].
  replace (2556 / 64) with (INR 2556 * / 64)
    by (rewrite INR_IZR_INZ; change (Z.of_nat 2556) with 2556%Z; lra).
  rewrite exp_nat.
  apply Rle_trans with ((65 / 64) ^ 2556).
  - apply Rmult_le_reg_r with (64 ^ 2556); [apply pow_lt; lra|].
    rewrite <- Rpow_mult_distr.
    replace (65 / 64 * 64) with 65 by lra.
    change 64 with (IZR 64). change 65 with (IZR 65).
    rewrite !pow_IZR, <- mult_IZR. apply IZR_le. by vm_compute.
  - apply pow_incr. split; [lra|].
    pose proof (exp_ineq1_le (/ 64)). lra.
Qed.

Lemma exp_near_1 (h : R) : Rabs h <= 1 / 2 → Rabs (exp h - 1) <= 2 * Rabs h.
Proof.
  intros Hh. pose proof (exp_ineq1_le h) as Hlo.
  destruct (Rle_lt_dec 0 h) as [Hpos|Hneg].
  - rewrite (Rabs_pos_eq h) in * by done.
    pose proof (exp_neg_upper h Hpos) as Hup. 
    pose proof (exp_ineq1_le (- h)) as Hlo'.
    pose proof (exp_pos h) as He. pose proof (exp_pos (- h)) as He'.
    assert (Hprod : exp h * exp (- h) = 1) by (rewrite <- exp_plus, Rplus_opp_r; apply exp_0).
    rewrite Rabs_pos_eq by lra.
    assert (exp h * (1 - h) <= 1) by nra.
    nra.
  - rewrite (Rabs_left h) in * by done.
    assert (exp h <= 1).
    { rewrite <- exp_0. left. apply exp_increasing. lra. }
    rewrite Rabs_left1 by lra. lra.
Qed.


(** *** The threshold in binary64 *)

Variable exp64 : R → R.
Hypothesis exp64_accurate : exp_accurate exp64.

Lemma eps_threshold64_steps (t : nat) :
  (Z.of_nat t <= 1000000)%Z →
  eps_threshold64 exp64 hyperparameters t
  = add f01 (mul f08 (exp64 (round (- (INR t / 10000))))).
Proof.
  intros Ht. unfold eps_threshold64.
  cbn [EPS_START EPS_END EPS_DECAY hyperparameters].
  rewrite round_09, round_01, round_10000, sub_09_01.
  rewrite INR_IZR_INZ, round_IZR
    by (change (2 ^ 53)%Z with 9007199254740992%Z; lia).
  unfold mul at 2, div.
  replace (-1 * IZR (Z.of_nat t)) with (IZR (- Z.of_nat t))
    by (rewrite opp_IZR; lra).
  rewrite round_IZR by (change (2 ^ 53)%Z with 9007199254740992%Z; lia).
  replace (IZR (- Z.of_nat t) / 10000) with (- (IZR (Z.of_nat t) / 10000))
    by (rewrite opp_IZR; lra).
  reflexivity.
Qed.

Lemma eps_threshold64_0 : eps_threshold64 exp64 hyperparameters 0 = f09.
Proof.
  rewrite eps_threshold64_steps by lia. cbn [INR].
  replace (- (0 / 10000)) with 0 by lra.
  rewrite round_0. destruct exp64_accurate as [-> _].
  unfold mul. rewrite Rmult_1_r, round_f08. apply add_01_08.
Qed.

(** The argument of [math.exp] at a step from 1 to [10^6]. *)
Lemma exp_argument (t : nat) :
  (1 <= Z.of_nat t <= 1000000)%Z →
  let x := INR t / 10000 in
  / 10000 <= x <= 100
  ∧ Rabs (round (- x) + x) <= pow2 (-53) * x.
Proof.
  intros Ht x.
  assert (Hx : / 10000 <= x <= 100).
  { unfold x. rewrite INR_IZR_INZ.
    assert (1 <= IZR (Z.of_nat t) <= 1000000) by (split; apply IZR_le; lia).
    lra. }
  split; [done|].
  replace (round (- x) + x) with (round (- x) - - x) by lra.
  replace (pow2 (-53) * x) with (pow2 (-53) * Rabs (- x))
    by (rewrite Rabs_Ropp, Rabs_pos_eq; lra).
  apply round_error. rewrite Rabs_Ropp, Rabs_pos_eq by lra.
  apply Rle_trans with (pow2 (-14)); [apply pow2_le; lia|].
  pow2_eval. lra.
Qed.

(** What [math.exp] returns there. *)
Lemma exp64_range (b : R) :
  -101 <= b <= - (9 / 100000) →
  pow2 (-203) <= exp64 b <= 1
  ∧ Rabs (exp64 b - exp b) <= pow2 (-50) * exp b.
Proof.
  intros Hb. destruct exp64_accurate as [_ Hacc].
  specialize (Hacc b ltac:(lra)). split; [|done].
  apply Rabs_bound in Hacc as [Hlo Hhi].
  pose proof (exp_lower b ltac:(lra)) as Hlow.
  assert (Hup : exp b <= / (1 + 9 / 100000)).
  { replace b with (- - b) by lra. eapply Rle_trans; [apply exp_neg_upper; lra|].
    apply Rinv_le_contravar; lra. }
  assert (Hv : pow2 (-50) = / 1125899906842624) by (by pow2_eval).
  rewrite Hv in *. split.
  - replace (-203)%Z with (-202 + -1)%Z by lia. rewrite pow2_add.
    assert (Hhalf : pow2 (-1) = / 2) by (by pow2_eval). rewrite Hhalf.
    pose proof (pow2_pos (-202)). nra.
  - pose proof (exp_pos b). nra.
Qed.


(** The rounded argument and the value of [math.exp] at a step from 1 to
    [10^6], and the product with [EPS_START - EPS_END]. *)
Lemma eps_threshold64_parts (t : nat) :
  (1 <= Z.of_nat t <= 1000000)%Z →
  let x := INR t / 10000 in
  let b := round (- x) in
  let c := exp64 b in
  let d := mul f08 c in
  (/ 10000 <= x <= 100)
  ∧ Rabs (b + x) <= pow2 (-53) * x
  ∧ -101 <= b <= - (9 / 100000)
  ∧ pow2 (-203) <= c <= 1
  ∧ Rabs (c - exp b) <= pow2 (-50) * exp b
  ∧ pow2 (-1022) <= f08 * c
  ∧ Rabs (d - f08 * c) <= pow2 (-53) * (f08 * c)
  ∧ 0 < d <= f08
  ∧ eps_threshold64 exp64 hyperparameters t = add f01 d.
Proof.
  intros Ht x b c d.
  destruct (exp_argument t Ht) as [Hx Hb]. fold x b in Hx, Hb.
  assert (Hu : pow2 (-53) = / 9007199254740992) by (by pow2_eval).
  assert (Hb' : -101 <= b <= - (9 / 100000)).
  { apply Rabs_bound in Hb. rewrite Hu in Hb. nra. }
  destruct (exp64_range b Hb') as [Hc Hcerr]. fold c in Hc, Hcerr.
  pose proof f08_bounds as Hk. rewrite Hu in Hk.
  assert (Hkc : pow2 (-1022) <= f08 * c).
  { apply Rle_trans with (pow2 (-204)); [apply pow2_le; lia|].
    replace (-204)%Z with (-203 + -1)%Z by lia. rewrite pow2_add.
    assert (Hhalf : pow2 (-1) = / 2) by (by pow2_eval). rewrite Hhalf.
    pose proof (pow2_pos (-203)). nra. }
  assert (Hd : Rabs (d - f08 * c) <= pow2 (-53) * (f08 * c)).
  { unfold d, mul.
    replace (pow2 (-53) * (f08 * c)) with (pow2 (-53) * Rabs (f08 * c)).
    - apply round_error. rewrite Rabs_pos_eq; [done|].
      pose proof (pow2_pos (-1022)). lra.
    - rewrite Rabs_pos_eq; [done|]. pose proof (pow2_pos (-1022)). lra. }
  assert (Hd' : 0 < d <= f08).
  { split.
    - apply Rlt_le_trans with (round (pow2 (-1022))).
      + rewrite <- (Rmult_1_l (pow2 (-1022))).
        change 1 with (IZR 1) at 1.
        rewrite round_exact by (change (2 ^ 53)%Z with 9007199254740992%Z; lia).
        rewrite Rmult_1_l. apply pow2_pos.
      + unfold d, mul. apply round_mono; [lra|done].
    - rewrite <- round_f08. unfold d, mul. apply round_mono; [done|].
      pose proof (pow2_pos (-203)). nra. }
  split; [exact Hx|]. split; [exact Hb|]. split; [exact Hb'|].
  split; [exact Hc|]. split; [exact Hcerr|]. split; [exact Hkc|].
  split; [exact Hd|]. split; [exact Hd'|].
  rewrite eps_threshold64_steps by lia. subst d c b x. reflexivity.
Qed.

Lemma eps_threshold64_bounds (t : nat) :
  (Z.of_nat t <= 1000000)%Z →
  f01 <= eps_threshold64 exp64 hyperparameters t <= f09.
Proof.
  intros Ht. pose proof f01_bounds as H1. pose proof f09_bounds as H9.
  assert (Hz : pow2 (-56) = / 72057594037927936) by (by pow2_eval).
  rewrite Hz in H1.
  assert (Hmin : pow2 (-1022) <= f01).
  { apply Rle_trans with (pow2 (-4)); [apply pow2_le; lia|].
    assert (pow2 (-4) = / 16) as -> by (by pow2_eval). lra. }
  destruct (decide (t = 0%nat)) as [->|Hpos].
  { rewrite eps_threshold64_0. lra. }
  destruct (eps_threshold64_parts t ltac:(lia))
    as (_ & _ & _ & _ & _ & _ & _ & Hd & ->).
  unfold add. rewrite <- round_f01 at 1. rewrite <- add_01_08. unfold add.
  split; apply round_mono; lra.
Qed.

(** From step 400000 on the product is less than half a unit in the last
    place of [EPS_END], and the sum is rounded to [EPS_END]. *)
Lemma eps_threshold64_far (t : nat) :
  (400000 <= Z.of_nat t <= 1000000)%Z →
  eps_threshold64 exp64 hyperparameters t = f01.
Proof.
  intros Ht.
  destruct (eps_threshold64_parts t ltac:(lia))
    as (Hx & Hb & Hb' & Hc & Hcerr & Hkc & Hd & Hd' & ->).
  set (x := INR t / 10000) in *. set (b := round (- x)) in *.
  set (c := exp64 b) in *. set (d := mul f08 c) in *.
  assert (Hu : pow2 (-53) = / 9007199254740992) by (by pow2_eval).
  assert (Hv : pow2 (-50) = / 1125899906842624) by (by pow2_eval).
  assert (Hx40 : 40 <= x).
  { unfold x. rewrite INR_IZR_INZ.
    assert (400000 <= IZR (Z.of_nat t)) by (apply IZR_le; lia). lra. }
  assert (Hexp : exp b <= / 150000000000000000).
  { apply exp_upper_far. apply Rabs_bound in Hb. rewrite Hu in Hb. nra. }
  pose proof (exp_pos b) as Hpos.
  apply Rabs_bound in Hcerr, Hd. rewrite Hu in Hd. rewrite Hv in Hcerr.
  pose proof f08_bounds as Hk. rewrite Hu in Hk.
  assert (Hc' : c <= 1.001 * exp b) by nra.
  assert (Hkc' : f08 * c <= 0.81 * exp b) by nra.
  assert (Hsmall : d < / 144115188075855872) by nra.
  unfold add.
  change (-56)%Z with (-4 - 52)%Z.
  apply round_near; [lia|..].
  - change (-4 + 1)%Z with (-3)%Z. change (-4 - 52)%Z with (-56)%Z.
    pow2_eval. rewrite Rabs_pos_eq; lra.
  - change (52 - -4)%Z with 56%Z. change (-4 - 52)%Z with (-56)%Z.
    pow2_eval. apply Rabs_def1; lra.
Qed.

(** The computed threshold follows the exact one. *)
Lemma eps_threshold64_tracks (t : nat) :
  (Z.of_nat t <= 1000000)%Z →
  Rabs (eps_threshold64 exp64 hyperparameters t
        - (0.1 + (0.9 - 0.1) * exp (- (INR t / 10000))))
  <= pow2 (-45).
Proof.
  intros Ht.
  assert (Hu : pow2 (-53) = / 9007199254740992) by (by pow2_eval).
  assert (Hv : pow2 (-50) = / 1125899906842624) by (by pow2_eval).
  assert (Hw : pow2 (-45) = / 35184372088832) by (by pow2_eval).
  assert (Hz : pow2 (-56) = / 72057594037927936) by (by pow2_eval).
  destruct (decide (t = 0%nat)) as [->|Hpos].
  { rewrite eps_threshold64_0. cbn [INR].
    replace (- (0 / 10000)) with 0 by lra. rewrite exp_0.
    pose proof f09_bounds as H9. rewrite Hu in H9. rewrite Hw.
    apply Rabs_le. lra. }
  destruct (eps_threshold64_parts t ltac:(lia))
    as (Hx & Hb & Hb' & Hc & Hcerr & Hkc & Hd & Hd' & ->).
  set (x := INR t / 10000) in *. set (b := round (- x)) in *.
  set (c := exp64 b) in *. set (d := mul f08 c) in *.
  pose proof f01_bounds as H1. pose proof f08_bounds as Hk.
  rewrite Hz in H1. rewrite Hu in Hk.
  set (E := exp (- x)).
  assert (HE : 0 < E <= 1).
  { split; [apply exp_pos|]. unfold E. rewrite <- exp_0.
    left. apply exp_increasing. lra. }
  apply Rabs_bound in Hb. rewrite Hu in Hb.
  assert (Hh : Rabs (b + x) <= 1 / 2) by (apply Rabs_le; nra).
  pose proof (exp_near_1 (b + x) Hh) as Hnear.
  assert (Hh' : Rabs (b + x) <= 100 / 9007199254740992) by (apply Rabs_le; nra).
  apply Rabs_bound in Hnear.
  assert (Hexpb : exp b = E * exp (b + x)).
  { unfold E. rewrite <- exp_plus. f_equal. lra. }
  assert (Hb1 : E - 200 / 9007199254740992 <= exp b <= E + 200 / 9007199254740992).
  { rewrite Hexpb. split; nra. }
  apply Rabs_bound in Hcerr. rewrite Hv in Hcerr.
  assert (Hc1 : E - 220 / 9007199254740992 <= c <= E + 220 / 9007199254740992).
  { split; nra. }
  assert (Hkc1 : 0.8 * E - 180 / 9007199254740992 <= f08 * c
                 <= 0.8 * E + 180 / 9007199254740992).
  { split; nra. }
  apply Rabs_bound in Hd. rewrite Hu in Hd.
  assert (Hd1 : 0.8 * E - 182 / 9007199254740992 <= d
                <= 0.8 * E + 182 / 9007199254740992).
  { split; nra. }
  assert (Hsum : pow2 (-1022) <= f01 + d).
  { apply Rle_trans with (pow2 (-4)); [apply pow2_le; lia|].
    assert (pow2 (-4) = / 16) as -> by (by pow2_eval). lra. }
  pose proof (round_error (f01 + d)) as Hr.
  rewrite (Rabs_pos_eq (f01 + d)) in Hr by lra.
  specialize (Hr Hsum). apply Rabs_bound in Hr. rewrite Hu in Hr.
  unfold add. fold E. rewrite Hw. apply Rabs_le. split; nra.
Qed.


End Binary64Facts.

(** The exponential rounded to the nearest binary64 number has the
    accuracy assumed of [math.exp]. *)
Lemma round_exp_accurate : Binary64.exp_accurate (λ x, Binary64.round (exp x)).
Proof.
  split.
  - rewrite exp_0. apply round_IZR. change (2 ^ 53)%Z with 9007199254740992%Z. lia.
  - intros x [Hx _].
    pose proof (exp_pos x) as Hpos.
    pose proof (exp_lower x Hx) as Hlow.
    assert (Hmin : (Binary64.pow2 (-1022) <= Rabs (exp x))%R).
    { rewrite Rabs_pos_eq by lra.
      etransitivity; [|exact Hlow]. apply pow2_le. lia. }
    pose proof (round_error (exp x) Hmin) as Herr.
    rewrite (Rabs_pos_eq (exp x)) in Herr by lra.
    etransitivity; [exact Herr|].
    apply Rmult_le_compat_r; [lra|]. apply pow2_le. lia.
Qed.




(** ** Tensor operations *)

Section TensorFacts.
Local Open Scope R_scope.

Lemma mapM_Ok {A B} (h : A → result B) (l : list A) (k : list B) :
  mapM h l = Ok k → Forall2 (λ x y, h x = Ok y) l k.
Proof.
  revert k. induction l as [|x l IH]; intros k; cbn.
  - intros [= <-]. constructor.
  - destruct (h x) as [y|e] eqn:Hx; cbn; [|done].
    destruct (mapM h l) as [k'|e]; cbn; [|done].
    intros [= <-]. constructor; [done|by apply IH].
Qed.

Lemma mapM_fmap_Ok {A B} (h : A → result B) (g : A → B) (l : list A) :
  Forall (λ x, h x = Ok (g x)) l → mapM h l = Ok (g <$> l).
Proof.
  induction 1 as [|x l Hx _ IH]; cbn; [done|]. by rewrite Hx, IH.
Qed.

Lemma zip_strict_Ok {A B C} (h : A → B → C) (u : list A) (v : list B) (l : list C) :
  zip_strict h u v = Ok l →
  length u = length v ∧ l = zip_with h u v.
Proof.
  revert v l. induction u as [|a u IH]; intros [|b v] l; cbn; try done.
  - by intros [= <-].
  - destruct (zip_strict h u v) as [l'|e] eqn:Hz; cbn; [|done].
    intros [= <-]. destruct (IH v l' Hz) as [-> ->]. done.
Qed.

Lemma zip_strict_same_length {A B C} (h : A → B → C) (u : list A) (v : list B) :
  length u = length v → zip_strict h u v = Ok (zip_with h u v).
Proof.
  revert v. induction u as [|a u IH]; intros [|b v] Hlen; cbn in *; try done.
  rewrite IH by lia. done.
Qed.

Lemma zip_strictM_Ok {A B C} (h : A → B → result C) (u : list A) (v : list B)
    (l : list C) :
  zip_strictM h u v = Ok l →
  length u = length v ∧ length l = length u
  ∧ ∀ i a b, u !! i = Some a → v !! i = Some b →
      ∃ c, h a b = Ok c ∧ l !! i = Some c.
Proof.
  revert v l. induction u as [|a u IH]; intros [|b v] l; cbn; try done.
  - intros [= <-]. repeat split; done.
  - destruct (h a b) as [c|e] eqn:Hab; cbn; [|done].
    destruct (zip_strictM h u v) as [l'|e] eqn:Hz; cbn; [|done].
    intros [= <-]. destruct (IH v l' Hz) as (Hl1 & Hl2 & Hix).
    repeat split; cbn; try lia.
    intros [|i] a' b'; cbn.
    + intros [= <-] [= <-]. by exists c.
    + apply Hix.
Qed.

Lemma cat_Ok {A} (ts r : list A) : cat ts = Ok r → r = ts ∧ ts ≠ [].
Proof. destruct ts; cbn; [done|]. by intros [= <-]. Qed.

Lemma cat_rows_Ok (ts r : list (list R)) : cat_rows ts = Ok r → r = ts ∧ ts ≠ [].
Proof.
  destruct ts as [|x ts]; cbn; [done|].
  destruct (forallb _ ts); [|done]. by intros [= <-].
Qed.

Lemma max_from_is_max (row : list R) : ∀ best ibest i,
  is_max (best :: row) (max_from best ibest i row).1.
Proof.
  induction row as [|x row IH]; intros best ibest i; cbn.
  - split; [apply list_elem_of_here|].
    intros y ->%list_elem_of_singleton. lra.
  - destruct (Rlt_dec best x) as [Hlt|Hge].
    + destruct (IH x i (S i)) as [Hin Hmax]. split.
      * apply list_elem_of_further. exact Hin.
      * intros y Hy. apply elem_of_cons in Hy as [->|Hy]; [|by apply Hmax].
        apply Rle_trans with x; [lra|]. apply Hmax, list_elem_of_here.
    + destruct (IH best ibest (S i)) as [Hin Hmax]. split.
      * apply elem_of_cons in Hin as [->|Hin]; [apply list_elem_of_here|].
        by do 2 apply list_elem_of_further.
      * intros y Hy. apply elem_of_cons in Hy as [->|Hy]; [apply Hmax, list_elem_of_here|].
        apply elem_of_cons in Hy as [->|Hy].
        -- apply Rle_trans with best; [lra|]. apply Hmax, list_elem_of_here.
        -- by apply Hmax, list_elem_of_further.
Qed.

Lemma row_max_Ok (row : list R) (vi : R * nat) :
  row_max row = Ok vi → is_max row vi.1.
Proof.
  destruct row as [|x row]; cbn; [done|]. intros [= <-]. apply max_from_is_max.
Qed.

End TensorFacts.

(** ** The optimisation step: temporal-difference targets *)

Section TargetFacts.
Import DQL.
Local Open Scope R_scope.
Variable cfg : Config.

(** The masked assignment puts the values of the non-final next states at
    the positions of their transitions and leaves zero elsewhere. *)
Lemma masked_assign_next_states (P : list R → R → Prop) (trs : list Transition) :
  ∀ dst src out,
    masked_assign dst ((λ tr, bool_decide (next_state tr ≠ None)) <$> trs) src
    = Ok out →
    Forall (λ d, d = 0) dst →
    Forall2 P (omap next_state trs) src →
    Forall2 (λ tr v, match next_state tr with
                     | None => v = 0
                     | Some s' => P s' v
                     end) trs out.
Proof.
  induction trs as [|tr trs IH]; intros dst src out; cbn.
  - destruct dst, src; try done. intros [= <-] _ _. constructor.
  - destruct dst as [|d dst]; [done|].
    destruct (next_state tr) as [s'|] eqn:Hns.
    + rewrite bool_decide_true by done.
      destruct src as [|v src]; [done|]. cbn [masked_assign].
      destruct (masked_assign dst _ src) as [out'|e] eqn:Hm; cbn; [|done].
      intros [= <-] Hd Hsrc.
      apply Forall_cons in Hd as [_ Hd].
      apply Forall2_cons in Hsrc as [Hv Hsrc].
      constructor; [by rewrite Hns|]. by eapply IH.
    + rewrite bool_decide_false by (intros Hne; by apply Hne).
      cbn [masked_assign].
      destruct (masked_assign dst _ src) as [out'|e] eqn:Hm; cbn; [|done].
      intros [= <-] Hd Hsrc.
      apply Forall_cons in Hd as [-> Hd].
      constructor; [by rewrite Hns|]. by eapply IH.
Qed.

Lemma zeros_all_zero (n : nat) : Forall (λ d, d = 0) (zeros n).
Proof. apply Forall_replicate. reflexivity. Qed.

(** The values [expected_state_action_values] computes for a collated
    batch are the targets of its transitions, one by one. *)
Lemma expected_values_are_targets (target : DQN.t) (transitions : list Transition)
    (batch : Batch) (expected : list R) :
  collate transitions = Ok batch →
  expected_state_action_values cfg target batch = Ok expected →
  Forall2 (td_target cfg target) transitions expected.
Proof.
  unfold collate, expected_state_action_values.
  destruct transitions as [|tr0 trs0] eqn:Htrs; [done|]. rewrite <- Htrs. clear Htrs.
  destruct (cat_rows (omap next_state transitions)) as [nfns|e] eqn:Hn; cbn; [|done].
  destruct (cat_rows (state <$> transitions)) as [sb|e] eqn:Hs; cbn; [|done].
  destruct (cat (action <$> transitions)) as [ab|e] eqn:Ha; cbn; [|done].
  destruct (cat ((λ tr, reward tr) <$> transitions)) as [rb|e] eqn:Hrw; cbn; [|done].
  intros [= <-]. cbn.
  apply cat_rows_Ok in Hn as [-> _]. apply cat_Ok in Hrw as [-> _].
  unfold DQN.call, max_dim1.
  destruct (mapM (DQN.forward target) _) as [q|e] eqn:Hq; cbn; [|done].
  destruct (mapM row_max q) as [vi|e] eqn:Hvi; cbn; [|done].
  destruct (masked_assign _ _ _) as [nsv|e] eqn:Hm; cbn; [|done].
  intros Hz. apply zip_strict_Ok in Hz as [Hlen ->].
  apply mapM_Ok in Hq, Hvi.
  assert (Hsrc : Forall2 (λ s' v, ∃ q m, DQN.forward target s' = Ok q
                                         ∧ is_max q m ∧ v = m)
                   (omap next_state transitions) (vi.*1)).
  { apply Forall2_fmap_r.
    eapply Forall2_trans; [| exact Hq | exact Hvi].
    intros s' q' vi' Hf Hr. cbn. exists q', vi'.1. split; [done|].
    split; [by apply row_max_Ok|done]. }
  pose proof (masked_assign_next_states _ _ _ _ _ Hm (zeros_all_zero _) Hsrc) as Hnsv.
  clear Hm Hsrc Hq Hvi Hlen Hs Ha.
  induction Hnsv as [|tr v trs nsv Hv Hrest IH]; cbn.
  - constructor.
  - constructor; [|apply IH].
    unfold td_target. destruct (next_state tr) as [s'|].
    + destruct Hv as (q' & m & Hf & Hmax & ->). exists q', m.
      split; [done|]. split; [done|]. ring.
    + rewrite Hv. ring.
Qed.

End TargetFacts.

(** ** The optimisation step past the size gate *)

Section StepFacts.
Import DQL.
Local Open Scope R_scope.
Context `{Framework}.
Variable cfg : Config.
Implicit Types (w : World).

(** A step that passes the gate and returns went through every stage. *)
Lemma optimize_model_inv w :
  ¬ (ReplayMemory.len (memory w) < BATCH_SIZE cfg)%nat →
  (optimize_model cfg w).1 = Ok tt →
  ∃ transitions g' batch sav expected l target',
    ReplayMemory.sample (memory w) (BATCH_SIZE cfg) (rng w) = (Ok transitions, g')
    ∧ collate transitions = Ok batch
    ∧ state_action_values (policy_net w) batch = Ok sav
    ∧ expected_state_action_values cfg (target_net w) batch = Ok expected
    ∧ SmoothL1Loss sav expected = Ok l
    ∧ soft_update cfg
        (optimizer_step (loss batch expected) (policy_net w) (optimizer w)).1
        (target_net w) = Ok target'
    ∧ (optimize_model cfg w).2
      = set_target_net target'
          (set_policy
             (optimizer_step (loss batch expected) (policy_net w) (optimizer w))
             (set_rng g' w)).
Proof.
  intros Hge.
  unfold optimize_model, mbind, M_bind, Py.bind, gets, lift, modify,
    memory_sample, with_rng.
  cbn [fst snd]. rewrite decide_False by done.
  destruct (ReplayMemory.sample _ _ _) as [[transitions|e] g'] eqn:Hs; [|done].
  cbn [set_rng policy_net target_net optimizer].
  destruct (collate transitions) as [batch|e] eqn:Hc; [|done].
  destruct (state_action_values _ batch) as [sav|e] eqn:Hsav; [|done].
  destruct (expected_state_action_values _ _ batch) as [expected|e] eqn:He; [|done].
  destruct (SmoothL1Loss sav expected) as [l|e] eqn:Hl; [|done].
  cbn [set_policy set_rng policy_net target_net fst snd].
  destruct (soft_update _ _ _) as [target'|e] eqn:Hsoft; [|done].
  intros _. by exists transitions, g', batch, sav, expected, l, target'.
Qed.

(** C5.  In a step that passes the gate and returns, the value the
    optimiser step regresses a sampled transition to is its reward when
    its next state is [None], and its reward plus [GAMMA] times the
    largest value the target network predicts for its next state
    otherwise; for a final transition it is the same whatever network is
    put in the place of the target network. *)
Theorem optimize_model_targets w :
  ¬ (ReplayMemory.len (memory w) < BATCH_SIZE cfg)%nat →
  (optimize_model cfg w).1 = Ok tt →
  ∃ transitions g' batch expected,
    ReplayMemory.sample (memory w) (BATCH_SIZE cfg) (rng w) = (Ok transitions, g')
    ∧ collate transitions = Ok batch
    ∧ expected_state_action_values cfg (target_net w) batch = Ok expected
    ∧ policy_net (optimize_model cfg w).2
      = (optimizer_step (loss batch expected) (policy_net w) (optimizer w)).1
    ∧ Forall2 (λ tr v,
         match next_state tr with
         | None => v = reward tr
         | Some s' =>
             ∃ q m, DQN.forward (target_net w) s' = Ok q ∧ is_max q m
                    ∧ v = reward tr + GAMMA cfg * m
         end) transitions expected
    ∧ (∀ other expected',
         expected_state_action_values cfg other batch = Ok expected' →
         ∀ i tr, transitions !! i = Some tr → next_state tr = None →
           expected' !! i = Some (reward tr)).
Proof.
  intros Hge Hok.
  destruct (optimize_model_inv w Hge Hok)
    as (transitions & g' & batch & sav & expected & l & target'
        & Hs & Hc & _ & He & _ & _ & Hw).
  exists transitions, g', batch, expected.
  split; [done|]. split; [done|]. split; [done|].
  split; [by rewrite Hw|]. split.
  - exact (expected_values_are_targets cfg _ _ _ _ Hc He).
  - intros other expected' He' i tr Hi Hfinal.
    pose proof (expected_values_are_targets cfg _ _ _ _ Hc He') as Hall.
    destruct (Forall2_lookup_l _ _ _ _ _ Hall Hi) as (v & Hv & Htd).
    unfold td_target in Htd. rewrite Hfinal in Htd. by rewrite Hv, Htd.
Qed.

End StepFacts.

(** Scenario 5: a step on a buffer holding one final and one non-final
    transition, with a batch of two. *)
Lemma optimize_model_targets_example :
  let cfg := {| BATCH_SIZE := 2; GAMMA := 0.99; EPS_START := 0.9;
                EPS_END := 0.1; EPS_DECAY := 10000; TAU := 0.005 |} in
  let w := DQL.example_world DQL.example_memory in
  ∃ transitions expected,
    (ReplayMemory.sample (DQL.memory w) 2 (DQL.rng w)).1 = Ok transitions
    ∧ Forall2 (λ tr v,
         match next_state tr with
         | None => v = reward tr
         | Some s' =>
             ∃ q m, DQN.forward (DQL.target_net w) s' = Ok q ∧ is_max q m
                    ∧ v = (reward tr + 0.99 * m)%R
         end) transitions expected.
Proof.
  intros cfg w.
  destruct (optimize_model_targets cfg w)
    as (transitions & g' & batch & expected & Hs & _ & _ & _ & Hall & _).
  - vm_compute. lia.
  - reflexivity.
  - exists transitions, expected.
    split; [exact (f_equal fst Hs)|exact Hall].
Defined.

(** ** The soft update of the target network *)

Section SoftUpdateFacts.
Import DQL.
Local Open Scope R_scope.

Lemma mix_vector (a b : R) (u v l : list R) :
  zip_strict Rplus ((λ x, x * a) <$> u) ((λ x, x * b) <$> v) = Ok l →
  length u = length v ∧ l = zip_with (λ p t, p * a + t * b) u v.
Proof.
  intros [Hlen ->]%zip_strict_Ok. rewrite !length_fmap in Hlen.
  split; [done|]. by rewrite zip_with_fmap_l, zip_with_fmap_r.
Qed.

(** The entries of [P * a + T * b]. *)
Lemma tensor_mix_entries (a b : R) (P T N : Tensor) :
  tensor_add (tensor_scale P a) (tensor_scale T b) = Ok N →
  (∀ ix v, entry N ix = Some v →
     ∃ p t, entry P ix = Some p ∧ entry T ix = Some t ∧ v = p * a + t * b)
  ∧ (∀ ix, is_Some (entry T ix) → is_Some (entry N ix))
  ∧ (a = 1 → b = 0 → N = P).
Proof.
  destruct P as [u|m], T as [v|n]; cbn; try done.
  - destruct (zip_strict _ _ _) as [l|e] eqn:Hz; cbn; [|done].
    intros [= <-]. apply mix_vector in Hz as [Hlen ->].
    split; [|split].
    + intros [|i [|? ?]] x; cbn; try done.
      rewrite lookup_zip_with. intros Hx.
      destruct (u !! i) as [p|]; [|done]. destruct (v !! i) as [t|]; [|done].
      cbn in Hx. injection Hx as <-. by exists p, t.
    + intros [|i [|? ?]]; cbn; try by intros [? ?].
      intros [t Ht]. rewrite lookup_zip_with, Ht.
      destruct (lookup_lt_is_Some_2 u i) as [p ->]; [|by eexists].
      apply lookup_lt_Some in Ht. lia.
    + intros -> ->. f_equal. clear -Hlen. revert v Hlen.
      induction u as [|p u IH]; intros [|t v] Hlen; cbn in *; try done.
      f_equal; [ring|]. apply IH. lia.
  - destruct (zip_strictM _ _ _) as [rows|e] eqn:Hz; cbn; [|done].
    intros [= <-]. apply zip_strictM_Ok in Hz as (Hlen & Hlen' & Hrows).
    repeat rewrite length_fmap in Hlen. repeat rewrite length_fmap in Hlen'.
    assert (Hrow : ∀ i r1 r2, m !! i = Some r1 → n !! i = Some r2 →
              length r1 = length r2
              ∧ rows !! i = Some (zip_with (λ p t, p * a + t * b) r1 r2)).
    { intros i r1 r2 H1 H2.
      destruct (Hrows i ((λ x, x * a) <$> r1) ((λ x, x * b) <$> r2))
        as (r & Hr & Hi); [by rewrite list_lookup_fmap, H1
                          |by rewrite list_lookup_fmap, H2|].
      apply mix_vector in Hr as [? ->]. done. }
    split; [|split].
    + intros [|i [|j [|? ?]]] x; cbn; try done.
      destruct (rows !! i) as [r|] eqn:Hr; cbn; [|done]. intros Hx.
      destruct (lookup_lt_is_Some_2 m i) as [r1 H1];
        [apply lookup_lt_Some in Hr; lia|].
      destruct (lookup_lt_is_Some_2 n i) as [r2 H2];
        [apply lookup_lt_Some in Hr; lia|].
      destruct (Hrow i r1 r2 H1 H2) as [_ Hr']. rewrite Hr in Hr'.
      injection Hr' as ->. rewrite H1, H2. cbn.
      rewrite lookup_zip_with in Hx.
      destruct (r1 !! j) as [p|]; [|done]. destruct (r2 !! j) as [t|]; [|done].
      cbn in Hx. injection Hx as <-. by exists p, t.
    + intros [|i [|j [|? ?]]]; cbn; try by intros [? ?].
      destruct (n !! i) as [r2|] eqn:H2; cbn; [|by intros [? ?]].
      intros [t Ht].
      destruct (lookup_lt_is_Some_2 m i) as [r1 H1];
        [apply lookup_lt_Some in H2; lia|].
      destruct (Hrow i r1 r2 H1 H2) as [Hl ->]. cbn.
      rewrite lookup_zip_with, Ht.
      destruct (lookup_lt_is_Some_2 r1 j) as [p ->]; [|by eexists].
      apply lookup_lt_Some in Ht. lia.
    + intros -> ->. f_equal. apply list_eq. intros i.
      destruct (m !! i) as [r1|] eqn:H1.
      * destruct (lookup_lt_is_Some_2 n i) as [r2 H2];
          [apply lookup_lt_Some in H1; lia|].
        destruct (Hrow i r1 r2 H1 H2) as [Hl ->]. f_equal.
        clear -Hl. revert r2 Hl.
        induction r1 as [|p r1 IH]; intros [|t r2] Hl; cbn in *; try done.
        f_equal; [ring|]. apply IH. lia.
      * apply lookup_ge_None. apply lookup_ge_None in H1. lia.
Qed.

End SoftUpdateFacts.

Section SoftUpdateStep.
Import DQL.
Local Open Scope R_scope.
Context `{Framework}.
Variable cfg : Config.
Implicit Types (w : World) (policy target : DQN.t).

(** Membership of a literal key in [DQN.keys]. *)
Ltac known_key :=
  unfold DQN.keys;
  repeat first [apply list_elem_of_here | apply list_elem_of_further].

Local Opaque tensor_add tensor_scale.

(** A soft update that returns has combined the two state dictionaries
    key by key and loaded the result. *)
Lemma soft_update_inv policy target target' :
  soft_update cfg policy target = Ok target' →
  Forall (λ key, ∃ P T N,
            dict_get key (DQN.state_dict policy) = Ok P
            ∧ dict_get key (DQN.state_dict target) = Ok T
            ∧ tensor_add (tensor_scale P (TAU cfg)) (tensor_scale T (1 - TAU cfg))
              = Ok N
            ∧ dict_get key (DQN.state_dict target') = Ok N) DQN.keys.
Proof.
  unfold soft_update. intros Hsoft. simpl in Hsoft.
  destruct (tensor_add (tensor_scale (Tensor2 (weight (DQN.layer1 policy))) _) _)
    as [N1|] eqn:H1; [|done].
  destruct (tensor_add (tensor_scale (Tensor1 (bias (DQN.layer1 policy))) _) _)
    as [N2|] eqn:H2; [|done].
  destruct (tensor_add (tensor_scale (Tensor2 (weight (DQN.layer2 policy))) _) _)
    as [N3|] eqn:H3; [|done].
  destruct (tensor_add (tensor_scale (Tensor1 (bias (DQN.layer2 policy))) _) _)
    as [N4|] eqn:H4; [|done].
  destruct (tensor_add (tensor_scale (Tensor2 (weight (DQN.layer3 policy))) _) _)
    as [N5|] eqn:H5; [|done].
  destruct (tensor_add (tensor_scale (Tensor1 (bias (DQN.layer3 policy))) _) _)
    as [N6|] eqn:H6; [|done].
  simpl in Hsoft. unfold DQN.load_state_dict in Hsoft.
  simpl in Hsoft. unfold DQN.load_matrix, DQN.load_vector in Hsoft.
  simpl in Hsoft.
  destruct N1 as [?|m1]; [done|]. destruct (decide (widths m1 = _)); [|done].
  simpl in Hsoft.
  destruct N2 as [v1|?]; [|done]. destruct (decide (length v1 = _)); [|done].
  simpl in Hsoft.
  destruct N3 as [?|m2]; [done|]. destruct (decide (widths m2 = _)); [|done].
  simpl in Hsoft.
  destruct N4 as [v2|?]; [|done]. destruct (decide (length v2 = _)); [|done].
  simpl in Hsoft.
  destruct N5 as [?|m3]; [done|]. destruct (decide (widths m3 = _)); [|done].
  simpl in Hsoft.
  destruct N6 as [v3|?]; [|done]. destruct (decide (length v3 = _)); [|done].
  simpl in Hsoft. injection Hsoft as <-.
  unfold DQN.keys.
  repeat (constructor;
          [do 3 eexists; split; [reflexivity|]; split; [reflexivity|];
           split; [eassumption|reflexivity]|]).
  constructor.
Qed.

Local Transparent tensor_add tensor_scale.

Lemma param_unknown_key (net : DQN.t) (key : string) (ix : list nat) :
  key ∉ DQN.keys → DQN.param net key ix = None.
Proof.
  intros Hkey. unfold DQN.param, DQN.state_dict. cbn [dict_get].
  repeat match goal with
         | |- context [String.eqb ?k key] =>
             destruct (String.eqb_spec k key) as [Hk|_];
             [exfalso; apply Hkey; rewrite <- Hk; known_key|]
         end.
  done.
Qed.

(** The parameters after a soft update, entry by entry. *)
Lemma soft_update_params policy target target' :
  soft_update cfg policy target = Ok target' →
  (∀ key ix v, DQN.param target' key ix = Some v →
     ∃ p t, DQN.param policy key ix = Some p
            ∧ DQN.param target key ix = Some t
            ∧ v = TAU cfg * p + (1 - TAU cfg) * t)
  ∧ (∀ key ix, is_Some (DQN.param target key ix) →
               is_Some (DQN.param target' key ix))
  ∧ (TAU cfg = 1 → target' = policy).
Proof.
  intros Hsoft. pose proof (soft_update_inv _ _ _ Hsoft) as Hkeys.
  rewrite Forall_forall in Hkeys.
  split; [|split].
  - intros key ix v Hv.
    destruct (decide (key ∈ DQN.keys)) as [Hin|Hout];
      [|by rewrite param_unknown_key in Hv].
    destruct (Hkeys key Hin) as (P & T & N & HP & HT & HN & HN').
    unfold DQN.param in *. rewrite HP, HT. rewrite HN' in Hv.
    destruct (tensor_mix_entries _ _ _ _ _ HN) as (Hent & _ & _).
    destruct (Hent ix v Hv) as (p & t & Hp & Ht & ->).
    exists p, t. split; [done|]. split; [done|]. ring.
  - intros key ix Hsome.
    destruct (decide (key ∈ DQN.keys)) as [Hin|Hout];
      [|rewrite param_unknown_key in Hsome by done; by destruct Hsome].
    destruct (Hkeys key Hin) as (P & T & N & HP & HT & HN & HN').
    unfold DQN.param in *. rewrite HT in Hsome. rewrite HN'.
    destruct (tensor_mix_entries _ _ _ _ _ HN) as (_ & Hsome' & _).
    by apply Hsome'.
  - intros Htau.
    assert (Hsame : ∀ key, key ∈ DQN.keys →
              dict_get key (DQN.state_dict target')
              = dict_get key (DQN.state_dict policy)).
    { intros key Hin.
      destruct (Hkeys key Hin) as (P & T & N & HP & HT & HN & HN').
      destruct (tensor_mix_entries _ _ _ _ _ HN) as (_ & _ & Heq).
      rewrite HN', HP, Heq; [done|done|lra]. }
    pose proof (Hsame "layer1.weight" ltac:(known_key)) as E1.
    pose proof (Hsame "layer1.bias" ltac:(known_key)) as E2.
    pose proof (Hsame "layer2.weight" ltac:(known_key)) as E3.
    pose proof (Hsame "layer2.bias" ltac:(known_key)) as E4.
    pose proof (Hsame "layer3.weight" ltac:(known_key)) as E5.
    pose proof (Hsame "layer3.bias" ltac:(known_key)) as E6.
    destruct target' as [[] [] []], policy as [[] [] []].
    simpl in E1, E2, E3, E4, E5, E6. congruence.
Qed.

(** C6.  After a step that passes the gate and returns, every entry of
    every parameter of the target network is [TAU] times the same entry of
    the policy network as the optimiser step of this call has just left
    it, plus [1 - TAU] times its own value before the step, and no entry
    is lost; with [TAU = 1] the target network is a copy of the policy
    network. *)
Theorem optimize_model_soft_update w :
  ¬ (ReplayMemory.len (memory w) < BATCH_SIZE cfg)%nat →
  (optimize_model cfg w).1 = Ok tt →
  let w' := (optimize_model cfg w).2 in
  (∀ key ix v, DQN.param (target_net w') key ix = Some v →
     ∃ p t, DQN.param (policy_net w') key ix = Some p
            ∧ DQN.param (target_net w) key ix = Some t
            ∧ v = TAU cfg * p + (1 - TAU cfg) * t)
  ∧ (∀ key ix, is_Some (DQN.param (target_net w) key ix) →
               is_Some (DQN.param (target_net w') key ix))
  ∧ (TAU cfg = 1 → target_net w' = policy_net w')
  ∧ (∃ batch expected,
       policy_net w'
       = (optimizer_step (loss batch expected) (policy_net w) (optimizer w)).1).
Proof.
  intros Hge Hok w'.
  destruct (optimize_model_inv cfg w Hge Hok)
    as (transitions & g' & batch & sav & expected & l & target'
        & _ & _ & _ & _ & _ & Hsoft & Hw).
  subst w'. rewrite Hw. cbn [set_target_net set_policy target_net policy_net].
  destruct (soft_update_params _ _ _ Hsoft) as (Hmix & Hkeep & Hcopy).
  repeat split; try done. by exists batch, expected.
Qed.

End SoftUpdateStep.

(** Scenario 4: with [TAU = 1] a step copies the policy network into the
    target network. *)
Lemma optimize_model_hard_copy :
  let cfg := {| BATCH_SIZE := 2; GAMMA := 0.99; EPS_START := 0.9;
                EPS_END := 0.1; EPS_DECAY := 10000; TAU := 1 |} in
  let w := DQL.example_world DQL.example_memory in
  DQL.target_net (DQL.optimize_model cfg w).2
  = DQL.policy_net (DQL.optimize_model cfg w).2.
Proof.
  intros cfg w.
  destruct (optimize_model_soft_update cfg w) as (_ & _ & Hcopy & _).
  - vm_compute. lia.
  - reflexivity.
  - apply Hcopy. reflexivity.
Defined.

(** ** When the optimisation step raises and when it returns *)

Section StepOutcome.
Import DQL.
Local Open Scope R_scope.
Context `{Framework}.
Variable cfg : Config.
Implicit Types (w : World).

(** X1.  A sampled batch without a single non-final transition makes the
    step raise: [torch.cat] is given an empty list of next states.  Nothing but
    the generator has moved by then. *)
Theorem optimize_model_all_final_raises w transitions g' :
  ¬ (ReplayMemory.len (memory w) < BATCH_SIZE cfg)%nat →
  ReplayMemory.sample (memory w) (BATCH_SIZE cfg) (rng w) = (Ok transitions, g') →
  transitions ≠ [] →
  Forall (λ tr, next_state tr = None) transitions →
  optimize_model cfg w = (Raise RuntimeError, set_rng g' w).
Proof.
  intros Hge Hs Hne Hfinal.
  unfold optimize_model, mbind, M_bind, Py.bind, gets, lift, modify,
    memory_sample, with_rng.
  cbn [fst snd]. rewrite decide_False by done. rewrite Hs.
  assert (Hnone : omap next_state transitions = []).
  { clear -Hfinal. induction Hfinal as [|tr trs Htr _ IH]; [done|].
    cbn. by rewrite Htr. }
  unfold collate. rewrite Hnone. by destruct transitions.
Qed.

End StepOutcome.

(** A buffer holding one final transition, sampled with a batch of one. *)
Lemma optimize_model_all_final_example :
  let cfg := {| BATCH_SIZE := 1; GAMMA := 0.99; EPS_START := 0.9;
                EPS_END := 0.1; EPS_DECAY := 10000; TAU := 0.005 |} in
  let w := DQL.example_world
             (ReplayMemory.push (ReplayMemory.init 10) [0%R] 0 1%R None) in
  (DQL.optimize_model cfg w).1 = Raise RuntimeError.
Proof.
  intros cfg w.
  rewrite (optimize_model_all_final_raises cfg w
             [{| state := [0%R]; action := 0; reward := 1%R; next_state := None |}]
             (Random.randbelow 1 Random.counting).2).
  - reflexivity.
  - vm_compute. lia.
  - reflexivity.
  - done.
  - by repeat constructor.
Defined.

Section StepReturns.
Import DQL.
Local Open Scope R_scope.
Context `{Framework}.
Variable cfg : Config.
Implicit Types (w : World) (net : DQN.t).

Lemma linear_Ok (layer : Linear) (x : list R) (n_in n_out : nat) :
  DQN.layer_shape layer n_in n_out → length x = n_in →
  ∃ y, linear layer x = Ok y ∧ length y = n_out.
Proof.
  intros (Hw & Hb & Hrows) Hx. unfold linear.
  rewrite (mapM_fmap_Ok _ (λ row, sum (zip_with Rmult row x))).
  - cbn [mbind result_bind].
    rewrite zip_strict_same_length by (rewrite length_fmap; lia).
    eexists. split; [done|].
    rewrite length_zip_with, length_fmap, Hw, Hb. apply Nat.min_id.
  - eapply Forall_impl; [exact Hrows|]. intros row Hrow. cbn in Hrow.
    unfold dot. rewrite zip_strict_same_length by lia. done.
Qed.

Lemma forward_Ok net (x : list R) (n_in n_out : nat) :
  DQN.well_shaped net n_in n_out → length x = n_in →
  ∃ q, DQN.forward net x = Ok q ∧ length q = n_out.
Proof.
  intros (h1 & h2 & H1 & H2 & H3) Hx. unfold DQN.forward.
  destruct (linear_Ok _ x _ _ H1 Hx) as (y1 & -> & Hy1). cbn [mbind result_bind].
  destruct (linear_Ok _ (relu y1) _ _ H2) as (y2 & -> & Hy2);
    [unfold relu; by rewrite length_fmap|]. cbn [mbind result_bind].
  apply (linear_Ok _ (relu y2) _ _ H3). unfold relu. by rewrite length_fmap.
Qed.

Lemma call_Ok net (rows : list (list R)) (n_in n_out : nat) :
  DQN.well_shaped net n_in n_out → Forall (λ x, length x = n_in) rows →
  ∃ qs, DQN.call net rows = Ok qs
        ∧ length qs = length rows ∧ Forall (λ q, length q = n_out) qs.
Proof.
  intros Hnet. unfold DQN.call.
  induction 1 as [|x rows Hx _ (qs & IH & Hlen & Hqs)]; cbn.
  - by exists [].
  - destruct (forward_Ok net x _ _ Hnet Hx) as (q & -> & Hq). cbn.
    rewrite IH. cbn. exists (q :: qs). repeat split; cbn; auto.
Qed.

Lemma gather_Ok (qs : list (list R)) (index : list nat) (n : nat) :
  Forall (λ q, length q = n) qs → Forall (λ a, (a < n)%nat) index →
  length qs = length index →
  ∃ v, gather qs index = Ok v ∧ length v = length qs.
Proof.
  unfold gather. intros Hqs. revert index.
  induction Hqs as [|q qs Hq _ IH]; intros [|a index] Hix Hlen; cbn in *; try done.
  - by exists [].
  - apply Forall_cons in Hix as [Ha Hix].
    destruct (lookup_lt_is_Some_2 q a) as [x ->]; [lia|]. cbn.
    destruct (IH index Hix) as (v & -> & Hv); [lia|]. cbn.
    exists (x :: v). cbn. by rewrite Hv.
Qed.

Lemma max_dim1_Ok (qs : list (list R)) (n : nat) :
  (0 < n)%nat → Forall (λ q, length q = n) qs →
  ∃ vi, max_dim1 qs = Ok vi ∧ length vi.1 = length qs.
Proof.
  intros Hn Hqs. unfold max_dim1.
  rewrite (mapM_fmap_Ok _ (λ q, match q with
                                | [] => (0, 0%nat)
                                | x :: q' => max_from x 0 1 q'
                                end)).
  - cbn. eexists. split; [done|]. cbn. by rewrite !length_fmap.
  - eapply Forall_impl; [exact Hqs|]. intros [|x q] Hq; cbn in *; [lia|done].
Qed.

Lemma masked_assign_Ok (trs : list Transition) : ∀ (dst src : list R),
  length dst = length trs → length src = length (omap next_state trs) →
  ∃ out, masked_assign dst
           ((λ tr, bool_decide (next_state tr ≠ None)) <$> trs) src = Ok out
         ∧ length out = length dst.
Proof.
  induction trs as [|tr trs IH]; intros [|d dst] src Hd Hs; cbn in *; try done.
  - destruct src; [by exists []|done].
  - destruct (next_state tr) as [s'|] eqn:Hns.
    + rewrite bool_decide_true by done. destruct src as [|v src]; [done|].
      cbn in Hs. destruct (IH dst src) as (out & -> & Hout); [lia..|].
      cbn. exists (v :: out). cbn. by rewrite Hout.
    + rewrite bool_decide_false by (intros Hne; by apply Hne).
      destruct (IH dst src) as (out & -> & Hout); [lia..|].
      cbn. exists (d :: out). cbn. by rewrite Hout.
Qed.

Lemma zeros_length (n : nat) : length (zeros n) = n.
Proof. apply length_replicate. Qed.

Lemma cat_rows_same_width (ts : list (list R)) (n : nat) :
  ts ≠ [] → Forall (λ r, length r = n) ts → cat_rows ts = Ok ts.
Proof.
  intros Hne Hall. destruct ts as [|r ts]; [done|]. cbn.
  apply Forall_cons in Hall as [Hr Hall].
  rewrite (proj2 (forallb_forall _ _)); [done|].
  intros r' Hin. apply Nat.eqb_eq.
  rewrite Forall_forall in Hall. rewrite Hr. apply Hall.
  by apply list_elem_of_In.
Qed.

Lemma tensor_mix_vector_Ok (a b : R) (u v : list R) :
  length u = length v →
  ∃ l, tensor_add (tensor_scale (Tensor1 u) a) (tensor_scale (Tensor1 v) b)
       = Ok (Tensor1 l) ∧ length l = length v.
Proof.
  intros Hlen. cbn. rewrite zip_strict_same_length by (by rewrite !length_fmap).
  cbn. eexists. split; [done|]. rewrite length_zip_with, !length_fmap. lia.
Qed.

Lemma zip_rows_Ok (m n : list (list R)) :
  widths m = widths n →
  ∃ rows, zip_strictM (zip_strict Rplus) m n = Ok rows ∧ widths rows = widths n.
Proof.
  revert n. induction m as [|r m IH]; intros [|r' n] Hw; cbn in *; try done.
  - by exists [].
  - injection Hw as Hr Hw.
    rewrite zip_strict_same_length by done. cbn.
    destruct (IH n Hw) as (rows & -> & Hrows). cbn.
    eexists. split; [done|]. unfold widths in *. cbn.
    rewrite Hrows, length_zip_with. f_equal. lia.
Qed.

Lemma tensor_mix_matrix_Ok (a b : R) (m n : list (list R)) :
  widths m = widths n →
  ∃ rows, tensor_add (tensor_scale (Tensor2 m) a) (tensor_scale (Tensor2 n) b)
          = Ok (Tensor2 rows) ∧ widths rows = widths n.
Proof.
  intros Hw. cbn.
  destruct (zip_rows_Ok ((λ row : list R, (λ x, x * a) <$> row) <$> m)
              ((λ row : list R, (λ x, x * b) <$> row) <$> n))
    as (rows & -> & Hrows).
  - unfold widths in *. rewrite <- !list_fmap_compose.
    erewrite (list_fmap_ext _ length m), (list_fmap_ext _ length n); [exact Hw|..];
      intros; cbn; by rewrite length_fmap.
  - cbn. exists rows. split; [done|]. rewrite Hrows. unfold widths.
    rewrite <- list_fmap_compose. apply list_fmap_ext.
    intros; cbn; by rewrite length_fmap.
Qed.

(** Two networks of one architecture can be combined. *)
Lemma soft_update_Ok (policy target : DQN.t) :
  DQN.same_shape policy target → ∃ target', soft_update cfg policy target = Ok target'.
Proof.
  intros ((W1 & B1) & (W2 & B2) & (W3 & B3)).
  destruct (tensor_mix_matrix_Ok (TAU cfg) (1 - TAU cfg) _ _ W1) as (m1 & E1 & F1).
  destruct (tensor_mix_vector_Ok (TAU cfg) (1 - TAU cfg) _ _ B1) as (v1 & E2 & F2).
  destruct (tensor_mix_matrix_Ok (TAU cfg) (1 - TAU cfg) _ _ W2) as (m2 & E3 & F3).
  destruct (tensor_mix_vector_Ok (TAU cfg) (1 - TAU cfg) _ _ B2) as (v2 & E4 & F4).
  destruct (tensor_mix_matrix_Ok (TAU cfg) (1 - TAU cfg) _ _ W3) as (m3 & E5 & F5).
  destruct (tensor_mix_vector_Ok (TAU cfg) (1 - TAU cfg) _ _ B3) as (v3 & E6 & F6).
  unfold soft_update.
  Local Opaque tensor_add tensor_scale.
  simpl. rewrite E1. simpl. rewrite E2. simpl. rewrite E3. simpl.
  rewrite E4. simpl. rewrite E5. simpl. rewrite E6. simpl.
  unfold DQN.load_state_dict. simpl. unfold DQN.load_matrix, DQN.load_vector.
  simpl. rewrite !decide_True by done. simpl. by eexists.
Qed.

Local Transparent tensor_add tensor_scale.

Lemma same_shape_trans (a b c : DQN.t) :
  DQN.same_shape a b → DQN.same_shape b c → DQN.same_shape a c.
Proof.
  unfold DQN.same_shape, DQN.same_layer_shape.
  intros ((? & ?) & (? & ?) & (? & ?)) ((? & ?) & (? & ?) & (? & ?)).
  repeat split; congruence.
Qed.

(** X7.  The step returns when the batch is not empty, the networks have
    one architecture that fits the transitions of the buffer, the
    optimiser keeps the shapes of the parameters, and the sampled batch
    has a transition that is not final. *)
Lemma optimize_model_returns w (n_obs n_actions : nat) :
  (0 < BATCH_SIZE cfg)%nat →
  ¬ (ReplayMemory.len (memory w) < BATCH_SIZE cfg)%nat →
  (0 < n_actions)%nat →
  DQN.well_shaped (policy_net w) n_obs n_actions →
  DQN.well_shaped (target_net w) n_obs n_actions →
  DQN.same_shape (policy_net w) (target_net w) →
  (∀ l policy o, DQN.same_shape (optimizer_step l policy o).1 policy) →
  Forall (λ tr, length (state tr) = n_obs ∧ (action tr < n_actions)%nat
                ∧ ∀ s', next_state tr = Some s' → length s' = n_obs)
    (ReplayMemory.contents (memory w)) →
  (∀ transitions g',
     ReplayMemory.sample (memory w) (BATCH_SIZE cfg) (rng w) = (Ok transitions, g') →
     Exists (λ tr, next_state tr ≠ None) transitions) →
  (optimize_model cfg w).1 = Ok tt.
Proof.
  intros Hb Hge Hn Hpol Htar Hsame Hopt Hmem Hnonfinal.
  destruct (sample_positions (ReplayMemory.contents (memory w))
              (BATCH_SIZE cfg) (rng w))
    as (transitions & g' & ixs & Hs & Hlen & _ & Hpos);
    [unfold ReplayMemory.len in Hge; unfold ReplayMemory.contents; lia|].
  assert (Hin : ∀ tr, tr ∈ transitions → tr ∈ ReplayMemory.contents (memory w)).
  { intros tr [i Hi]%list_elem_of_lookup.
    destruct (Forall2_lookup_r _ _ _ _ _ Hpos Hi) as (ix & _ & Hix).
    by eapply list_elem_of_lookup_2. }
  change (Random.sample (ReplayMemory.contents (memory w)) (BATCH_SIZE cfg) (rng w))
    with (ReplayMemory.sample (memory w) (BATCH_SIZE cfg) (rng w)) in Hs.
  specialize (Hnonfinal _ _ Hs).
  assert (Htrs : Forall (λ tr, length (state tr) = n_obs ∧ (action tr < n_actions)%nat
                   ∧ ∀ s', next_state tr = Some s' → length s' = n_obs) transitions).
  { rewrite Forall_forall in Hmem. apply Forall_forall. intros tr Htr.
    by apply Hmem, Hin. }
  assert (Hne : transitions ≠ []) by (intros ->; cbn in Hlen; lia).
  assert (Hnf : omap next_state transitions ≠ []).
  { clear -Hnonfinal. induction Hnonfinal as [tr trs Htr|tr trs _ IH]; cbn.
    - by destruct (next_state tr).
    - by destruct (next_state tr). }
  assert (Hnfw : Forall (λ s', length s' = n_obs) (omap next_state transitions)).
  { clear -Htrs. induction Htrs as [|tr trs (_ & _ & Htr) _ IH]; cbn; [done|].
    destruct (next_state tr) as [s'|]; [|done]. constructor; [by apply Htr|done]. }
  assert (Hsw : Forall (λ s, length s = n_obs) (state <$> transitions)).
  { apply Forall_fmap. eapply Forall_impl; [exact Htrs|]. by intros tr (? & _). }
  assert (Haw : Forall (λ a, (a < n_actions)%nat) (action <$> transitions)).
  { apply Forall_fmap. eapply Forall_impl; [exact Htrs|]. by intros tr (_ & ? & _). }
  unfold optimize_model, mbind, M_bind, Py.bind, gets, lift, modify,
    memory_sample, with_rng.
  cbn [fst snd]. rewrite decide_False by done. rewrite Hs.
  cbn [set_rng policy_net target_net optimizer].
  assert (Hc : collate transitions
               = Ok {| state_batch := state <$> transitions;
                       action_batch := action <$> transitions;
                       reward_batch := (λ tr : Transition, reward tr) <$> transitions;
                       non_final_mask :=
                         (λ tr, bool_decide (next_state tr ≠ None)) <$> transitions;
                       non_final_next_states := omap next_state transitions |}).
  { unfold collate.
    rewrite (cat_rows_same_width _ n_obs Hnf Hnfw).
    rewrite (cat_rows_same_width _ n_obs) by (by destruct transitions).
    by destruct transitions. }
  rewrite Hc.
  unfold state_action_values. cbn [state_batch action_batch].
  destruct (call_Ok _ _ _ _ Hpol Hsw) as (q & -> & Hql & Hqw). cbn [mbind result_bind].
  destruct (gather_Ok q (action <$> transitions) _ Hqw Haw) as (sav & -> & Hsav);
    [by rewrite Hql, !length_fmap|].
  unfold expected_state_action_values.
  cbn [non_final_next_states non_final_mask reward_batch].
  destruct (call_Ok _ _ _ _ Htar Hnfw) as (tq & -> & Htql & Htqw). cbn [mbind result_bind].
  destruct (max_dim1_Ok tq _ Hn Htqw) as (vi & -> & Hvi). cbn [mbind result_bind].
  destruct (masked_assign_Ok transitions (zeros (BATCH_SIZE cfg)) vi.1)
    as (nsv & -> & Hnsv); [by rewrite zeros_length|lia|].
  cbn [mbind result_bind].
  rewrite zip_strict_same_length
    by (rewrite Hnsv, zeros_length, length_fmap; lia).
  unfold SmoothL1Loss.
  rewrite zip_strict_same_length
    by (rewrite Hsav, Hql, length_zip_with, Hnsv, zeros_length, !length_fmap; lia).
  cbn [mbind result_bind set_policy set_rng policy_net target_net fst snd].
  destruct (soft_update_Ok
              (optimizer_step
                 (loss {| state_batch := state <$> transitions;
                          action_batch := action <$> transitions;
                          reward_batch := (λ tr : Transition, reward tr) <$> transitions;
                          non_final_mask :=
                            (λ tr, bool_decide (next_state tr ≠ None)) <$> transitions;
                          non_final_next_states := omap next_state transitions |}
                    (zip_with (λ v r, v * GAMMA cfg + r) nsv
                       ((λ tr : Transition, reward tr) <$> transitions)))
                 (policy_net w) (optimizer w)).1 (target_net w)) as (target' & ->).
  - eapply same_shape_trans; [apply Hopt|exact Hsame].
  - done.
Qed.

End StepReturns.

(** ** The training loop *)

Section LoopFacts.
Import DQL.
Local Open Scope R_scope.
Context `{Framework}.
Variable cfg : Config.
Implicit Types (w : World) (state : list R).

(** [optimize_model] never touches the buffer, whether it returns or
    raises. *)
Lemma optimize_model_memory w : memory (optimize_model cfg w).2 = memory w.
Proof.
  unfold optimize_model, mbind, M_bind, Py.bind, gets, lift, modify,
    memory_sample, with_rng.
  cbn [fst snd]. case_decide; [done|].
  destruct (ReplayMemory.sample _ _ _) as [[transitions|e] g']; [|done].
  cbn [set_rng policy_net target_net optimizer].
  destruct (collate transitions) as [batch|e]; [|done].
  destruct (state_action_values _ batch) as [sav|e]; [|done].
  destruct (expected_state_action_values _ _ batch) as [expected|e]; [|done].
  destruct (SmoothL1Loss sav expected) as [l|e]; [|done].
  cbn [set_policy set_rng policy_net target_net fst snd].
  destruct (soft_update _ _ _) as [target'|e]; done.
Qed.

Lemma select_action_memory state w :
  memory (select_action cfg state w).2 = memory w.
Proof. rewrite select_action_effect. by destruct (Rgt_dec _ _). Qed.

(** C10.  When [select_action] has returned [action] and the environment
    has answered with [r], the iteration pushes the transition whose next
    state is [None] exactly when [r] reports termination.  Without
    termination, truncated or not, the transition keeps the observation as
    its next state, and in any batch that contains it the optimisation
    step gives it the reward plus the discounted best value of that
    observation. *)
Theorem training_step_stores_next_state state w action w1 :
  select_action cfg state w = (Ok action, w1) →
  let r := (env_step action (env w1)).1 in
  let tr := {| state := state; action := action; reward := Gym.reward r;
               next_state := observed_next_state r |} in
  memory (training_step cfg state w).2
  = ReplayMemory.push (memory w) state action (Gym.reward r) (next_state tr)
  ∧ (next_state tr = None ↔ Gym.terminated r = true)
  ∧ (Gym.terminated r = false →
       next_state tr = Some (Gym.observation r)
       ∧ ∀ target transitions batch expected i,
           transitions !! i = Some tr →
           collate transitions = Ok batch →
           expected_state_action_values cfg target batch = Ok expected →
           ∃ q m, DQN.forward target (Gym.observation r) = Ok q
                  ∧ is_max q m
                  ∧ expected !! i = Some (Gym.reward r + GAMMA cfg * m)).
Proof.
  intros Hsel r tr.
  pose proof (select_action_memory state w) as Hmem. rewrite Hsel in Hmem.
  cbn [snd] in Hmem.
  split; [|split].
  - unfold training_step, mbind, M_bind, Py.bind. rewrite Hsel.
    unfold with_env. fold r.
    destruct (env_step action (env w1)) as [r' e'] eqn:Hstep.
    assert (Hr : r' = r) by reflexivity. rewrite Hr. clear Hr Hstep.
    unfold memory_push, modify.
    match goal with
    | |- context [optimize_model cfg ?w2] =>
        pose proof (optimize_model_memory w2) as Hopt;
        destruct (optimize_model cfg w2) as [[[]|e] w3]
    end; cbn [fst snd] in *; unfold mret, M_ret, Py.ret; cbn [fst snd];
      rewrite Hopt; cbn; by rewrite Hmem.
  - cbn [next_state tr]. unfold observed_next_state.
    destruct (Gym.terminated r); split; done.
  - intros Hterm.
    assert (Hnext : next_state tr = Some (Gym.observation r))
      by (cbn; unfold observed_next_state; by rewrite Hterm).
    split; [done|].
    intros target transitions batch expected i Hi Hc He.
    pose proof (expected_values_are_targets cfg _ _ _ _ Hc He) as Hall.
    destruct (Forall2_lookup_l _ _ _ _ _ Hall Hi) as (v & Hv & Htd).
    unfold td_target in Htd. rewrite Hnext in Htd.
    destruct Htd as (q & m & Hq & Hm & ->). by exists q, m.
Qed.

End LoopFacts.

(** An iteration whose step ends the episode by truncation only: the
    stored transition keeps the observation. *)
Lemma training_step_truncated_example :
  ReplayMemory.contents
    (DQL.memory (DQL.training_step hyperparameters [0%R]
                   (DQL.example_world (ReplayMemory.init 10))).2)
  = [{| state := [0%R]; action := 0; reward := 1%R; next_state := Some [1%R] |}].
Proof.
  assert (Hsel : DQL.select_action hyperparameters [0%R]
                   (DQL.example_world (ReplayMemory.init 10))
                 = (Ok 0, DQL.set_steps_done 1
                            (DQL.set_rng (Random.random Random.counting).2
                               (DQL.example_world (ReplayMemory.init 10))))).
  { rewrite select_action_effect. destruct (Rgt_dec _ _) as [Hgt|_]; [|done].
    exfalso. revert Hgt. cbn -[exp]. unfold DQL.eps_threshold. cbn -[exp].
    change (Z.of_nat 0 `mod` 9007199254740992)%Z with 0%Z.
    pose proof (exp_pos (-1 * 0 / 10000)). lra. }
  destruct (training_step_stores_next_state hyperparameters _ _ _ _ Hsel)
    as (Hpush & _).
  rewrite Hpush. reflexivity.
Defined.

(** ** The hinge loss of the support-vector machine *)

Section HingeFacts.
Import SVM.
Local Open Scope R_scope.

(** The model [nn.Linear(k, 1)] maps a sample of [k] features to the one
    prediction [f w b x]. *)
Lemma linear_one_output (w : list R) (b : R) (x : list R) :
  length x = length w →
  linear {| weight := [w]; bias := [b] |} x = Ok [f w b x].
Proof.
  intros Hlen. unfold linear, dot. cbn.
  rewrite zip_strict_same_length by done. reflexivity.
Qed.

(** Transposing a column gives the row of its entries. *)
Lemma t_column (fs : list R) :
  t ((λ v, [v]) <$> fs) = match fs with [] => [] | _ => [fs] end.
Proof.
  induction fs as [|a fs IH]; [done|].
  cbn [fmap list_fmap t]. destruct fs as [|a' fs]; [done|].
  change (((λ v, [v]) <$> a' :: fs)) with ([a'] :: ((λ v, [v]) <$> fs)).
  change ((λ v, [v]) <$> a' :: fs) with ([a'] :: ((λ v, [v]) <$> fs)) in IH.
  rewrite IH. reflexivity.
Qed.

Lemma broadcast_mul_same_length (u v : list R) :
  length u = length v → broadcast_mul u v = Ok (zip_with Rmult u v).
Proof.
  intros Hlen. destruct u as [|a [|a' u]], v as [|c [|c' v]]; try done.
  unfold broadcast_mul. by apply zip_strict_same_length.
Qed.

Lemma sum_hinge (batch : list Sample) (w : list R) (b : R) :
  sum ((λ z, Rmax (1 - z) 0)
         <$> zip_with Rmult ((λ p : Sample, f w b p.1) <$> batch) (batch_y batch))
  = sum ((λ p : Sample, hinge (IZR p.2) (f w b p.1)) <$> batch).
Proof.
  unfold sum, batch_y.
  induction batch as [|p batch IH]; [done|]. cbn. f_equal; [|exact IH].
  unfold hinge. by rewrite Rmax_comm, (Rmult_comm (IZR p.2)).
Qed.

(** A batch of the loader is made of samples of the list it is fed with. *)
Lemma batches_elem {A} (n : nat) (l : list A) : ∀ acc batch x,
  batch ∈ batches n l acc → x ∈ batch → x ∈ l ∨ x ∈ acc.
Proof.
  induction l as [|y l IH]; intros acc batch x; cbn [batches].
  - destruct acc as [|a acc]; [by intros ?%elem_of_nil|].
    intros ->%list_elem_of_singleton Hx. rewrite elem_of_reverse in Hx. by right.
  - case_decide.
    + intros [->|Hin]%elem_of_cons Hx.
      * rewrite elem_of_reverse, elem_of_cons in Hx.
        destruct Hx as [->|Hx]; [left; apply list_elem_of_here|by right].
      * destruct (IH [] batch x Hin Hx) as [?|?%elem_of_nil]; [|done].
        left. by apply list_elem_of_further.
    + intros Hin Hx. destruct (IH (y :: acc) batch x Hin Hx) as [?|Hacc].
      * left. by apply list_elem_of_further.
      * apply elem_of_cons in Hacc as [->|?];
          [left; apply list_elem_of_here|by right].
Qed.

Lemma preprocess_labels (D : list Sample) (p : Sample) :
  p ∈ preprocess D → p.2 = (-1)%Z ∨ p.2 = 1%Z.
Proof.
  unfold preprocess.
  intros (q & -> & (q' & -> & _)%list_elem_of_fmap)%list_elem_of_fmap.
  cbn. case_decide; [by left|by right].
Qed.

(** C9.  For a batch [X, y] of the training loader whose samples have as
    many features as the model [nn.Linear(k, 1)] has weights, the loss of
    the batch is the sum over its samples of [max(0, 1 - y * f(x))], [f(x)]
    being the prediction [w · x + b] of the model; every label [y] is -1
    or +1. *)
Theorem batch_loss_is_hinge_sum (w : list R) (b : R) (D batch : list Sample) :
  batch ∈ trainLoader D →
  Forall (λ p : Sample, length p.1 = length w) batch →
  batch_loss {| weight := [w]; bias := [b] |} (batch_X batch) (batch_y batch)
  = Ok (sum ((λ p : Sample, hinge (IZR p.2) (f w b p.1)) <$> batch))
  ∧ Forall (λ p : Sample, p.2 = (-1)%Z ∨ p.2 = 1%Z) batch.
Proof.
  intros Hbatch Hshape. split.
  - unfold batch_loss.
    rewrite (mapM_fmap_Ok _ (λ x, [f w b x])); cycle 1.
    { unfold batch_X. apply Forall_fmap.
      eapply Forall_impl; [exact Hshape|].
      intros p Hp. by apply linear_one_output. }
    cbn [mbind result_bind].
    unfold batch_X. rewrite <- list_fmap_compose.
    rewrite (list_fmap_compose (λ p : Sample, f w b p.1) (λ v, [v])), t_column.
    destruct batch as [|p batch]; [done|].
    set (fs := (λ p0 : Sample, f w b p0.1) <$> p :: batch).
    assert (Hfs : fs = f w b p.1 :: ((λ p0 : Sample, f w b p0.1) <$> batch))
      by reflexivity.
    rewrite Hfs at 1. unfold mul_rows. cbn [mapM].
    rewrite broadcast_mul_same_length
      by (unfold fs, batch_y; by rewrite !length_fmap).
    cbn [mbind result_bind mret result_ret].
    unfold sum2, clamp_min, rsub. cbn [fmap list_fmap sum foldr].
    rewrite Rplus_0_r. rewrite <- list_fmap_compose.
    apply f_equal. unfold fs. apply sum_hinge.
  - apply Forall_forall. intros p Hp.
    apply (preprocess_labels D).
    destruct (batches_elem _ _ _ _ _ Hbatch Hp) as [?|?%elem_of_nil]; done.
Qed.

End HingeFacts.

(** A dataset of three samples, of which the digit 7 is dropped: the one
    batch has the labels -1 and +1 and the loss is the sum of two hinge
    terms. *)
Lemma batch_loss_example :
  let D : list SVM.Sample :=
    [([1%R; 2%R], 0%Z); ([3%R; 4%R], 1%Z); ([0%R; 0%R], 7%Z)] in
  let batch : list SVM.Sample :=
    [([((1 - 0) / 1)%R; ((2 - 0) / 1)%R], (-1)%Z);
     ([((3 - 0) / 1)%R; ((4 - 0) / 1)%R], 1%Z)] in
  SVM.batch_loss {| weight := [[1%R; 1%R]]; bias := [0%R] |}
    (SVM.batch_X batch) (SVM.batch_y batch)
  = Ok (Torch.sum ((λ p : SVM.Sample,
                      SVM.hinge (IZR p.2) (SVM.f [1%R; 1%R] 0%R p.1)) <$> batch))
  ∧ Forall (λ p : SVM.Sample, p.2 = (-1)%Z ∨ p.2 = 1%Z) batch.
Proof.
  intros D batch.
  apply (batch_loss_is_hinge_sum [1%R; 1%R] 0%R D batch).
  - apply list_elem_of_here.
  - repeat constructor.
Defined.

(** ** More on the replay memory *)

Section ReplayMore.
Import ReplayMemory.
Implicit Types (self : ReplayMemory.t) (tr : Transition) (g : Random.Rng).

(** X2.  In every run of pushes and samples on a new buffer, a push grows
    the buffer by one item up to the capacity; below the capacity it evicts
    nothing; the transition pushed is the newest item of the buffer
    whenever the capacity is not zero, and a buffer of capacity zero stays
    empty. *)
Theorem push_grows_to_capacity (capacity : nat) (ops : list op) g tr :
  let self := (run ops (init capacity, g)).1 in
  len (push_transition self tr) = (len self + 1) `min` capacity
  ∧ (len self < capacity → contents (push_transition self tr) = contents self ++ [tr])
  ∧ (0 < capacity → last (contents (push_transition self tr)) = Some tr)
  ∧ (capacity = 0 → contents (push_transition self tr) = []).
Proof.
  intros self.
  destruct (run_contents ops (init capacity, g) [] (init_contents _))
    as [Hc Hcap].
  fold self in Hc, Hcap.
  change (ReplayMemory.capacity (init capacity, g).1) with capacity in Hc, Hcap.
  change ([] ++ pushed ops) with (pushed ops) in Hc.
  assert (Hlen : len self = length (pushed ops) `min` capacity).
  { unfold len. fold (contents self). rewrite Hc. apply most_recent_length. }
  assert (Hpush : contents (push_transition self tr)
                  = if decide (capacity < len self + 1)
                    then tail (contents self ++ [tr]) else contents self ++ [tr]).
  { rewrite push_transition_eq. unfold contents, len.
    cbn [memory Deque.append Deque.items].
    unfold ReplayMemory.capacity in Hcap. rewrite Hcap, length_app. done. }
  assert (Hcl : length (contents self) = len self) by done.
  repeat split.
  - unfold len at 1. fold (contents (push_transition self tr)). rewrite Hpush.
    case_decide.
    + destruct (contents self); cbn in *; [lia|]. rewrite length_app. cbn. lia.
    + rewrite length_app. cbn. lia.
  - intros Hlt. rewrite Hpush. by rewrite decide_False by lia.
  - intros Hpos. rewrite Hpush. case_decide.
    + destruct (contents self) as [|old rest]; cbn in *; [lia|].
      apply last_snoc.
    + apply last_snoc.
  - intros ->. rewrite Hpush. rewrite decide_True by lia.
    destruct (contents self); cbn in *; [done|lia].
Qed.

(** X3.  With [b] at most the size of the buffer, the transitions
    [sample(b)] returns are part of the buffer counted with multiplicity:
    together with some rest they are a rearrangement of the contents.  A
    sample of the whole buffer is a rearrangement of it. *)
Theorem sample_is_part_of_buffer self g (b : nat) :
  b ≤ len self →
  ∃ batch g' rest,
    sample self b g = (Ok batch, g')
    ∧ batch ++ rest ≡ₚ contents self
    ∧ length rest = len self - b
    ∧ (b = len self → batch ≡ₚ contents self).
Proof.
  intros Hb. unfold sample, Random.sample. fold (contents self).
  change (length (contents self)) with (len self).
  rewrite decide_True by done.
  destruct (sample_pool_selects b (len self) (contents self) g Hb)
    as (batch & g' & rest & Hs & Hl & Hp); [done|].
  rewrite take_ge in Hp by done.
  assert (Hrest : length rest = len self - b).
  { apply Permutation_length in Hp. rewrite length_app in Hp.
    change (length (contents self)) with (len self) in Hp. lia. }
  exists batch, g', rest. repeat split; try done.
  intros ->. destruct rest; [|cbn in Hrest; lia]. by rewrite app_nil_r in Hp.
Qed.

End ReplayMore.

Lemma sample_whole_buffer :
  ∃ batch g' rest,
    ReplayMemory.sample DQL.example_memory 2 Random.counting = (Ok batch, g')
    ∧ batch ++ rest ≡ₚ ReplayMemory.contents DQL.example_memory
    ∧ length rest = ReplayMemory.len DQL.example_memory - 2
    ∧ (2 = ReplayMemory.len DQL.example_memory →
       batch ≡ₚ ReplayMemory.contents DQL.example_memory).
Proof. apply sample_is_part_of_buffer. vm_compute. lia. Defined.


(** ** Which exceptions the optimisation step can raise *)

Section Exceptions.
Import DQL.
Local Open Scope R_scope.

Lemma mapM_Raise {A B} (h : A → result B) (l : list A) (e : exn) :
  mapM h l = Raise e → ∃ x, x ∈ l ∧ h x = Raise e.
Proof.
  induction l as [|x l IH]; cbn; [done|].
  destruct (h x) as [y|e'] eqn:Hx; cbn.
  - destruct (mapM h l) as [k|e']; cbn; [done|].
    intros [= ->]. destruct IH as (x' & Hin & Hx'); [done|].
    exists x'. split; [by apply list_elem_of_further|done].
  - intros [= ->]. exists x. split; [apply list_elem_of_here|done].
Qed.

Lemma zip_strict_Raise {A B C} (h : A → B → C) (u : list A) (v : list B) (e : exn) :
  zip_strict h u v = Raise e → e = RuntimeError.
Proof.
  revert v. induction u as [|a u IH]; intros [|b v]; cbn; try by intros [= <-].
  destruct (zip_strict h u v) eqn:Hz; cbn; [done|].
  intros [= <-]. by eapply IH.
Qed.

Lemma zip_strictM_Raise {A B C} (h : A → B → result C) (u : list A) (v : list B)
    (e : exn) :
  zip_strictM h u v = Raise e →
  e = RuntimeError ∨ ∃ a b, h a b = Raise e.
Proof.
  revert v. induction u as [|a u IH]; intros [|b v]; cbn;
    try by (intros [= <-]; left).
  destruct (h a b) as [c|e'] eqn:Hab; cbn.
  - destruct (zip_strictM h u v) eqn:Hz; cbn; [done|].
    intros [= <-]. by eapply IH.
  - intros [= ->]. right. by exists a, b.
Qed.

Lemma linear_Raise (layer : Linear) (x : list R) (e : exn) :
  linear layer x = Raise e → e = RuntimeError.
Proof.
  unfold linear.
  destruct (mapM _ (weight layer)) as [wx|e'] eqn:Hwx; cbn.
  - apply zip_strict_Raise.
  - intros [= ->]. apply mapM_Raise in Hwx as (row & _ & Hrow).
    unfold dot in Hrow.
    destruct (zip_strict Rmult row x) eqn:Hz; [done|].
    injection Hrow as <-. by eapply zip_strict_Raise.
Qed.

Lemma forward_Raise (net : DQN.t) (x : list R) (e : exn) :
  DQN.forward net x = Raise e → e = RuntimeError.
Proof.
  unfold DQN.forward.
  destruct (linear (DQN.layer1 net) x) as [y1|e1] eqn:H1; cbn;
    [|intros [= <-]; by eapply linear_Raise].
  destruct (linear (DQN.layer2 net) (relu y1)) as [y2|e2] eqn:H2; cbn;
    [|intros [= <-]; by eapply linear_Raise].
  apply linear_Raise.
Qed.

Lemma call_Raise (net : DQN.t) (rows : list (list R)) (e : exn) :
  DQN.call net rows = Raise e → e = RuntimeError.
Proof.
  intros (x & _ & Hx)%mapM_Raise. by eapply forward_Raise.
Qed.

Lemma cat_rows_Raise (ts : list (list R)) (e : exn) :
  cat_rows ts = Raise e → e = RuntimeError.
Proof.
  destruct ts as [|r ts]; cbn; [by intros [= <-]|].
  destruct (forallb _ ts); [done|by intros [= <-]].
Qed.

Lemma cat_Raise {A} (ts : list A) (e : exn) : cat ts = Raise e → e = RuntimeError.
Proof. destruct ts; cbn; [by intros [= <-]|done]. Qed.

(** [collate] raises [TypeError] on the empty batch only. *)
Lemma collate_Raise (transitions : list Transition) (e : exn) :
  collate transitions = Raise e →
  e = RuntimeError ∨ (e = TypeError ∧ transitions = []).
Proof.
  unfold collate. destruct transitions as [|tr trs] eqn:Htrs;
    [intros [= <-]; by right|].
  rewrite <- Htrs. clear Htrs. intros Hc. left. revert Hc.
  destruct (cat_rows (omap next_state transitions)) eqn:Hn; cbn;
    [|intros [= <-]; by eapply cat_rows_Raise].
  destruct (cat_rows (state <$> transitions)) eqn:Hs; cbn;
    [|intros [= <-]; by eapply cat_rows_Raise].
  destruct (cat (action <$> transitions)) eqn:Ha; cbn;
    [|intros [= <-]; by eapply cat_Raise].
  destruct (cat ((λ tr, reward tr) <$> transitions)) eqn:Hr; cbn;
    [done|intros [= <-]; by eapply cat_Raise].
Qed.

Lemma state_action_values_Raise (policy : DQN.t) (batch : Batch) (e : exn) :
  state_action_values policy batch = Raise e → e = RuntimeError.
Proof.
  unfold state_action_values.
  destruct (DQN.call policy _) as [q|e'] eqn:Hq; cbn;
    [|intros [= <-]; by eapply call_Raise].
  unfold gather. intros [->|(row & a & Hra)]%zip_strictM_Raise; [done|].
  destruct (row !! a); [done|]. by injection Hra as <-.
Qed.

Lemma masked_assign_Raise (dst : list R) (mask : list bool) (src : list R) (e : exn) :
  masked_assign dst mask src = Raise e → e = RuntimeError ∨ e = IndexError.
Proof.
  revert mask src. induction dst as [|d dst IH]; intros [|b mask] src; cbn;
    try by (intros [= <-]; right).
  - destruct src; [done|intros [= <-]; by left].
  - destruct b.
    + destruct src as [|v src]; [intros [= <-]; by left|].
      destruct (masked_assign dst mask src) eqn:Hm; cbn; [done|].
      intros [= <-]. by eapply IH.
    + destruct (masked_assign dst mask src) eqn:Hm; cbn; [done|].
      intros [= <-]. by eapply IH.
Qed.

Lemma expected_state_action_values_Raise cfg (target : DQN.t) (batch : Batch)
    (e : exn) :
  expected_state_action_values cfg target batch = Raise e →
  e = RuntimeError ∨ e = IndexError.
Proof.
  unfold expected_state_action_values.
  destruct (DQN.call target _) as [q|e'] eqn:Hq; cbn;
    [|intros [= <-]; left; by eapply call_Raise].
  unfold max_dim1.
  destruct (mapM row_max q) as [vi|e'] eqn:Hvi; cbn.
  - destruct (masked_assign _ _ _) as [nsv|e'] eqn:Hm; cbn;
      [|intros [= <-]; by eapply masked_assign_Raise].
    intros ->%zip_strict_Raise. by left.
  - intros [= <-]. apply mapM_Raise in Hvi as (row & _ & Hrow).
    destruct row; [|done]. injection Hrow as <-. by right.
Qed.

Lemma SmoothL1Loss_Raise (input target : list R) (e : exn) :
  SmoothL1Loss input target = Raise e → e = RuntimeError.
Proof.
  unfold SmoothL1Loss.
  destruct (zip_strict smooth_l1 input target) eqn:Hz; cbn; [done|].
  intros [= <-]. by eapply zip_strict_Raise.
Qed.

Lemma tensor_add_Raise (a b : Tensor) (e : exn) :
  tensor_add a b = Raise e → e = RuntimeError.
Proof.
  destruct a as [u|m], b as [v|n]; cbn; try by intros [= <-].
  - destruct (zip_strict Rplus u v) eqn:Hz; cbn; [done|].
    intros [= <-]. by eapply zip_strict_Raise.
  - destruct (zip_strictM (zip_strict Rplus) m n) eqn:Hz; cbn; [done|].
    intros [= <-]. apply zip_strictM_Raise in Hz as [->|(r1 & r2 & Hr)]; [done|].
    by eapply zip_strict_Raise.
Qed.

Local Opaque tensor_add tensor_scale.

(** The keys the soft update looks up are the keys both state
    dictionaries have: it raises for a shape mismatch only. *)
Lemma soft_update_Raise cfg (policy target : DQN.t) (e : exn) :
  soft_update cfg policy target = Raise e → e = RuntimeError.
Proof.
  unfold soft_update. intros Hsoft. simpl in Hsoft.
  destruct (tensor_add (tensor_scale (Tensor2 (weight (DQN.layer1 policy))) _) _)
    as [N1|] eqn:H1; [|injection Hsoft as <-; by eapply tensor_add_Raise].
  destruct (tensor_add (tensor_scale (Tensor1 (bias (DQN.layer1 policy))) _) _)
    as [N2|] eqn:H2; [|injection Hsoft as <-; by eapply tensor_add_Raise].
  destruct (tensor_add (tensor_scale (Tensor2 (weight (DQN.layer2 policy))) _) _)
    as [N3|] eqn:H3; [|injection Hsoft as <-; by eapply tensor_add_Raise].
  destruct (tensor_add (tensor_scale (Tensor1 (bias (DQN.layer2 policy))) _) _)
    as [N4|] eqn:H4; [|injection Hsoft as <-; by eapply tensor_add_Raise].
  destruct (tensor_add (tensor_scale (Tensor2 (weight (DQN.layer3 policy))) _) _)
    as [N5|] eqn:H5; [|injection Hsoft as <-; by eapply tensor_add_Raise].
  destruct (tensor_add (tensor_scale (Tensor1 (bias (DQN.layer3 policy))) _) _)
    as [N6|] eqn:H6; [|injection Hsoft as <-; by eapply tensor_add_Raise].
  simpl in Hsoft. unfold DQN.load_state_dict in Hsoft.
  simpl in Hsoft. unfold DQN.load_matrix, DQN.load_vector in Hsoft.
  simpl in Hsoft.
  destruct N1 as [?|m1]; [by injection Hsoft as <-|].
  destruct (decide (widths m1 = _)); [|by injection Hsoft as <-].
  simpl in Hsoft.
  destruct N2 as [v1|?]; [|by injection Hsoft as <-].
  destruct (decide (length v1 = _)); [|by injection Hsoft as <-].
  simpl in Hsoft.
  destruct N3 as [?|m2]; [by injection Hsoft as <-|].
  destruct (decide (widths m2 = _)); [|by injection Hsoft as <-].
  simpl in Hsoft.
  destruct N4 as [v2|?]; [|by injection Hsoft as <-].
  destruct (decide (length v2 = _)); [|by injection Hsoft as <-].
  simpl in Hsoft.
  destruct N5 as [?|m3]; [by injection Hsoft as <-|].
  destruct (decide (widths m3 = _)); [|by injection Hsoft as <-].
  simpl in Hsoft.
  destruct N6 as [v3|?]; [|by injection Hsoft as <-].
  destruct (decide (length v3 = _)); [|by injection Hsoft as <-].
  simpl in Hsoft. done.
Qed.

(** A soft update that returns has kept the shapes of the target
    network. *)
Lemma soft_update_same_shape cfg (policy target target' : DQN.t) :
  soft_update cfg policy target = Ok target' → DQN.same_shape target' target.
Proof.
  unfold soft_update. intros Hsoft. simpl in Hsoft.
  destruct (tensor_add (tensor_scale (Tensor2 (weight (DQN.layer1 policy))) _) _)
    as [N1|] eqn:H1; [|done].
  destruct (tensor_add (tensor_scale (Tensor1 (bias (DQN.layer1 policy))) _) _)
    as [N2|] eqn:H2; [|done].
  destruct (tensor_add (tensor_scale (Tensor2 (weight (DQN.layer2 policy))) _) _)
    as [N3|] eqn:H3; [|done].
  destruct (tensor_add (tensor_scale (Tensor1 (bias (DQN.layer2 policy))) _) _)
    as [N4|] eqn:H4; [|done].
  destruct (tensor_add (tensor_scale (Tensor2 (weight (DQN.layer3 policy))) _) _)
    as [N5|] eqn:H5; [|done].
  destruct (tensor_add (tensor_scale (Tensor1 (bias (DQN.layer3 policy))) _) _)
    as [N6|] eqn:H6; [|done].
  simpl in Hsoft. unfold DQN.load_state_dict in Hsoft.
  simpl in Hsoft. unfold DQN.load_matrix, DQN.load_vector in Hsoft.
  simpl in Hsoft.
  destruct N1 as [?|m1]; [done|]. destruct (decide (widths m1 = _)); [|done].
  simpl in Hsoft.
  destruct N2 as [v1|?]; [|done]. destruct (decide (length v1 = _)); [|done].
  simpl in Hsoft.
  destruct N3 as [?|m2]; [done|]. destruct (decide (widths m2 = _)); [|done].
  simpl in Hsoft.
  destruct N4 as [v2|?]; [|done]. destruct (decide (length v2 = _)); [|done].
  simpl in Hsoft.
  destruct N5 as [?|m3]; [done|]. destruct (decide (widths m3 = _)); [|done].
  simpl in Hsoft.
  destruct N6 as [v3|?]; [|done]. destruct (decide (length v3 = _)); [|done].
  simpl in Hsoft. injection Hsoft as <-.
  by repeat split.
Qed.

Local Transparent tensor_add tensor_scale.

End Exceptions.

Section StepMore.
Import DQL.
Local Open Scope R_scope.
Context `{Framework}.
Variable cfg : Config.
Implicit Types (w : World).

(** The outcome and the state of a step that passes the gate, stage by
    stage. *)
Lemma optimize_model_stages w :
  ¬ (ReplayMemory.len (memory w) < BATCH_SIZE cfg)%nat →
  ∃ transitions g',
    ReplayMemory.sample (memory w) (BATCH_SIZE cfg) (rng w) = (Ok transitions, g')
    ∧ length transitions = BATCH_SIZE cfg
    ∧ ((∃ e, optimize_model cfg w = (Raise e, set_rng g' w)
             ∧ (e = RuntimeError ∨ e = IndexError
                ∨ (e = TypeError ∧ BATCH_SIZE cfg = 0%nat)))
       ∨ (∃ batch expected,
            collate transitions = Ok batch
            ∧ expected_state_action_values cfg (target_net w) batch = Ok expected
            ∧ let w1 := set_policy
                          (optimizer_step (loss batch expected) (policy_net w)
                             (optimizer w)) (set_rng g' w) in
              optimize_model cfg w = (Raise RuntimeError, w1)
              ∨ ∃ target',
                  soft_update cfg (policy_net w1) (target_net w) = Ok target'
                  ∧ optimize_model cfg w = (Ok tt, set_target_net target' w1))).
Proof.
  intros Hge.
  destruct (sample_positions (ReplayMemory.contents (memory w))
              (BATCH_SIZE cfg) (rng w))
    as (transitions & g' & ixs & Hs & Hlen & _ & _);
    [unfold ReplayMemory.len in Hge; unfold ReplayMemory.contents; lia|].
  change (Random.sample (ReplayMemory.contents (memory w)) (BATCH_SIZE cfg) (rng w))
    with (ReplayMemory.sample (memory w) (BATCH_SIZE cfg) (rng w)) in Hs.
  exists transitions, g'. split; [done|]. split; [done|].
  unfold optimize_model, mbind, M_bind, Py.bind, gets, lift, modify,
    memory_sample, with_rng.
  cbn [fst snd]. rewrite decide_False by done. rewrite Hs.
  cbn [set_rng policy_net target_net optimizer].
  destruct (collate transitions) as [batch|e] eqn:Hc.
  2:{ left. exists e. split; [done|].
      apply collate_Raise in Hc as [->|(-> & ->)]; [by left|].
      right. right. cbn in Hlen. done. }
  destruct (state_action_values _ batch) as [sav|e] eqn:Hsav.
  2:{ left. exists e. split; [done|].
      left. by eapply state_action_values_Raise. }
  destruct (expected_state_action_values _ _ batch) as [expected|e] eqn:He.
  2:{ left. exists e. split; [done|].
      apply expected_state_action_values_Raise in He as [-> | ->]; auto. }
  destruct (SmoothL1Loss sav expected) as [l|e] eqn:Hl.
  2:{ left. exists e. split; [done|]. left. by eapply SmoothL1Loss_Raise. }
  right. exists batch, expected. split; [done|]. split; [done|].
  cbn [set_policy set_rng policy_net target_net fst snd].
  destruct (soft_update _ _ _) as [target'|e] eqn:Hsoft.
  - right. by exists target'.
  - left. apply soft_update_Raise in Hsoft as ->. done.
Qed.

End StepMore.

Section ShapeFacts.
Import DQL.

Lemma same_shape_refl (a : DQN.t) : DQN.same_shape a a.
Proof. by repeat split. Qed.

Lemma same_shape_sym (a b : DQN.t) : DQN.same_shape a b → DQN.same_shape b a.
Proof.
  unfold DQN.same_shape, DQN.same_layer_shape.
  intros ((? & ?) & (? & ?) & (? & ?)). by repeat split.
Qed.

Lemma layer_shape_same (a b : Linear) (n_in n_out : nat) :
  DQN.same_layer_shape a b → DQN.layer_shape b n_in n_out →
  DQN.layer_shape a n_in n_out.
Proof.
  intros [Hw Hb] (Hrows & Hbias & Hwidth). unfold DQN.layer_shape.
  assert (Hlen : length (weight a) = length (weight b)).
  { apply (f_equal length) in Hw. unfold widths in Hw.
    by rewrite !length_fmap in Hw. }
  split; [lia|]. split; [lia|].
  assert (Hall : Forall (λ k, k = n_in) (widths (weight a))).
  { rewrite Hw. unfold widths. by apply Forall_fmap. }
  unfold widths in Hall. by apply Forall_fmap in Hall.
Qed.

Lemma well_shaped_same (a b : DQN.t) (n_in n_out : nat) :
  DQN.same_shape a b → DQN.well_shaped b n_in n_out → DQN.well_shaped a n_in n_out.
Proof.
  intros (S1 & S2 & S3) (h1 & h2 & L1 & L2 & L3). exists h1, h2.
  repeat split; eapply layer_shape_same; eauto.
Qed.

End ShapeFacts.

Section StepEffects.
Import DQL.
Local Open Scope R_scope.
Context `{Framework}.
Variable cfg : Config.
Implicit Types (w : World).

Lemma optimize_model_skips w :
  (ReplayMemory.len (memory w) < BATCH_SIZE cfg)%nat →
  optimize_model cfg w = (Ok tt, w).
Proof.
  intros Hlt. unfold optimize_model, mbind, M_bind, Py.bind, gets. cbn.
  by rewrite decide_True.
Qed.

(** What no call of [optimize_model] touches, whether it returns or
    raises. *)
Lemma optimize_model_untouched w :
  steps_done (optimize_model cfg w).2 = steps_done w
  ∧ memory (optimize_model cfg w).2 = memory w
  ∧ env (optimize_model cfg w).2 = env w.
Proof.
  destruct (decide (ReplayMemory.len (memory w) < BATCH_SIZE cfg)%nat) as [Hlt|Hge].
  { by rewrite optimize_model_skips by done. }
  destruct (optimize_model_stages cfg w Hge)
    as (transitions & g' & Hs & _
        & [(e & Hw & _)|(batch & expected & _ & _ & [Hw|(t' & _ & Hw)])]);
    by rewrite Hw.
Qed.

(** With an optimiser that keeps the shapes of the parameters, so does a
    call of [optimize_model]. *)
Lemma optimize_model_same_shape w :
  (∀ l policy o, DQN.same_shape (optimizer_step l policy o).1 policy) →
  DQN.same_shape (policy_net (optimize_model cfg w).2) (policy_net w)
  ∧ DQN.same_shape (target_net (optimize_model cfg w).2) (target_net w).
Proof.
  intros Hopt.
  destruct (decide (ReplayMemory.len (memory w) < BATCH_SIZE cfg)%nat) as [Hlt|Hge].
  { rewrite optimize_model_skips by done. split; apply same_shape_refl. }
  destruct (optimize_model_stages cfg w Hge)
    as (transitions & g' & Hs & _
        & [(e & Hw & _)|(batch & expected & _ & _ & [Hw|(t' & Hsoft & Hw)])]);
    rewrite Hw; cbn [snd set_target_net set_policy set_rng policy_net target_net].
  - split; apply same_shape_refl.
  - split; [apply Hopt|apply same_shape_refl].
  - split; [apply Hopt|]. by eapply soft_update_same_shape.
Qed.

(** X4.  With a batch size that is not negative (a natural number, as
    [BATCH_SIZE] is here), [optimize_model] never raises [ValueError] (it
    samples only when the buffer holds a batch) nor [KeyError] (the soft
    update looks up the keys both state dictionaries have), and it raises
    [TypeError] exactly when the batch size is zero: the empty batch passes
    the size gate and cannot be transposed. *)
Theorem optimize_model_exceptions w :
  (optimize_model cfg w).1 ≠ Raise ValueError
  ∧ (optimize_model cfg w).1 ≠ Raise KeyError
  ∧ ((optimize_model cfg w).1 = Raise TypeError ↔ BATCH_SIZE cfg = 0%nat).
Proof.
  destruct (decide (ReplayMemory.len (memory w) < BATCH_SIZE cfg)%nat) as [Hlt|Hge].
  { rewrite optimize_model_skips by done. cbn.
    repeat split; try done. intros Hb. lia. }
  destruct (optimize_model_stages cfg w Hge)
    as (transitions & g' & Hs & Hlen & Hcases).
  assert (Hzero : BATCH_SIZE cfg = 0%nat → (optimize_model cfg w).1 = Raise TypeError).
  { intros Hb. rewrite Hb in Hlen. apply nil_length_inv in Hlen as ->.
    destruct Hcases as [(e & Hw & He)|(batch & expected & Hc & _)]; [|done].
    unfold optimize_model, mbind, M_bind, Py.bind, gets, lift, modify,
      memory_sample, with_rng.
    cbn [fst snd]. rewrite decide_False by done. by rewrite Hs. }
  destruct Hcases as [(e & Hw & He)|(batch & expected & _ & _ & [Hw|(t' & _ & Hw)])];
    rewrite Hw in *; cbn [fst] in *.
  - destruct He as [->|[->|[-> Hb]]]; repeat split; try done;
      intros Hb; by specialize (Hzero Hb).
  - repeat split; try done; intros Hb; by specialize (Hzero Hb).
  - repeat split; try done; intros Hb; by specialize (Hzero Hb).
Qed.

(** X5.  Whether it returns or raises, [optimize_model] leaves the step
    counter, the buffer and the environment as they were, and draws from
    the generator what the one sample of the batch draws. *)
Theorem optimize_model_frame w :
  let w' := (optimize_model cfg w).2 in
  steps_done w' = steps_done w
  ∧ memory w' = memory w
  ∧ env w' = env w
  ∧ rng w' = (if decide (ReplayMemory.len (memory w) < BATCH_SIZE cfg)%nat
              then rng w
              else (ReplayMemory.sample (memory w) (BATCH_SIZE cfg) (rng w)).2).
Proof.
  intros w'. subst w'. case_decide as Hgate.
  { rewrite optimize_model_skips by done. by repeat split. }
  destruct (optimize_model_stages cfg w Hgate)
    as (transitions & g' & Hs & _
        & [(e & Hw & _)|(batch & expected & _ & _ & [Hw|(t' & _ & Hw)])]);
    rewrite Hw, Hs; repeat split; done.
Qed.

(** X6.  With an optimiser that keeps the shapes of the parameters, a call
    of [optimize_model] keeps the architecture of both networks, whether
    it returns or raises: a network that maps [n_obs] observations to
    [n_actions] values still does afterwards. *)
Theorem optimize_model_keeps_shapes w :
  (∀ l policy o, DQN.same_shape (optimizer_step l policy o).1 policy) →
  let w' := (optimize_model cfg w).2 in
  DQN.same_shape (policy_net w') (policy_net w)
  ∧ DQN.same_shape (target_net w') (target_net w)
  ∧ (∀ n_obs n_actions,
       DQN.well_shaped (policy_net w) n_obs n_actions →
       DQN.well_shaped (policy_net w') n_obs n_actions)
  ∧ (∀ n_obs n_actions,
       DQN.well_shaped (target_net w) n_obs n_actions →
       DQN.well_shaped (target_net w') n_obs n_actions).
Proof.
  intros Hopt w'. subst w'.
  destruct (optimize_model_same_shape w Hopt) as [Hp Ht].
  split; [done|]. split; [done|].
  split; intros n_obs n_actions; by apply well_shaped_same.
Qed.

End StepEffects.

Lemma optimize_model_keeps_shapes_example :
  let cfg := {| BATCH_SIZE := 2; GAMMA := 0.99; EPS_START := 0.9;
                EPS_END := 0.1; EPS_DECAY := 10000; TAU := 0.005 |} in
  let w := DQL.example_world DQL.example_memory in
  DQN.well_shaped (DQL.target_net (DQL.optimize_model cfg w).2) 1 1.
Proof.
  intros cfg w.
  destruct (optimize_model_keeps_shapes cfg w) as (_ & _ & _ & Htarget).
  - intros l policy o. by repeat split.
  - apply Htarget. exists 1, 1. repeat split; repeat constructor.
Defined.

(** ** The Q-network: shapes, state dictionaries, the greedy action *)

Section NetworkFacts.
Import DQL.
Local Open Scope R_scope.
Implicit Types (net : DQN.t).

Lemma zip_strict_differ {A B C} (h : A → B → C) (u : list A) (v : list B) :
  length u ≠ length v → zip_strict h u v = Raise RuntimeError.
Proof.
  revert v. induction u as [|a u IH]; intros [|b v] Hlen; cbn in *; try done.
  rewrite IH by lia. done.
Qed.

(** X9.  A network that maps [n_in] observations to [n_out] values returns
    one value per action for an observation of [n_in] entries, and raises
    [RuntimeError] for an observation of any other size. *)
Theorem forward_shapes net (x : list R) (n_in n_out : nat) :
  DQN.well_shaped net n_in n_out →
  weight (DQN.layer1 net) ≠ [] →
  (length x = n_in → ∃ q, DQN.forward net x = Ok q ∧ length q = n_out)
  ∧ (length x ≠ n_in → DQN.forward net x = Raise RuntimeError).
Proof.
  intros Hnet Hrows. split.
  - intros Hx. by eapply forward_Ok.
  - intros Hx. destruct Hnet as (h1 & h2 & (_ & _ & Hwidth) & _).
    unfold DQN.forward, linear.
    destruct (weight (DQN.layer1 net)) as [|row rows]; [done|].
    apply Forall_cons in Hwidth as [Hrow _]. cbn [mapM].
    assert (dot row x = Raise RuntimeError) as ->
      by (unfold dot; by rewrite zip_strict_differ by lia).
    done.
Qed.

Lemma load_state_dict_same_shape (a b : DQN.t) :
  DQN.same_shape a b → DQN.load_state_dict (DQN.state_dict a) b = Ok a.
Proof.
  unfold DQN.load_state_dict. simpl.
  unfold DQN.load_matrix, DQN.load_vector. simpl.
  intros ((W1 & B1) & (W2 & B2) & (W3 & B3)).
  rewrite !decide_True by done. simpl. by destruct a as [[] [] []].
Qed.

(** X10.  Loading the state dictionary of a network into a network of the
    same architecture makes the second a copy of the first; loading it
    into a network of another architecture raises [RuntimeError]. *)
Theorem load_state_dict_round_trip (a b : DQN.t) :
  (DQN.same_shape a b → DQN.load_state_dict (DQN.state_dict a) b = Ok a)
  ∧ (¬ DQN.same_shape a b →
       DQN.load_state_dict (DQN.state_dict a) b = Raise RuntimeError).
Proof.
  split; [apply load_state_dict_same_shape|].
  unfold DQN.load_state_dict. simpl.
  unfold DQN.load_matrix, DQN.load_vector. simpl.
  unfold DQN.same_shape, DQN.same_layer_shape.
  - intros Hdiff.
    destruct (decide (widths (weight (DQN.layer1 a)) = _)); [|done]. simpl.
    destruct (decide (length (bias (DQN.layer1 a)) = _)); [|done]. simpl.
    destruct (decide (widths (weight (DQN.layer2 a)) = _)); [|done]. simpl.
    destruct (decide (length (bias (DQN.layer2 a)) = _)); [|done]. simpl.
    destruct (decide (widths (weight (DQN.layer3 a)) = _)); [|done]. simpl.
    destruct (decide (length (bias (DQN.layer3 a)) = _)); [|done]. simpl.
    exfalso. apply Hdiff. by repeat split.
Qed.

(** The running maximum with the position of its first occurrence: [pre]
    is the part of the row already scanned. *)
Lemma max_from_first (row : list R) : ∀ (pre : list R) best ibest v j,
  pre !! ibest = Some best →
  (∀ k x, pre !! k = Some x → x <= best) →
  (∀ k x, (k < ibest)%nat → pre !! k = Some x → x < best) →
  max_from best ibest (length pre) row = (v, j) →
  (pre ++ row) !! j = Some v
  ∧ (∀ k x, (pre ++ row) !! k = Some x → x <= v)
  ∧ (∀ k x, (k < j)%nat → (pre ++ row) !! k = Some x → x < v).
Proof.
  induction row as [|y row IH]; intros pre best ibest v j Hbest Hle Hlt; cbn.
  - intros [= <- <-]. rewrite app_nil_r. done.
  - replace (pre ++ y :: row) with ((pre ++ [y]) ++ row)
      by (by rewrite <- app_assoc).
    replace (S (length pre)) with (length (pre ++ [y]))
      by (rewrite length_app; cbn; lia).
    destruct (Rlt_dec best y) as [Hy|Hy]; intros Hmax.
    + apply (IH (pre ++ [y]) y (length pre) v j); [| | |exact Hmax].
      * by rewrite lookup_app_r, Nat.sub_diag by lia.
      * intros k x Hk. apply lookup_app_Some in Hk as [Hk|[_ Hk]].
        -- specialize (Hle k x Hk). lra.
        -- apply list_lookup_singleton_Some in Hk as [_ ->]. lra.
      * intros k x Hlt' Hk. rewrite lookup_app_l in Hk by done.
        specialize (Hle k x Hk). lra.
    + apply (IH (pre ++ [y]) best ibest v j); [| | |exact Hmax].
      * rewrite lookup_app_l; [done|]. by eapply lookup_lt_Some.
      * intros k x Hk. apply lookup_app_Some in Hk as [Hk|[_ Hk]].
        -- by eapply Hle.
        -- apply list_lookup_singleton_Some in Hk as [_ ->]. lra.
      * intros k x Hlt' Hk. apply (Hlt k x Hlt').
        rewrite lookup_app_l in Hk; [done|].
        apply lookup_lt_Some in Hbest. lia.
Qed.

Lemma row_max_first (row : list R) (v : R) (j : nat) :
  row_max row = Ok (v, j) →
  row !! j = Some v
  ∧ (∀ k x, row !! k = Some x → x <= v)
  ∧ (∀ k x, (k < j)%nat → row !! k = Some x → x < v).
Proof.
  destruct row as [|x row]; cbn; [done|]. intros [= Hmax].
  apply (max_from_first row [x] x 0%nat v j); [done| | |exact Hmax].
  - intros [|k] y; cbn; [intros [= ->]; lra|done].
  - intros k y Hk. lia.
Qed.

(** X11.  The action [greedy_action] returns is a valid index of the values
    the network predicts for the state: it holds their maximum, and every
    earlier action has a strictly smaller value. *)
Theorem greedy_action_is_argmax net (state : list R) (a : nat) :
  greedy_action net state = Ok a →
  ∃ q v, DQN.forward net state = Ok q
         ∧ q !! a = Some v
         ∧ (∀ k x, q !! k = Some x → x <= v)
         ∧ (∀ k x, (k < a)%nat → q !! k = Some x → x < v).
Proof.
  unfold greedy_action.
  destruct (DQN.forward net state) as [q|e]; cbn; [|done].
  destruct (row_max q) as [[v j]|e] eqn:Hmax; cbn; [|done].
  intros [= <-]. exists q, v. split; [done|]. by apply row_max_first.
Qed.

(** X12.  The values [state_action_values] returns for a collated batch
    are, transition by transition, the value the policy network predicts
    for the state at the action taken. *)
Theorem state_action_values_entries (policy : DQN.t) (transitions : list Transition)
    (batch : Batch) (sav : list R) :
  collate transitions = Ok batch →
  state_action_values policy batch = Ok sav →
  Forall2 (λ tr v, ∃ q, DQN.forward policy (state tr) = Ok q
                        ∧ q !! action tr = Some v) transitions sav.
Proof.
  unfold collate, state_action_values.
  destruct transitions as [|tr0 trs0] eqn:Htrs; [done|]. rewrite <- Htrs. clear Htrs.
  destruct (cat_rows (omap next_state transitions)) as [nfns|e] eqn:Hn; cbn; [|done].
  destruct (cat_rows (state <$> transitions)) as [sb|e] eqn:Hs; cbn; [|done].
  destruct (cat (action <$> transitions)) as [ab|e] eqn:Ha; cbn; [|done].
  destruct (cat ((λ tr, reward tr) <$> transitions)) as [rb|e] eqn:Hrw; cbn; [|done].
  intros [= <-]. cbn.
  apply cat_rows_Ok in Hs as [-> _]. apply cat_Ok in Ha as [-> _].
  unfold DQN.call.
  destruct (mapM (DQN.forward policy) _) as [qs|e] eqn:Hq; cbn; [|done].
  intros Hg. apply mapM_Ok in Hq. apply zip_strictM_Ok in Hg as (Hl1 & Hl2 & Hix).
  apply Forall2_fmap_l in Hq.
  apply Forall2_same_length_lookup. split.
  - by rewrite Hl2, Hl1, length_fmap.
  - intros i tr v Htr Hv.
    destruct (Forall2_lookup_l _ _ _ _ _ Hq Htr) as (q & Hqi & Hfw).
    destruct (Hix i q (action tr) Hqi) as (c & Hc & Hci);
      [by rewrite list_lookup_fmap, Htr|].
    exists q. split; [done|].
    destruct (q !! action tr); [|done]. congruence.
Qed.

End NetworkFacts.

Lemma forward_shapes_example :
  (∃ q, DQN.forward (DQL.example_net 1) [0%R] = Ok q ∧ length q = 1)
  ∧ DQN.forward (DQL.example_net 1) [0%R; 0%R] = Raise RuntimeError.
Proof.
  destruct (forward_shapes (DQL.example_net 1) [0%R] 1 1) as [Hfits _].
  - exists 1, 1. repeat split; repeat constructor.
  - done.
  - split; [by apply Hfits|].
    apply (forward_shapes (DQL.example_net 1) [0%R; 0%R] 1 1).
    + exists 1, 1. repeat split; repeat constructor.
    + done.
    + cbn. lia.
Defined.

Lemma greedy_action_example :
  ∃ q v, DQN.forward (DQL.example_net 1) [0%R] = Ok q
         ∧ q !! 0 = Some v
         ∧ (∀ k x, q !! k = Some x → (x <= v)%R)
         ∧ (∀ k x, k < 0 → q !! k = Some x → (x < v)%R).
Proof. apply (greedy_action_is_argmax (DQL.example_net 1) [0%R] 0). reflexivity. Defined.

Lemma state_action_values_example :
  let transitions := ReplayMemory.contents DQL.example_memory in
  ∃ sav,
    Forall2 (λ tr v, ∃ q, DQN.forward (DQL.example_net 1) (state tr) = Ok q
                          ∧ q !! action tr = Some v) transitions sav.
Proof.
  intros transitions. eexists.
  eapply (state_action_values_entries (DQL.example_net 1) transitions);
    reflexivity.
Defined.

Section SoftUpdateMore.
Import DQL.
Local Open Scope R_scope.
Context `{Framework}.
Variable cfg : Config.
Implicit Types (w : World) (policy target : DQN.t).

Lemma zip_with_keep_right (a b : R) (u v : list R) :
  a = 0 → b = 1 → length u = length v →
  zip_with (λ p t, p * a + t * b) u v = v.
Proof.
  intros -> ->. revert v.
  induction u as [|p u IH]; intros [|t v] Hlen; cbn in *; try done.
  f_equal; [ring|]. apply IH. lia.
Qed.

(** [P * 0 + T * 1] is [T]. *)
Lemma tensor_mix_keep (a b : R) (P T N : Tensor) :
  tensor_add (tensor_scale P a) (tensor_scale T b) = Ok N →
  a = 0 → b = 1 → N = T.
Proof.
  destruct P as [u|m], T as [v|n]; cbn; try done.
  - destruct (zip_strict _ _ _) as [l|e] eqn:Hz; cbn; [|done].
    intros [= <-] Ha Hb. apply mix_vector in Hz as [Hlen ->].
    f_equal. by apply zip_with_keep_right.
  - destruct (zip_strictM _ _ _) as [rows|e] eqn:Hz; cbn; [|done].
    intros [= <-] Ha Hb. apply zip_strictM_Ok in Hz as (Hlen & Hlen' & Hrows).
    repeat rewrite length_fmap in Hlen. repeat rewrite length_fmap in Hlen'.
    f_equal. apply list_eq. intros i.
    destruct (n !! i) as [r2|] eqn:H2.
    + destruct (lookup_lt_is_Some_2 m i) as [r1 H1];
        [apply lookup_lt_Some in H2; lia|].
      destruct (Hrows i ((λ x, x * a) <$> r1) ((λ x, x * b) <$> r2))
        as (r & Hr & ->); [by rewrite list_lookup_fmap, H1
                          |by rewrite list_lookup_fmap, H2|].
      apply mix_vector in Hr as [Hl ->]. f_equal.
      by apply zip_with_keep_right.
    + apply lookup_ge_None. apply lookup_ge_None in H2. lia.
Qed.

Lemma soft_update_zero policy target target' :
  soft_update cfg policy target = Ok target' → TAU cfg = 0 → target' = target.
Proof.
  intros Hsoft Htau. pose proof (soft_update_inv _ _ _ _ Hsoft) as Hkeys.
  rewrite Forall_forall in Hkeys.
  assert (Hsame : ∀ key, key ∈ DQN.keys →
            dict_get key (DQN.state_dict target')
            = dict_get key (DQN.state_dict target)).
  { intros key Hin.
    destruct (Hkeys key Hin) as (P & T & N & HP & HT & HN & HN').
    rewrite HN', HT. f_equal. eapply tensor_mix_keep; [exact HN|done|lra]. }
  assert (Hall : Forall (λ key, dict_get key (DQN.state_dict target')
                               = dict_get key (DQN.state_dict target)) DQN.keys)
    by (apply Forall_forall; auto).
  unfold DQN.keys in Hall.
  apply Forall_cons in Hall as [E1 Hall]. apply Forall_cons in Hall as [E2 Hall].
  apply Forall_cons in Hall as [E3 Hall]. apply Forall_cons in Hall as [E4 Hall].
  apply Forall_cons in Hall as [E5 Hall]. apply Forall_cons in Hall as [E6 _].
  clear Hsame Hkeys Hsoft.
  destruct target' as [[] [] []], target as [[] [] []].
  simpl in E1, E2, E3, E4, E5, E6. congruence.
Qed.

(** X8.  With [TAU = 0], a step that passes the gate and returns leaves
    the target network as it was: every entry is [p * 0 + t * 1] for the
    entries [p] of the policy network and [t] of the target network, which
    is [t] (for the finite values the embedding has; in floating point,
    too, up to the sign of a zero). *)
Theorem optimize_model_tau_zero w :
  ¬ (ReplayMemory.len (memory w) < BATCH_SIZE cfg)%nat →
  (optimize_model cfg w).1 = Ok tt →
  TAU cfg = 0 →
  target_net (optimize_model cfg w).2 = target_net w.
Proof.
  intros Hge Hok Htau.
  destruct (optimize_model_inv cfg w Hge Hok)
    as (transitions & g' & batch & sav & expected & l & target'
        & _ & _ & _ & _ & _ & Hsoft & Hw).
  rewrite Hw. cbn [set_target_net set_policy target_net policy_net].
  by eapply soft_update_zero.
Qed.

End SoftUpdateMore.

Lemma optimize_model_target_kept :
  let cfg := {| BATCH_SIZE := 2; GAMMA := 0.99; EPS_START := 0.9;
                EPS_END := 0.1; EPS_DECAY := 10000; TAU := 0 |} in
  let w := DQL.example_world DQL.example_memory in
  DQL.target_net (DQL.optimize_model cfg w).2 = DQL.target_net w.
Proof.
  intros cfg w.
  apply (optimize_model_tau_zero cfg w).
  - vm_compute. lia.
  - reflexivity.
  - reflexivity.
Defined.

Lemma optimize_model_returns_example :
  let cfg := {| BATCH_SIZE := 2; GAMMA := 0.99; EPS_START := 0.9;
                EPS_END := 0.1; EPS_DECAY := 10000; TAU := 0.005 |} in
  (DQL.optimize_model cfg (DQL.example_world DQL.example_memory)).1 = Ok tt.
Proof.
  intros cfg.
  apply (optimize_model_returns cfg (DQL.example_world DQL.example_memory) 1 1).
  - cbn. lia.
  - vm_compute. lia.
  - lia.
  - exists 1, 1. repeat split; repeat constructor.
  - exists 1, 1. repeat split; repeat constructor.
  - by repeat split.
  - intros l policy o. by repeat split.
  - change (ReplayMemory.contents
              (DQL.memory (DQL.example_world DQL.example_memory)))
      with [{| state := [0%R]; action := 0; reward := 1%R; next_state := None |};
            {| state := [0%R]; action := 0; reward := 1%R;
               next_state := Some [1%R] |}].
    repeat first [apply Forall_nil_2 | apply Forall_cons_2];
      (split; [done|]; split; [cbn; lia|]; cbn; intros s' Hs'; by simplify_eq).
  - intros transitions g' Hs. injection Hs as <- _.
    cbn. apply Exists_cons_tl, Exists_cons_hd. done.
Defined.

(** ** The training cell *)

Section EpisodeFacts.
Import DQL Train.
Local Open Scope R_scope.
Context `{Framework}.
Variable env_reset : Env → list R * Env.
Variable cfg : Config.
Implicit Types (w : World) (log : Log).

Lemma select_action_steps_done s0 w :
  steps_done (select_action cfg s0 w).2 = (steps_done w + 1)%nat.
Proof. rewrite select_action_effect. by destruct (Rgt_dec _ _). Qed.

Lemma select_action_networks s0 w :
  policy_net (select_action cfg s0 w).2 = policy_net w.
Proof. rewrite select_action_effect. by destruct (Rgt_dec _ _). Qed.

(** One iteration of the inner loop that returns has counted one step
    and pushed one transition from the state it was given. *)
Lemma step_and_store_inv s0 w r w' :
  step_and_store cfg s0 w = (Ok r, w') →
  ∃ a, memory w' = ReplayMemory.push_transition (memory w)
                     {| state := s0; action := a; reward := Gym.reward r;
                        next_state := observed_next_state r |}
       ∧ steps_done w' = (steps_done w + 1)%nat.
Proof.
  unfold step_and_store, mbind, M_bind, Py.bind.
  pose proof (select_action_memory cfg s0 w) as Hmem.
  pose proof (select_action_steps_done s0 w) as Hsteps.
  destruct (select_action cfg s0 w) as [[a|e] w1]; [|done].
  cbn [snd] in Hmem, Hsteps.
  unfold with_env. destruct (env_step a (env w1)) as [r' e'].
  unfold memory_push, modify.
  match goal with
  | |- context [optimize_model cfg ?w2] =>
      destruct (optimize_model_untouched cfg w2) as (Hs & Hm & _);
      destruct (optimize_model cfg w2) as [[[]|e] w3]
  end; [|done].
  cbn [snd] in Hs, Hm. unfold mret, M_ret, Py.ret. intros [= -> ->].
  exists a. rewrite Hs, Hm. cbn. by rewrite Hmem, Hsteps.
Qed.

(** The policy network keeps its shapes through an iteration, whether
    the iteration returns or raises. *)
Lemma step_and_store_same_shape s0 w :
  (∀ l policy o, DQN.same_shape (optimizer_step l policy o).1 policy) →
  DQN.same_shape (policy_net (step_and_store cfg s0 w).2) (policy_net w).
Proof.
  intros Hopt. unfold step_and_store, mbind, M_bind, Py.bind.
  pose proof (select_action_networks s0 w) as Hnet.
  destruct (select_action cfg s0 w) as [[a|e] w1]; cbn [snd] in *;
    [|rewrite Hnet; apply same_shape_refl].
  unfold with_env. destruct (env_step a (env w1)) as [r' e'].
  unfold memory_push, modify.
  match goal with
  | |- context [optimize_model cfg ?w2] =>
      destruct (optimize_model_same_shape cfg w2 Hopt) as [Hp _];
      destruct (optimize_model cfg w2) as [[[]|e] w3]
  end; cbn [snd] in *; unfold mret, M_ret, Py.ret; cbn [snd];
    cbn in Hp; by rewrite Hnet in Hp.
Qed.

(** An episode that ends has pushed one transition per iteration: they
    start at the state given, each leads to the state of the next, and
    their rewards add up to the total. *)
Lemma episode_loop_inv (fuel : nat) : ∀ (t : nat) s0 total w d total' w',
  episode_loop cfg fuel t s0 total w = (Ok (Done d total'), w') →
  ∃ trs,
    (t < d)%nat ∧ (d ≤ t + fuel)%nat ∧ length trs = (d - t)%nat
    ∧ memory w' = ReplayMemory.push_all trs (memory w)
    ∧ steps_done w' = (steps_done w + length trs)%nat
    ∧ total' = total + sum ((λ tr : Transition, reward tr) <$> trs)
    ∧ state <$> head trs = Some s0
    ∧ (∀ i tr tr', trs !! i = Some tr → trs !! S i = Some tr' →
         next_state tr = Some (state tr'))
    ∧ (∀ tr, tr ∈ trs → next_state tr = None → last trs = Some tr).
Proof.
  induction fuel as [|fuel IH]; intros t s0 total w d total' w'; [done|].
  cbn [episode_loop]. unfold mbind, M_bind, Py.bind.
  destruct (step_and_store cfg s0 w) as [[r|e] w1] eqn:Hstep; [|done].
  destruct (step_and_store_inv _ _ _ _ Hstep) as (a & Hmem & Hsteps).
  set (tr0 := {| state := s0; action := a; reward := Gym.reward r;
                 next_state := observed_next_state r |}) in *.
  destruct (Gym.terminated r || Gym.truncated r) eqn:Hdone.
  - unfold mret, M_ret, Py.ret. intros [= <- <- <-].
    exists [tr0]. repeat split; cbn; try lia; try done.
    + by rewrite Rplus_0_r.
    + intros tr ->%list_elem_of_singleton. done.
  - intros Hloop.
    destruct (IH _ _ _ _ _ _ _ Hloop)
      as (trs & Ht & Hd & Hlen & Hmem' & Hsteps' & Htot & Hhead & Hchain & Hfinal).
    apply orb_false_iff in Hdone as [Hterm _].
    exists (tr0 :: trs). repeat split; cbn [length]; try lia.
    + by rewrite Hmem', Hmem.
    + cbn [fmap list_fmap sum foldr]. rewrite Htot.
      change (foldr Rplus 0 ((λ tr : Transition, reward tr) <$> trs))
        with (sum ((λ tr : Transition, reward tr) <$> trs)).
      cbn. ring.
    + intros [|i] tr tr'; cbn.
      * intros [= <-] Htr'. destruct trs as [|tr1 trs]; [done|].
        cbn in Htr', Hhead. injection Htr' as ->. injection Hhead as ->.
        cbn. unfold observed_next_state. by rewrite Hterm.
      * apply Hchain.
    + intros tr [->|Hin]%elem_of_cons Hnone.
      * exfalso. revert Hnone. cbn. unfold observed_next_state.
        by rewrite Hterm.
      * specialize (Hfinal tr Hin Hnone).
        destruct trs; [done|]. exact Hfinal.
Qed.

End EpisodeFacts.

Section TrainFacts.
Import DQL Train.
Local Open Scope R_scope.
Context `{Framework}.
Variable env_reset : Env → list R * Env.
Variable cfg : Config.
Implicit Types (w : World) (log : Log).

Lemma episode_loop_same_shape (fuel : nat) : ∀ (t : nat) s0 total w,
  (∀ l policy o, DQN.same_shape (optimizer_step l policy o).1 policy) →
  DQN.same_shape (policy_net (episode_loop cfg fuel t s0 total w).2) (policy_net w).
Proof.
  induction fuel as [|fuel IH]; intros t s0 total w Hopt;
    [apply same_shape_refl|].
  cbn [episode_loop]. unfold mbind, M_bind, Py.bind.
  pose proof (step_and_store_same_shape cfg s0 w Hopt) as Hstep.
  destruct (step_and_store cfg s0 w) as [[r|e] w1]; cbn [snd] in *; [|done].
  destruct (Gym.terminated r || Gym.truncated r); [done|].
  eapply same_shape_trans; [by apply IH|done].
Qed.

(** One iteration of the outer loop that returns: the reset, the episode,
    and the bookkeeping when the episode is over. *)
Lemma run_episode_inv (fuel i : nat) w log out w' log' :
  run_episode env_reset cfg fuel i (w, log) = (Ok out, (w', log')) →
  episode_loop cfg fuel 0 (env_reset (env w)).1 0 (set_env (env_reset (env w)).2 w)
  = (Ok out, w')
  ∧ log' = match out with
           | Done d total => record_episode i d total (policy_net w') log
           | OutOfFuel => log
           end.
Proof.
  unfold run_episode, on_world, mbind, M_bind, Py.bind, with_env. cbn [fst snd].
  destruct (env_reset (env w)) as [obs e0]. cbn [fst snd].
  destruct (episode_loop cfg fuel 0 obs 0 (set_env e0 w)) as [[out'|e] w1]; [|done].
  destruct out' as [d total|]; unfold modify, mret, M_ret, Py.ret; cbn [fst snd];
    by intros [= <- <- <-].
Qed.

Lemma record_episode_lists (i d : nat) (total : R) (p : DQN.t) log :
  episode_durations (record_episode i d total p log) = episode_durations log ++ [d]
  ∧ total_rewards (record_episode i d total p log) = total_rewards log ++ [total].
Proof.
  unfold record_episode. case_decide; [destruct (below _ _)|]; done.
Qed.

Lemma record_episode_best (i d : nat) (total : R) (p : DQN.t) log (b : R) :
  best_total_rewards log = Some b →
  ∃ b', best_total_rewards (record_episode i d total p log) = Some b' ∧ b <= b'.
Proof.
  intros Hb. unfold record_episode, below. rewrite Hb.
  case_decide; [destruct (Rlt_dec _ _)|]; cbn; eexists; split; try done; lra.
Qed.

(** A checkpoint is written together with a new best mean, and in
    episode 0 whatever the rewards. *)
Lemma record_episode_checkpoint (i d : nat) (total : R) (p : DQN.t) log :
  (∀ sd, checkpoint (record_episode i d total p log) = Some sd →
         sd = DQN.state_dict p ∨ checkpoint log = Some sd)
  ∧ (is_Some (checkpoint log) → is_Some (checkpoint (record_episode i d total p log)))
  ∧ ((i `mod` 50 = 0)%nat → best_total_rewards log = None →
     checkpoint (record_episode i d total p log) = Some (DQN.state_dict p)).
Proof.
  unfold record_episode. repeat split.
  - intros sd. case_decide; [destruct (below _ _)|]; cbn; [|by right..].
    intros [= <-]. by left.
  - intros Hsome. case_decide; [destruct (below _ _)|]; cbn; [by eexists|done..].
  - intros Hi Hbest. rewrite decide_True by done. by rewrite Hbest.
Qed.

Lemma push_all_app (trs1 trs2 : list Transition) (m : ReplayMemory.t) :
  ReplayMemory.push_all (trs1 ++ trs2) m
  = ReplayMemory.push_all trs2 (ReplayMemory.push_all trs1 m).
Proof. apply foldl_app. Qed.

Lemma sum_app (u v : list R) : sum (u ++ v) = sum u + sum v.
Proof.
  unfold sum. induction u as [|x u IH]; cbn; [lra|]. rewrite IH. lra.
Qed.

(** The bookkeeping of a run of [n] episodes that completes. *)
Lemma train_from_inv (fuel n : nat) : ∀ (i : nat) w log w' log',
  train_from env_reset cfg fuel i n (w, log) = (Ok true, (w', log')) →
  ∃ ds rs trs,
    episode_durations log' = episode_durations log ++ ds
    ∧ total_rewards log' = total_rewards log ++ rs
    ∧ length ds = n ∧ length rs = n
    ∧ Forall (λ d, 1 ≤ d ≤ fuel)%nat ds
    ∧ steps_done w' = (steps_done w + sum_list ds)%nat
    ∧ memory w' = ReplayMemory.push_all trs (memory w)
    ∧ length trs = sum_list ds
    ∧ sum ((λ tr : Transition, reward tr) <$> trs) = sum rs
    ∧ (∀ b, best_total_rewards log = Some b →
            ∃ b', best_total_rewards log' = Some b' ∧ b <= b').
Proof.
  induction n as [|n IH]; intros i w log w' log'.
  - cbn. unfold mret, M_ret, Py.ret. intros [= <- <-].
    exists [], [], []. rewrite !app_nil_r. repeat split; try done.
    intros b Hb. exists b. split; [done|lra].
  - cbn [train_from]. unfold mbind, M_bind, Py.bind.
    destruct (run_episode env_reset cfg fuel i (w, log))
      as [[out|e] [w1 log1]] eqn:Hrun; [|done].
    destruct out as [d total|]; [|done].
    apply run_episode_inv in Hrun as [Hloop ->].
    apply episode_loop_inv in Hloop
      as (trs1 & Ht & Hd & Hlen & Hmem & Hsteps & Htot & _).
    cbn [memory steps_done set_env] in Hmem, Hsteps.
    destruct (record_episode_lists i d total (policy_net w1) log) as [Hds Hrs].
    intros Htrain.
    destruct (IH _ _ _ _ _ Htrain)
      as (ds & rs & trs & Hds' & Hrs' & Hlds & Hlrs & Hall & Hsteps' & Hmem'
          & Hltrs & Hsum & Hbest).
    exists (d :: ds), (total :: rs), (trs1 ++ trs).
    rewrite Hds', Hrs', Hds, Hrs, <- !app_assoc.
    assert (Hsl : sum_list (d :: ds) = (d + sum_list ds)%nat) by reflexivity.
    rewrite Hsl.
    repeat split; cbn [length]; try done; try lia.
    + constructor; [lia|done].
    + by rewrite push_all_app, Hmem', Hmem.
    + rewrite length_app. lia.
    + rewrite fmap_app, sum_app, Hsum. cbn [sum foldr].
      change (foldr Rplus 0 rs) with (sum rs). lra.
    + intros b Hb.
      destruct (record_episode_best i d total (policy_net w1) log b Hb)
        as (b1 & Hb1 & Hle1).
      destruct (Hbest b1 Hb1) as (b' & Hb' & Hle'). exists b'. split; [done|lra].
Qed.

(** The checkpoint of a run that completes is the state dictionary of a
    network of the architecture of the policy network. *)
Lemma train_from_checkpoint (fuel n : nat) : ∀ (i : nat) w log w' log' P0,
  (∀ l policy o, DQN.same_shape (optimizer_step l policy o).1 policy) →
  train_from env_reset cfg fuel i n (w, log) = (Ok true, (w', log')) →
  DQN.same_shape (policy_net w) P0 →
  (∀ sd, checkpoint log = Some sd → ∃ p, sd = DQN.state_dict p ∧ DQN.same_shape p P0) →
  DQN.same_shape (policy_net w') P0
  ∧ (∀ sd, checkpoint log' = Some sd →
       ∃ p, sd = DQN.state_dict p ∧ DQN.same_shape p P0)
  ∧ (is_Some (checkpoint log)
     ∨ ((0 < n)%nat ∧ (i `mod` 50 = 0)%nat ∧ best_total_rewards log = None) →
     is_Some (checkpoint log')).
Proof.
  induction n as [|n IH]; intros i w log w' log' P0 Hopt.
  - cbn. unfold mret, M_ret, Py.ret. intros [= <- <-] Hw Hlog.
    split; [done|]. split; [done|]. intros [?|[? _]]; [done|lia].
  - cbn [train_from]. unfold mbind, M_bind, Py.bind.
    destruct (run_episode env_reset cfg fuel i (w, log))
      as [[out|e] [w1 log1]] eqn:Hrun; [|done].
    destruct out as [d total|]; [|done].
    apply run_episode_inv in Hrun as [Hloop ->].
    pose proof (episode_loop_same_shape fuel 0 (env_reset (env w)).1 0
                  (set_env (env_reset (env w)).2 w) Hopt) as Hshape.
    rewrite Hloop in Hshape. cbn [snd set_env policy_net] in Hshape.
    intros Htrain Hw Hlog.
    destruct (record_episode_checkpoint i d total (policy_net w1) log)
      as (Hfrom & Hkeep & Hfirst).
    assert (Hw1 : DQN.same_shape (policy_net w1) P0)
      by (by eapply same_shape_trans).
    destruct (IH _ _ _ _ _ P0 Hopt Htrain Hw1) as (Hw' & Hlog' & Hsome).
    { intros sd [->|Hsd]%Hfrom; [by exists (policy_net w1)|by apply Hlog]. }
    split; [done|]. split; [done|].
    intros Hstart. apply Hsome. left.
    destruct Hstart as [Hc|(_ & Hi & Hbest)]; [by apply Hkeep|].
    rewrite Hfirst by done. by eexists.
Qed.

(** X13.  One iteration of the outer loop whose episode ends after
    [d] steps has pushed [d] transitions and counted [d] steps: the
    first transition starts at the observation of [env.reset()], each
    leads to the state of the next, only the last can be final, their
    rewards add up to the total reward, and the bookkeeping is that of
    [record_episode] for the policy network as the episode leaves it. *)
Theorem run_episode_stores (fuel i : nat) w log (d : nat) (total : R) :
  (run_episode env_reset cfg fuel i (w, log)).1 = Ok (Done d total) →
  let w' := (run_episode env_reset cfg fuel i (w, log)).2.1 in
  let log' := (run_episode env_reset cfg fuel i (w, log)).2.2 in
  ∃ trs,
    (1 ≤ d ≤ fuel)%nat ∧ length trs = d
    ∧ memory w' = ReplayMemory.push_all trs (memory w)
    ∧ steps_done w' = (steps_done w + d)%nat
    ∧ total = sum ((λ tr : Transition, reward tr) <$> trs)
    ∧ state <$> head trs = Some (env_reset (env w)).1
    ∧ (∀ k tr tr', trs !! k = Some tr → trs !! S k = Some tr' →
         next_state tr = Some (state tr'))
    ∧ (∀ tr, tr ∈ trs → next_state tr = None → last trs = Some tr)
    ∧ log' = record_episode i d total (policy_net w') log.
Proof.
  intros Hrun w' log'. subst w' log'.
  destruct (run_episode env_reset cfg fuel i (w, log)) as [out [w1 log1]] eqn:Heq.
  cbn [fst snd] in *. subst out.
  apply run_episode_inv in Heq as [Hloop ->].
  apply episode_loop_inv in Hloop
    as (trs & Ht & Hd & Hlen & Hmem & Hsteps & Htot & Hhead & Hchain & Hfinal).
  cbn [memory steps_done set_env] in Hmem, Hsteps.
  exists trs. repeat split; try done; try lia.
  by rewrite Htot, Rplus_0_l.
Qed.

(** X14.  A training run of [num_episodes] episodes that completes has
    appended one duration and one total reward per episode; the step
    counter has grown by the sum of the durations, which is also the
    number of transitions pushed into the buffer, and the rewards of these
    transitions add up to the total rewards; the best mean reward has not
    gone down. *)
Theorem train_bookkeeping (fuel num_episodes : nat) w log :
  (train env_reset cfg fuel num_episodes (w, log)).1 = Ok true →
  let w' := (train env_reset cfg fuel num_episodes (w, log)).2.1 in
  let log' := (train env_reset cfg fuel num_episodes (w, log)).2.2 in
  ∃ ds rs trs,
    episode_durations log' = episode_durations log ++ ds
    ∧ total_rewards log' = total_rewards log ++ rs
    ∧ length ds = num_episodes ∧ length rs = num_episodes
    ∧ Forall (λ d, 1 ≤ d ≤ fuel)%nat ds
    ∧ steps_done w' = (steps_done w + sum_list ds)%nat
    ∧ memory w' = ReplayMemory.push_all trs (memory w)
    ∧ length trs = sum_list ds
    ∧ sum ((λ tr : Transition, reward tr) <$> trs) = sum rs
    ∧ (∀ b, best_total_rewards log = Some b →
            ∃ b', best_total_rewards log' = Some b' ∧ b <= b').
Proof.
  intros Hrun w' log'. subst w' log'. unfold train in *.
  destruct (train_from env_reset cfg fuel 0 num_episodes (w, log))
    as [out [w1 log1]] eqn:Heq.
  cbn [fst snd] in *. subst out. by eapply train_from_inv.
Qed.

(** X15.  After a training run of at least one episode that completes,
    started with no checkpoint and no best mean, and with an optimiser
    that keeps the shapes of the parameters, a checkpoint has been written
    and the last cell loads it: the policy network becomes the network
    whose state dictionary was saved. *)
Theorem trained_checkpoint_loads (fuel num_episodes : nat) w :
  (∀ l policy o, DQN.same_shape (optimizer_step l policy o).1 policy) →
  (0 < num_episodes)%nat →
  (train env_reset cfg fuel num_episodes (w, fresh)).1 = Ok true →
  let w' := (train env_reset cfg fuel num_episodes (w, fresh)).2.1 in
  let log' := (train env_reset cfg fuel num_episodes (w, fresh)).2.2 in
  ∃ p, checkpoint log' = Some (DQN.state_dict p)
       ∧ load_checkpoint log' (policy_net w') = Some (Ok p)
       ∧ DQN.same_shape p (policy_net w).
Proof.
  intros Hopt Hn Hrun w' log'. subst w' log'. unfold train in *.
  destruct (train_from env_reset cfg fuel 0 num_episodes (w, fresh))
    as [out [w1 log1]] eqn:Heq.
  cbn [fst snd] in *. subst out.
  destruct (train_from_checkpoint _ _ _ _ _ _ _ (policy_net w) Hopt Heq)
    as (Hw1 & Hlog1 & Hsome); [apply same_shape_refl|done|].
  destruct Hsome as [sd Hsd]; [right; by repeat split|].
  destruct (Hlog1 sd Hsd) as (p & -> & Hp).
  exists p. split; [done|]. split; [|done].
  unfold load_checkpoint. rewrite Hsd. cbn.
  rewrite load_state_dict_same_shape; [done|].
  eapply same_shape_trans; [exact Hp|]. by apply same_shape_sym.
Qed.

End TrainFacts.

Section TimeLimit.
Import DQL Train.
Local Open Scope R_scope.
Context `{Framework}.
Variable cfg : Config.
(** A bound on the steps an environment can still take before it reports
    the end of the episode, as a time limit gives. *)
Variable remaining : Env → nat.
Hypothesis env_step_remaining : ∀ a e,
  Gym.terminated (env_step a e).1 || Gym.truncated (env_step a e).1 = false →
  (remaining (env_step a e).2 < remaining e)%nat.
Hypothesis action_space_sample_remaining : ∀ e,
  (remaining (action_space_sample e).2 ≤ remaining e)%nat.

Lemma select_action_env s0 w :
  (remaining (env (select_action cfg s0 w).2) ≤ remaining (env w))%nat.
Proof.
  rewrite select_action_effect. destruct (Rgt_dec _ _); cbn; [lia|].
  apply action_space_sample_remaining.
Qed.

Lemma step_and_store_remaining s0 w r w' :
  step_and_store cfg s0 w = (Ok r, w') →
  Gym.terminated r || Gym.truncated r = false →
  (remaining (env w') < remaining (env w))%nat.
Proof.
  unfold step_and_store, mbind, M_bind, Py.bind.
  pose proof (select_action_env s0 w) as Henv.
  destruct (select_action cfg s0 w) as [[a|e] w1]; [|done].
  cbn [snd] in Henv.
  unfold with_env. pose proof (env_step_remaining a (env w1)) as Hstep.
  destruct (env_step a (env w1)) as [r' e']. cbn [fst snd] in Hstep.
  unfold memory_push, modify.
  match goal with
  | |- context [optimize_model cfg ?w2] =>
      destruct (optimize_model_untouched cfg w2) as (_ & _ & He);
      destruct (optimize_model cfg w2) as [[[]|e] w3]
  end; [|done].
  cbn [snd] in He. unfold mret, M_ret, Py.ret. intros [= -> ->] Hdone.
  rewrite He. cbn. specialize (Hstep Hdone). lia.
Qed.

(** X16.  With an environment that reports the end of an episode within
    [remaining] steps, the inner loop does not go on for ever: run for
    more iterations than that, it has raised or left by [break]. *)
Theorem episode_loop_ends (fuel t : nat) (s0 : list R) (total : R) w :
  (remaining (env w) < fuel)%nat →
  (episode_loop cfg fuel t s0 total w).1 ≠ Ok OutOfFuel.
Proof.
  revert t s0 total w.
  induction fuel as [|fuel IH]; intros t s0 total w Hfuel; [lia|].
  cbn [episode_loop]. unfold mbind, M_bind, Py.bind.
  destruct (step_and_store cfg s0 w) as [[r|e] w1] eqn:Hstep; [|done].
  destruct (Gym.terminated r || Gym.truncated r) eqn:Hdone; [done|].
  apply IH. pose proof (step_and_store_remaining _ _ _ _ Hstep Hdone). lia.
Qed.

End TimeLimit.

(** An environment for examples: [env.reset()] gives the observation
    [[0]]. *)
Lemma example_episode :
  (Train.run_episode (H := DQL.example_framework) (λ e, ([0%R], e))
     hyperparameters 1 0
     (DQL.example_world (ReplayMemory.init 10), Train.fresh)).1
  = Ok (Train.Done 1 (0 + 1)).
Proof.
  unfold Train.run_episode, Train.on_world, mbind, M_bind, Py.bind, DQL.with_env.
  cbn [fst snd Train.episode_loop].
  unfold Train.step_and_store, mbind, M_bind, Py.bind.
  rewrite select_action_effect. destruct (Rgt_dec _ _); reflexivity.
Qed.

Lemma example_training :
  (Train.train (H := DQL.example_framework) (λ e, ([0%R], e))
     hyperparameters 1 1
     (DQL.example_world (ReplayMemory.init 10), Train.fresh)).1
  = Ok true.
Proof.
  unfold Train.train, Train.train_from, mbind, M_bind, Py.bind.
  unfold Train.run_episode, Train.on_world, mbind, M_bind, Py.bind, DQL.with_env.
  cbn [fst snd Train.episode_loop].
  unfold Train.step_and_store, mbind, M_bind, Py.bind.
  rewrite select_action_effect. destruct (Rgt_dec _ _); reflexivity.
Qed.

Lemma run_episode_stores_example :
  ∃ trs,
    length trs = 1
    ∧ DQL.memory
        (Train.run_episode (H := DQL.example_framework) (λ e, ([0%R], e))
           hyperparameters 1 0
           (DQL.example_world (ReplayMemory.init 10), Train.fresh)).2.1
      = ReplayMemory.push_all trs (ReplayMemory.init 10)
    ∧ state <$> head trs = Some [0%R].
Proof.
  destruct (run_episode_stores (λ e, ([0%R], e)) hyperparameters 1 0
              (DQL.example_world (ReplayMemory.init 10)) Train.fresh 1 (0 + 1)
              example_episode)
    as (trs & _ & Hlen & Hmem & _ & _ & Hhead & _).
  exists trs. split; [exact Hlen|]. split; [exact Hmem|exact Hhead].
Defined.

Lemma train_bookkeeping_example :
  ∃ ds,
    Train.episode_durations
      (Train.train (H := DQL.example_framework) (λ e, ([0%R], e))
         hyperparameters 1 1
         (DQL.example_world (ReplayMemory.init 10), Train.fresh)).2.2 = ds
    ∧ DQL.steps_done
        (Train.train (H := DQL.example_framework) (λ e, ([0%R], e))
           hyperparameters 1 1
           (DQL.example_world (ReplayMemory.init 10), Train.fresh)).2.1
      = sum_list ds.
Proof.
  destruct (train_bookkeeping (λ e, ([0%R], e)) hyperparameters 1 1
              (DQL.example_world (ReplayMemory.init 10)) Train.fresh
              example_training)
    as (ds & rs & trs & Hds & _ & _ & _ & _ & Hsteps & _).
  exists ds. split; [exact Hds|exact Hsteps].
Defined.

Lemma trained_checkpoint_loads_example :
  ∃ p,
    Train.load_checkpoint
      (Train.train (H := DQL.example_framework) (λ e, ([0%R], e))
         hyperparameters 1 1
         (DQL.example_world (ReplayMemory.init 10), Train.fresh)).2.2
      (DQL.policy_net
         (Train.train (H := DQL.example_framework) (λ e, ([0%R], e))
            hyperparameters 1 1
            (DQL.example_world (ReplayMemory.init 10), Train.fresh)).2.1)
    = Some (Ok p).
Proof.
  destruct (trained_checkpoint_loads (λ e, ([0%R], e)) hyperparameters 1 1
              (DQL.example_world (ReplayMemory.init 10)))
    as (p & _ & Hload & _).
  - intros l policy o. by repeat split.
  - lia.
  - exact example_training.
  - by exists p.
Defined.

Lemma episode_loop_ends_example :
  (Train.episode_loop (H := DQL.example_framework) hyperparameters 1 0 [0%R] 0
     (DQL.example_world (ReplayMemory.init 10))).1
  ≠ Ok Train.OutOfFuel.
Proof.
  apply (episode_loop_ends (H := DQL.example_framework) hyperparameters (λ _, 0)).
  - intros a e. cbn. done.
  - intros e. cbn. lia.
  - cbn. lia.
Defined.

(** ** The helper [render] *)

Section RenderFacts.
Import DQL Render.
Local Open Scope R_scope.
Context `{Framework}.
Variable gym_make : string → option bool → Env.
Variable env_reset : Env → list R * Env.
Implicit Types (policy_net : option DQN.t) (e : Env).

Lemma loop_random_never_fails (fuel : nat) : ∀ (i : nat) observation total e x,
  loop fuel i None observation total e ≠ Failed x.
Proof.
  induction fuel as [|fuel IH]; intros i observation total e x; [done|].
  cbn [loop choose]. destruct (action_space_sample e) as [a e1].
  destruct (env_step a e1) as [r e2].
  destruct (Gym.terminated r || Gym.truncated r); [done|]. apply IH.
Qed.

Lemma loop_printed_bounds (fuel : nat) : ∀ (i : nat) policy_net observation total e d total',
  loop fuel i policy_net observation total e = Printed d total' →
  (i < d ≤ i + fuel)%nat.
Proof.
  induction fuel as [|fuel IH]; intros i policy_net observation total e d total';
    [done|].
  cbn [loop]. destruct (choose policy_net observation e) as [[a|x] e1]; [|done].
  destruct (env_step a e1) as [r e2].
  destruct (Gym.terminated r || Gym.truncated r).
  - intros [= <- _]. lia.
  - intros Hloop. apply IH in Hloop. lia.
Qed.

(** X17.  What a call of [render] comes to.  For a task other than the two
    it knows, [env] is never bound and the call fails before anything is
    played; for [CartPole-v1] the argument [wind] is not used.  With no
    network given the actions are sampled and no network is evaluated, so
    the call does not fail in the choice of an action ([Failed] is a
    failure there; the calls of the environment are taken as they are,
    without failures of their own).  A duration printed counts at least
    one step. *)
Theorem render_reports (fuel : nat) (task : string) policy_net (wind : bool) :
  (task ≠ "LunarLander-v2" → task ≠ "CartPole-v1" →
   render gym_make env_reset fuel task policy_net wind = UnboundLocalError)
  ∧ render gym_make env_reset fuel "CartPole-v1" policy_net wind
    = render gym_make env_reset fuel "CartPole-v1" policy_net (negb wind)
  ∧ (∀ x, render gym_make env_reset fuel task None wind ≠ Failed x)
  ∧ (∀ d total, render gym_make env_reset fuel task policy_net wind = Printed d total →
                (1 ≤ d ≤ fuel)%nat).
Proof.
  unfold render. split; [|split; [|split]].
  - intros H1 H2.
    destruct (String.eqb_spec task "LunarLander-v2"); [done|].
    destruct (String.eqb_spec task "CartPole-v1"); done.
  - reflexivity.
  - intros x.
    destruct (String.eqb task "LunarLander-v2");
      [|destruct (String.eqb task "CartPole-v1"); [|done]];
      destruct (env_reset _); apply loop_random_never_fails.
  - intros d total.
    destruct (String.eqb task "LunarLander-v2");
      [|destruct (String.eqb task "CartPole-v1"); [|done]];
      destruct (env_reset _); intros Hp%loop_printed_bounds; lia.
Qed.

(** X18.  The loop of [render] prints a duration and a total reward
    exactly when the policy plays an episode of that many steps within
    the iterations allowed: every step but the last reports neither
    termination nor truncation, and the total is the rewards of the steps
    added up in order. *)
Theorem render_loop_printed policy_net (fuel : nat) :
  ∀ (i : nat) observation total e d total',
    loop fuel i policy_net observation total e = Printed d total'
    ↔ ∃ rs, Episode policy_net observation e rs
            ∧ (length rs ≤ fuel)%nat
            ∧ d = (i + length rs)%nat
            ∧ total' = foldl (λ acc r, acc + Gym.reward r) total rs.
Proof.
  induction fuel as [|fuel IH]; intros i observation total e d total'.
  - split; [done|]. intros (rs & Hep & Hlen & _).
    destruct Hep; cbn in Hlen; lia.
  - cbn [loop]. split.
    + destruct (choose policy_net observation e) as [[a|x] e1] eqn:Hc; [|done].
      destruct (env_step a e1) as [r e2] eqn:Hstep.
      destruct (Gym.terminated r || Gym.truncated r) eqn:Hdone.
      * intros [= <- <-]. exists [r]. split; [by eapply episode_last|].
        cbn. repeat split; lia.
      * intros (rs & Hep & Hlen & -> & ->)%IH.
        exists (r :: rs). split; [by eapply episode_step|].
        cbn. repeat split; lia.
    + intros (rs & Hep & Hlen & -> & ->).
      destruct Hep as [obs e0 a e1 r e2 Hc Hstep Hdone
                      |obs e0 a e1 r e2 rs Hc Hstep Hdone Hep];
        rewrite Hc, Hstep, Hdone.
      * cbn. f_equal; lia.
      * apply IH. exists rs. split; [done|]. cbn in *. repeat split; lia.
Qed.

End RenderFacts.

(** ** The support-vector machine: data, loss and accuracy *)

Section DataFacts.
Import SVM.
Local Open Scope R_scope.

Lemma normalize_id (pair : Sample) : normalize pair = pair.
Proof.
  destruct pair as [x y]. unfold normalize. cbn. f_equal.
  induction x as [|a x IH]; cbn; [done|]. f_equal; [field|exact IH].
Qed.

(** X19.  The preprocessing keeps, in order, the samples of the digits 0
    and 1 and nothing else; their pixels are unchanged, since the
    normalisation subtracts 0 and divides by 1, and the digit 0 becomes
    the label -1, the digit 1 the label +1. *)
Theorem preprocess_keeps_zeros_and_ones (D : list Sample) :
  preprocess D = otom1 <$> filter only01 D
  ∧ (length (preprocess D) ≤ length D)%nat
  ∧ (∀ p, p ∈ preprocess D ↔
       ∃ q, q ∈ D ∧ p.1 = q.1
            ∧ ((q.2 = 0 ∧ p.2 = -1) ∨ (q.2 = 1 ∧ p.2 = 1))%Z).
Proof.
  assert (Heq : preprocess D = otom1 <$> filter only01 D).
  { unfold preprocess. rewrite <- list_fmap_compose.
    apply list_fmap_ext. intros i p _. apply normalize_id. }
  split; [exact Heq|]. split.
  - rewrite Heq, length_fmap. apply length_filter.
  - intros p. rewrite Heq, list_elem_of_fmap. split.
    + intros (q & -> & [Hq Hin]%list_elem_of_filter).
      exists q. split; [done|]. split; [done|]. unfold otom1. cbn.
      destruct Hq as [Hq|Hq]; rewrite Hq; [left|right]; done.
    + intros (q & Hin & Hpix & Hlab). exists q. split.
      * destruct p as [x y]. unfold otom1. cbn in *. subst x. f_equal.
        destruct Hlab as [[-> ->]|[-> ->]]; done.
      * apply list_elem_of_filter. split; [|done].
        destruct Hlab as [[Hq _]|[Hq _]]; [by left|by right].
Qed.

(** The loader cuts its list into consecutive batches. *)
Lemma batches_spec {A} (n : nat) (l : list A) : ∀ acc,
  (0 < n)%nat → (length acc < n)%nat →
  concat (batches n l acc) = reverse acc ++ l
  ∧ Forall (λ batch, 1 ≤ length batch ≤ n)%nat (batches n l acc)
  ∧ (∀ i batch, batches n l acc !! i = Some batch →
       (S i < length (batches n l acc))%nat → length batch = n).
Proof.
  induction l as [|x l IH]; intros acc Hn Hacc; cbn [batches].
  - destruct acc as [|a acc]; [done|].
    rewrite app_nil_r. cbn [concat]. rewrite app_nil_r.
    split; [done|]. split.
    + constructor; [|done]. cbn beta. rewrite length_reverse. cbn in *. lia.
    + intros [|i] batch; cbn; [lia|done].
  - case_decide as Hfull.
    + destruct (IH [] Hn ltac:(cbn; lia)) as (Hc & Hl & Hi).
      cbn [concat]. rewrite Hc, reverse_cons, reverse_nil, <- app_assoc.
      split; [done|]. split.
      * constructor; [|done]. cbn beta. rewrite length_app, length_reverse. cbn. lia.
      * intros [|i] batch; cbn.
        -- intros [= <-] _. rewrite length_app, length_reverse. cbn. lia.
        -- intros Hb Hlt. apply (Hi i batch Hb). lia.
    + destruct (IH (x :: acc) Hn ltac:(cbn; lia)) as (Hc & Hl & Hi).
      rewrite Hc, reverse_cons, <- app_assoc. done.
Qed.

(** X20.  The loaders hand out the preprocessed samples in order, in
    batches of 100: every batch but the last holds exactly 100 samples,
    the last at least one. *)
Theorem loader_partitions (D : list Sample) :
  concat (trainLoader D) = preprocess D
  ∧ Forall (λ batch, 1 ≤ length batch ≤ 100)%nat (trainLoader D)
  ∧ (∀ i batch, trainLoader D !! i = Some batch →
       (S i < length (trainLoader D))%nat → length batch = 100%nat)
  ∧ SVMTest.testLoader D = trainLoader D.
Proof.
  unfold trainLoader, SVMTest.testLoader.
  destruct (batches_spec 100 (preprocess D) []) as (Hc & Hl & Hi); [lia|cbn; lia|].
  done.
Qed.

End DataFacts.

Section LossFacts.
Import SVM.
Local Open Scope R_scope.

Lemma mapM_first_Raise {A B} (h : A → result B) (l : list A) (e : exn) :
  (∀ x e', h x = Raise e' → e' = e) →
  Exists (λ x, ∃ e', h x = Raise e') l → mapM h l = Raise e.
Proof.
  intros Hall. induction 1 as [x l [e' Hx]|x l _ IH]; cbn.
  - rewrite Hx. cbn. by rewrite (Hall _ _ Hx).
  - destruct (h x) as [y|e'] eqn:Hx; cbn; [by rewrite IH|].
    by rewrite (Hall _ _ Hx).
Qed.

(** The loss of any batch whose samples fit the model. *)
Lemma batch_loss_hinge (w : list R) (b : R) (batch : list Sample) :
  Forall (λ p : Sample, length p.1 = length w) batch →
  batch_loss {| weight := [w]; bias := [b] |} (batch_X batch) (batch_y batch)
  = Ok (sum ((λ p : Sample, hinge (IZR p.2) (f w b p.1)) <$> batch)).
Proof.
  intros Hshape. unfold batch_loss.
  rewrite (mapM_fmap_Ok _ (λ x, [f w b x])); cycle 1.
  { unfold batch_X. apply Forall_fmap.
    eapply Forall_impl; [exact Hshape|].
    intros p Hp. by apply linear_one_output. }
  cbn [mbind result_bind].
  unfold batch_X. rewrite <- list_fmap_compose.
  rewrite (list_fmap_compose (λ p : Sample, f w b p.1) (λ v, [v])), t_column.
  destruct batch as [|p batch]; [done|].
  set (fs := (λ p0 : Sample, f w b p0.1) <$> p :: batch).
  assert (Hfs : fs = f w b p.1 :: ((λ p0 : Sample, f w b p0.1) <$> batch))
    by reflexivity.
  rewrite Hfs at 1. unfold mul_rows. cbn [mapM].
  rewrite broadcast_mul_same_length
    by (unfold fs, batch_y; by rewrite !length_fmap).
  cbn [mbind result_bind mret result_ret].
  unfold sum2, clamp_min, rsub. cbn [fmap list_fmap sum foldr].
  rewrite Rplus_0_r. rewrite <- list_fmap_compose.
  apply f_equal. unfold fs. apply sum_hinge.
Qed.

Lemma hinge_nonneg (y fx : R) : 0 <= hinge y fx.
Proof. unfold hinge. apply Rmax_l. Qed.

Lemma hinge_zero (y fx : R) : hinge y fx = 0 ↔ 1 <= y * fx.
Proof.
  unfold hinge, Rmax. destruct (Rle_dec 0 (1 - y * fx)); split; intros; lra.
Qed.

Lemma sum_hinge_zero (w : list R) (b : R) (batch : list Sample) :
  0 <= sum ((λ p : Sample, hinge (IZR p.2) (f w b p.1)) <$> batch)
  ∧ (sum ((λ p : Sample, hinge (IZR p.2) (f w b p.1)) <$> batch) = 0
     ↔ Forall (λ p : Sample, 1 <= IZR p.2 * f w b p.1) batch).
Proof.
  induction batch as [|p batch [IH0 IH]]; cbn.
  - split; [lra|]. split; [constructor|done].
  - change (foldr Rplus 0 ((λ p : Sample, hinge (IZR p.2) (f w b p.1)) <$> batch))
      with (sum ((λ p : Sample, hinge (IZR p.2) (f w b p.1)) <$> batch)).
    pose proof (hinge_nonneg (IZR p.2) (f w b p.1)) as Hp.
    split; [lra|]. rewrite Forall_cons, <- IH, <- hinge_zero. split.
    + intros Hsum. split; lra.
    + intros [-> ->]. lra.
Qed.

(** X21.  For a batch whose samples have as many features as the model has
    weights the loss is defined and not negative, and it is zero exactly
    when every sample is on the right side of the margin:
    [y * f(x) >= 1].  A sample with another number of features makes the
    loss raise [RuntimeError]. *)
Theorem batch_loss_zero_iff_margins (w : list R) (b : R) (batch : list Sample) :
  (Forall (λ p : Sample, length p.1 = length w) batch →
   ∃ l, batch_loss {| weight := [w]; bias := [b] |} (batch_X batch) (batch_y batch)
        = Ok l
        ∧ 0 <= l
        ∧ (l = 0 ↔ Forall (λ p : Sample, 1 <= IZR p.2 * f w b p.1) batch))
  ∧ (Exists (λ p : Sample, length p.1 ≠ length w) batch →
     batch_loss {| weight := [w]; bias := [b] |} (batch_X batch) (batch_y batch)
     = Raise RuntimeError).
Proof.
  split.
  - intros Hshape. eexists. split; [by apply batch_loss_hinge|].
    apply sum_hinge_zero.
  - intros Hbad. unfold batch_loss.
    rewrite (mapM_first_Raise _ _ RuntimeError); [done|apply linear_Raise|].
    unfold batch_X. apply Exists_fmap.
    eapply Exists_impl; [exact Hbad|]. intros p Hp. cbn.
    exists RuntimeError. unfold linear. cbn [weight mapM].
    unfold dot. by rewrite zip_strict_differ by done.
Qed.

End LossFacts.

Section AccuracyFacts.
Import SVM SVMTest.
Local Open Scope R_scope.

Lemma concat_fmap_fmap {A B} (g : A → B) (ll : list (list A)) :
  concat ((λ l : list A, g <$> l) <$> ll) = g <$> concat ll.
Proof.
  induction ll as [|l ll IH]; cbn; [done|]. by rewrite IH, fmap_app.
Qed.

Lemma concat_singletons {A} (l : list A) : concat ((λ v, [v]) <$> l) = l.
Proof. induction l as [|x l IH]; cbn; [done|]. by rewrite IH. Qed.

Lemma agreements_fmap {A} (g1 g2 : A → R) (l : list A) :
  agreements (g1 <$> l) (g2 <$> l) = length (filter (λ p, g1 p = g2 p) l).
Proof.
  unfold agreements. induction l as [|x l IH]; [done|].
  cbn [fmap list_fmap zip zip_with]. rewrite !filter_cons. cbn [fst snd].
  destruct (decide (g1 x = g2 x)); cbn [length]; by rewrite <- IH.
Qed.

Lemma filter_length_all {A} (P : A → Prop) `{∀ x, Decision (P x)} (l : list A) :
  length (filter P l) = length l ↔ Forall P l.
Proof.
  induction l as [|x l IH]; [by split; [constructor|]|].
  rewrite filter_cons, Forall_cons. pose proof (length_filter P l) as Hle.
  destruct (decide (P x)); cbn [length].
  - rewrite <- IH. split; [intros [= ?]; done|intros [_ ->]; done].
  - split; [lia|]. by intros [? _].
Qed.

Lemma concatenate_Ok {A} (arrays : list (list A)) :
  arrays ≠ [] → concatenate arrays = Ok (concat arrays).
Proof. by destruct arrays. Qed.

(** The predictions and labels of a loader whose samples fit the model. *)
Lemma predictions_Ok (w : list R) (b : R) (loader : list (list Sample)) :
  Forall (Forall (λ p : Sample, length p.1 = length w)) loader →
  loader ≠ [] →
  predictions w b loader
  = Ok ((λ p : Sample, [f w b p.1]) <$> concat loader,
        (λ p : Sample, IZR p.2) <$> concat loader).
Proof.
  intros Hshape Hne. unfold predictions.
  rewrite (mapM_fmap_Ok _ (λ batch : list Sample,
                             (λ p : Sample, [f w b p.1]) <$> batch)); cycle 1.
  { eapply Forall_impl; [exact Hshape|]. intros batch Hbatch. cbn beta.
    unfold batch_X.
    rewrite (mapM_fmap_Ok _ (λ x, [f w b x])).
    - by rewrite <- list_fmap_compose.
    - apply Forall_fmap. eapply Forall_impl; [exact Hbatch|].
      intros p Hp. by apply linear_one_output. }
  cbn [mbind result_bind].
  rewrite !concatenate_Ok by (by destruct loader).
  cbn [mbind result_bind]. unfold batch_y.
  by rewrite !concat_fmap_fmap.
Qed.

Lemma sign_label (y : Z) (fx : R) :
  y = 1%Z ∨ y = (-1)%Z → (sign fx = IZR y ↔ 0 < IZR y * fx).
Proof.
  unfold sign. intros [-> | ->];
    destruct (Rlt_dec 0 fx); try destruct (Rlt_dec fx 0); split; intros; lra.
Qed.

(** X22.  For a loader whose samples fit the model and that holds at least
    one sample, the test cell returns the share, in percent, of the
    samples whose prediction has the sign of the label, whatever the
    batches the samples come in: a number between 0 and 100, and 100
    exactly when every sample is classified correctly.  For a label of -1
    or +1 this is [y * f(x) > 0], so a prediction of zero counts as an
    error. *)
Theorem accuracy_counts_correct_signs (w : list R) (b : R)
    (loader : list (list Sample)) :
  Forall (Forall (λ p : Sample, length p.1 = length w)) loader →
  concat loader ≠ [] →
  ∃ acc,
    accuracy w b loader = Accuracy acc
    ∧ acc = INR (length (filter (λ p : Sample, sign (f w b p.1) = IZR p.2)
                           (concat loader)))
            / INR (length (concat loader)) * 100
    ∧ 0 <= acc <= 100
    ∧ (acc = 100 ↔ Forall (λ p : Sample, sign (f w b p.1) = IZR p.2) (concat loader))
    ∧ (∀ p : Sample, p.2 = 1%Z ∨ p.2 = (-1)%Z →
         (sign (f w b p.1) = IZR p.2 ↔ 0 < IZR p.2 * f w b p.1)).
Proof.
  intros Hshape Hsome.
  assert (Hne : loader ≠ []) by (by intros ->).
  set (S := concat loader) in *.
  set (correct := λ p : Sample, sign (f w b p.1) = IZR p.2).
  assert (Hn : (0 < length S)%nat) by (destruct S; cbn; [done|lia]).
  assert (Hk : (length (filter correct S) ≤ length S)%nat) by apply length_filter.
  assert (HN : 0 < INR (length S)) by (by apply lt_0_INR).
  assert (HK : 0 <= INR (length (filter correct S)) <= INR (length S))
    by (split; [apply pos_INR|by apply le_INR]).
  eexists. split; [|split; [reflexivity|]].
  - unfold accuracy. rewrite predictions_Ok by done. fold S.
    rewrite length_fmap, decide_False by lia.
    rewrite (list_fmap_compose (λ p : Sample, f w b p.1) (λ v, [v])),
      concat_singletons, <- list_fmap_compose.
    by rewrite (agreements_fmap (sign ∘ (λ p : Sample, f w b p.1))
                  (λ p : Sample, IZR p.2)).
  - assert (Hq : 0 < / INR (length S)) by (by apply Rinv_0_lt_compat).
    assert (HNq : INR (length S) * / INR (length S) = 1) by (apply Rinv_r; lra).
    split; [|split].
    + unfold Rdiv. split; nra.
    + rewrite <- (filter_length_all correct S). split.
      * intros Hacc. apply INR_eq. unfold Rdiv in Hacc. nra.
      * intros ->. unfold Rdiv. nra.
    + intros p. apply sign_label.
Qed.

End AccuracyFacts.

Lemma accuracy_example :
  ∃ acc,
    SVMTest.accuracy [1%R; 1%R] 0%R
      [[([1%R; 2%R], 1%Z)]; [([3%R; 4%R], (-1)%Z)]]
    = SVMTest.Accuracy acc
    ∧ (0 <= acc <= 100)%R.
Proof.
  destruct (accuracy_counts_correct_signs [1%R; 1%R] 0%R
              [[([1%R; 2%R], 1%Z)]; [([3%R; 4%R], (-1)%Z)]])
    as (acc & Hacc & _ & Hrange & _).
  - repeat constructor.
  - done.
  - by exists acc.
Defined.
